(** * gosort: partition, concurrent chunk sort and k-way merge

    A shallow embedding of [main.go]: the chunk partitioner
    [splitIntoChunks], the goroutine-per-chunk sorter
    [sortChunksConcurrently], the linear-scan merge [mergeSortedChunks]
    and the three command-line modes built on them.

    Go values are modelled as follows.
    - [int] is [Z].  The only arithmetic on [int] in the program is on
      lengths, cursors and offsets; they stay between 0 and the length of
      the slice they index (lemmas [splitIntoChunks_spec] and
      [merge_run_spec]), so 64-bit wrap-around cannot occur and is not
      written out.  The two conversions through [float64] are modelled
      bit-exactly (module [F64]).
    - [[]int] is a slice header ([off], [len], [cap]) into a backing
      [array]; sub-slices share the array of the slice they are cut from,
      and [sort.Ints] writes through the header into that array.
    - [[][]int] is a list of slice headers; where a function only reads
      the chunks ([mergeSortedChunks]) it takes their contents.
    - a run-time panic (index or slice bound out of range, a length that
      [make] refuses) is the
      [Panic] outcome; the one unbounded loop, in [mergeSortedChunks], is
      given fuel and would report [OutOfFuel], which it never does. *)

From Stdlib Require Import String DecimalString.
From Stdlib Require Import ZArith List Lia Bool Permutation Sorted SpecFloat.
Import ListNotations.
Local Open Scope Z_scope.

(** ** Outcomes of a call *)

Inductive outcome (A : Type) : Type :=
| Done (a : A)
| Panic
| OutOfFuel.

Arguments Done {A} a.
Arguments Panic {A}.
Arguments OutOfFuel {A}.

Definition bind {A B : Type} (c : outcome A) (k : A -> outcome B) : outcome B :=
  match c with
  | Done a => k a
  | Panic => Panic
  | OutOfFuel => OutOfFuel
  end.

Notation "x <- c ;; k" := (bind c (fun x => k))
  (at level 61, c at next level, right associativity).
Notation "' p <- c ;; k" := (bind c (fun p => k))
  (at level 61, p pattern, c at next level, right associativity).

(** Go's indexing [l[i]] with its bounds check. *)
Definition index {A : Type} (l : list A) (i : Z) : outcome A :=
  if i <? 0 then Panic
  else match nth_error l (Z.to_nat i) with
       | Some x => Done x
       | None => Panic
       end.

(** [l[i] = x] on a list that is known to be long enough. *)
Fixpoint upd {A : Type} (i : nat) (x : A) (l : list A) : list A :=
  match l, i with
  | [], _ => []
  | _ :: t, O => x :: t
  | h :: t, S i' => h :: upd i' x t
  end.

(** ** IEEE 754 binary64, as used by [splitIntoChunks]

    [float64(n)], [math.Sqrt], [math.Ceil] and the conversion back to
    [int], over the Standard Library's specification of binary floating
    point ([SpecFloat], precision 53, maximal exponent 1024). *)

Module F64.

Definition prec : Z := 53.
Definition emax : Z := 1024.
Definition float64 : Type := spec_float.

(** [float64(n)]: round to nearest, ties to even. *)
Definition of_int (n : Z) : float64 := binary_normalize prec emax n 0 false.

(** [math.Sqrt]: correctly rounded square root. *)
Definition Sqrt (x : float64) : float64 := SFsqrt prec emax x.

(** [math.Ceil]: least integral value not below [x]; zeros, infinities
    and NaN are returned unchanged. *)
Definition Ceil (x : float64) : float64 :=
  match x with
  | S754_finite s m e =>
      if 0 <=? e then x
      else
        let v := if s then Z.neg m else Z.pos m in
        binary_normalize prec emax (- ((- v) / 2 ^ (- e))) 0 s
  | _ => x
  end.

(** [int(x)]: truncation toward zero; a value outside [int]'s range
    (or NaN) converts to the least [int], as on amd64. *)
Definition to_int (x : float64) : Z :=
  match x with
  | S754_zero _ => 0
  | S754_finite s m e =>
      let v := if s then Z.neg m else Z.pos m in
      let t := if 0 <=? e then v * 2 ^ e else Z.quot v (2 ^ (- e)) in
      if (- 2 ^ 63 <=? t) && (t <? 2 ^ 63) then t else - 2 ^ 63
  | _ => - 2 ^ 63
  end.

End F64.

(** ** Slices over a backing array *)

Definition array : Type := list Z.

Record slice : Type := mkSlice { off : Z; len : Z; cap : Z }.

(** The elements a slice header denotes in an array. *)
Definition view (a : array) (s : slice) : list Z :=
  firstn (Z.to_nat (len s)) (skipn (Z.to_nat (off s)) a).

(** Overwrite the elements a slice header denotes. *)
Definition store (a : array) (s : slice) (vs : list Z) : array :=
  firstn (Z.to_nat (off s)) a ++ vs ++ skipn (Z.to_nat (off s + len s)) a.

(** The slice expression [s[lo:hi]]; it panics unless
    [0 <= lo <= hi <= cap(s)]. *)
Definition reslice (s : slice) (lo hi : Z) : outcome slice :=
  if (0 <=? lo) && (lo <=? hi) && (hi <=? cap s)
  then Done (mkSlice (off s + lo) (hi - lo) (cap s - lo))
  else Panic.

(** A header that lies inside its array. *)
Definition wf_slice (a : array) (s : slice) : Prop :=
  0 <= off s /\ 0 <= len s <= cap s /\ off s + cap s <= Z.of_nat (length a).

(** The header of a freshly allocated slice holding [l].  (A slice grown
    by [append] may have spare capacity; the program never looks at it.) *)
Definition whole (l : list Z) : slice :=
  mkSlice 0 (Z.of_nat (length l)) (Z.of_nat (length l)).

(** ** Chunking logic *)

(** Lines 164-167: [int(math.Ceil(math.Sqrt(float64(n))))], at least 4. *)
Definition numChunks (n : Z) : Z :=
  let c := F64.to_int (F64.Ceil (F64.Sqrt (F64.of_int n))) in
  if c <? 4 then 4 else c.

(** The [for i := 0; i < numChunks; i++] loop of lines 173-181, with
    [todo] iterations left. *)
Fixpoint split_loop (numbers : slice) (baseSize remainder : Z)
  (todo : nat) (i idx : Z) : outcome (list slice) :=
  match todo with
  | O => Done []
  | S todo' =>
      let size := if i <? remainder then baseSize + 1 else baseSize in
      c <- reslice numbers idx (idx + size) ;;
      rest <- split_loop numbers baseSize remainder todo' (i + 1) (idx + size) ;;
      Done (c :: rest)
  end.

Definition splitIntoChunks (numbers : slice) : outcome (list slice) :=
  let n := len numbers in
  let nc := numChunks n in
  let baseSize := Z.quot n nc in
  let remainder := Z.rem n nc in
  split_loop numbers baseSize remainder (Z.to_nat nc) 0 0.

(** ** Sorting *)

(** [sort.Ints] puts a slice into increasing order.  Increasing order
    determines the result on integers (lemma [sorted_perm_unique]), so the
    library's algorithm is not observable; insertion sort stands for it. *)
Fixpoint insert (x : Z) (l : list Z) : list Z :=
  match l with
  | [] => [x]
  | y :: t => if x <=? y then x :: l else y :: insert x t
  end.

Fixpoint isort (l : list Z) : list Z :=
  match l with
  | [] => []
  | x :: t => insert x (isort t)
  end.

(** [sort.Ints(c)]: in place, through the header, into the shared array. *)
Definition sort_Ints (a : array) (c : slice) : array :=
  store a c (isort (view a c)).

(** The effect of [sortChunksConcurrently] on memory: every goroutine body
    [sort.Ints(chunks[i])] has run.  The goroutines, the wait group and
    their interleavings are the machine of module [Conc] below, every
    complete run of which on the chunks of a partition ends in this
    array.  The function returns the headers it was given. *)
Definition sortChunksConcurrently (a : array) (chunks : list slice)
  : array * list slice :=
  (fold_left sort_Ints chunks a, chunks).

(** ** The goroutines of [sortChunksConcurrently] *)

Module Conc.

(** Goroutine [i] of line 194: not yet created by the loop; created,
    [sort.Ints] not yet run; [sort.Ints] returned, the deferred [wg.Done]
    pending; exited. *)
Inductive task : Type := NotStarted | Ready | DoneSorting | Finished.

(** The caller: before [wg.Add], in the spawning loop at index [i],
    at [wg.Wait], past it. *)
Inductive pc : Type := AtAdd | AtLoop (i : nat) | AtWait | AtReturn.

Record state : Type :=
  mkState { mem : array; wg : Z; main : pc; tasks : list task }.

(** What the scheduler may run next: the caller, the [sort.Ints] call of
    goroutine [i], or its deferred [wg.Done]. *)
Inductive action : Type := Main | SortInts (i : nat) | WgDone (i : nat).

Definition init (a : array) (chunks : list slice) : state :=
  mkState a 0 AtAdd (repeat NotStarted (length chunks)).

(** One scheduling step; [None] when the chosen thread cannot run
    (it is blocked, not created or already finished). *)
Definition step (chunks : list slice) (s : state) (act : action) : option state :=
  match act with
  | Main =>
      match main s with
      | AtAdd =>
          Some (mkState (mem s) (wg s + Z.of_nat (length chunks)) (AtLoop 0) (tasks s))
      | AtLoop i =>
          if (i <? length chunks)%nat
          then Some (mkState (mem s) (wg s) (AtLoop (S i)) (upd i Ready (tasks s)))
          else Some (mkState (mem s) (wg s) AtWait (tasks s))
      | AtWait =>
          if wg s =? 0
          then Some (mkState (mem s) (wg s) AtReturn (tasks s))
          else None
      | AtReturn => None
      end
  | SortInts i =>
      match nth_error (tasks s) i, nth_error chunks i with
      | Some Ready, Some c =>
          Some (mkState (sort_Ints (mem s) c) (wg s) (main s) (upd i DoneSorting (tasks s)))
      | _, _ => None
      end
  | WgDone i =>
      match nth_error (tasks s) i with
      | Some DoneSorting =>
          Some (mkState (mem s) (wg s - 1) (main s) (upd i Finished (tasks s)))
      | _ => None
      end
  end.

(** A schedule is a list of actions; it runs if each step is enabled. *)
Fixpoint run (chunks : list slice) (s : state) (sched : list action) : option state :=
  match sched with
  | [] => Some s
  | act :: sched' =>
      match step chunks s act with
      | Some s' => run chunks s' sched'
      | None => None
      end
  end.

(** The actions enabled in a state, the caller's first. *)
Definition enabled (chunks : list slice) (s : state) : list action :=
  filter (fun act => match step chunks s act with Some _ => true | None => false end)
    (Main :: map SortInts (seq 0 (length chunks)) ++ map WgDone (seq 0 (length chunks))).

(** The schedule that creates every goroutine, lets them run to
    completion in index order and then lets the caller pass the barrier. *)
Definition in_order (chunks : list slice) : list action :=
  Main :: repeat Main (length chunks) ++ [Main]
    ++ flat_map (fun i => [SortInts i; WgDone i]) (seq 0 (length chunks))
    ++ [Main].

(** Steps that remain before the caller has returned, whatever the
    scheduler does. *)
Definition task_weight (t : task) : nat :=
  match t with NotStarted => 3 | Ready => 2 | DoneSorting => 1 | Finished => 0 end.

Definition pc_weight (p : pc) : nat :=
  match p with AtAdd => 3 | AtLoop _ => 2 | AtWait => 1 | AtReturn => 0 end.

Definition weight (s : state) : nat :=
  (pc_weight (main s) + fold_right (fun t n => task_weight t + n) 0 (tasks s))%nat.

(** Goroutines that have not yet called [wg.Done]. *)
Definition pending (ts : list task) : Z :=
  fold_right (fun t n => (match t with Finished => 0 | _ => 1 end) + n) 0 ts.

(** What the span of chunk [c] holds when its goroutine is in state [t]:
    its contents in the caller's array [a], sorted once [sort.Ints] has
    returned. *)
Definition block (a : array) (c : slice) (t : task) : list Z :=
  match t with
  | NotStarted | Ready => view a c
  | DoneSorting | Finished => isort (view a c)
  end.

Fixpoint blocks (a : array) (chunks : list slice) (ts : list task) : list (list Z) :=
  match chunks, ts with
  | c :: cs, t :: ts' => block a c t :: blocks a cs ts'
  | _, _ => []
  end.

(** How the caller's position, the wait-group counter and the goroutine
    states hang together in every reachable state. *)
Definition control_ok (n : nat) (s : state) : Prop :=
  length (tasks s) = n /\
  match main s with
  | AtAdd => wg s = 0 /\ tasks s = repeat NotStarted n
  | AtLoop i =>
      (i <= n)%nat /\ wg s = pending (tasks s) /\
      forall j, nth_error (tasks s) j = Some NotStarted <-> (i <= j < n)%nat
  | AtWait =>
      wg s = pending (tasks s) /\
      forall j, nth_error (tasks s) j <> Some NotStarted
  | AtReturn =>
      wg s = 0 /\ forall j t, nth_error (tasks s) j = Some t -> t = Finished
  end.

(** The array when the goroutines are in states [ts]: the caller's array
    [a] with the span from [o] to [e] replaced by the chunks' blocks. *)
Definition layout (a : array) (o e : Z) (chunks : list slice) (ts : list task) : array :=
  firstn (Z.to_nat o) a ++ concat (blocks a chunks ts) ++ skipn (Z.to_nat e) a.

End Conc.

(** ** Merge logic *)

(** The body of [for i := range chunks] (lines 218-224) on the running
    minimum [(minVal, minChunk)]. *)
Definition scan_body (chunks : list (list Z)) (indices : list Z)
  (st : Z * Z) (i : nat) : outcome (Z * Z) :=
  let '(minVal, minChunk) := st in
  ix <- index indices (Z.of_nat i) ;;
  c <- index chunks (Z.of_nat i) ;;
  if ix <? Z.of_nat (length c) then
    val <- index c ix ;;
    if (minChunk =? -1) || (val <? minVal)
    then Done (val, Z.of_nat i)
    else Done (minVal, minChunk)
  else Done (minVal, minChunk).

Fixpoint scan_range (chunks : list (list Z)) (indices : list Z)
  (range : list nat) (st : Z * Z) : outcome (Z * Z) :=
  match range with
  | [] => Done st
  | i :: range' =>
      st' <- scan_body chunks indices st i ;;
      scan_range chunks indices range' st'
  end.

(** Lines 214-225: one pass over the chunks from [minVal := 0],
    [minChunk := -1]. *)
Definition scan (chunks : list (list Z)) (indices : list Z) : outcome (Z * Z) :=
  scan_range chunks indices (seq 0 (length chunks)) (0, -1).

(** [indices[minChunk]++]. *)
Definition incr (indices : list Z) (k : Z) : outcome (list Z) :=
  v <- index indices k ;;
  Done (upd (Z.to_nat k) (v + 1) indices).

(** The [for { ... }] loop of lines 213-233, at most [fuel] iterations. *)
Fixpoint merge_loop (fuel : nat) (chunks : list (list Z)) (indices : list Z)
  (result : list Z) : outcome (list Z) :=
  match fuel with
  | O => OutOfFuel
  | S fuel' =>
      '(minVal, minChunk) <- scan chunks indices ;;
      if minChunk =? -1 then Done result
      else
        indices' <- incr indices minChunk ;;
        merge_loop fuel' chunks indices' (result ++ [minVal])
  end.

(** Elements of all chunks together. *)
Definition total (chunks : list (list Z)) : nat := length (concat chunks).

(** The loop emits one element per iteration and then needs one more
    pass to find every cursor at its end, so [total chunks + 1] iterations
    are all it can use. *)
Definition mergeSortedChunks (chunks : list (list Z)) : outcome (list Z) :=
  merge_loop (S (total chunks)) chunks (repeat 0 (length chunks)) [].

(** The same loop, recording for every iteration that emits an element
    the cursors it scanned with, the value and the chunk it chose. *)
Fixpoint merge_trace (fuel : nat) (chunks : list (list Z)) (indices : list Z)
  : outcome (list (list Z * Z * Z)) :=
  match fuel with
  | O => OutOfFuel
  | S fuel' =>
      '(minVal, minChunk) <- scan chunks indices ;;
      if minChunk =? -1 then Done []
      else
        indices' <- incr indices minChunk ;;
        rest <- merge_trace fuel' chunks indices' ;;
        Done ((indices, minVal, minChunk) :: rest)
  end.

Definition mergeTrace (chunks : list (list Z)) : outcome (list (list Z * Z * Z)) :=
  merge_trace (S (total chunks)) chunks (repeat 0 (length chunks)).

(** ** The pipeline

    The three calls of [processAndPrint] and of the loop body of
    [runDirectory] (lines 123-125), on the array that holds the caller's
    sequence.  The result is the array afterwards and the merged output. *)
Definition pipeline (a : array) (numbers : slice) : outcome (array * list Z) :=
  chunks <- splitIntoChunks numbers ;;
  let '(a', sortedChunks) := sortChunksConcurrently a chunks in
  result <- mergeSortedChunks (map (view a') sortedChunks) ;;
  Done (a', result).

(** ** Console output and errors *)

(** What the program prints: a line of text, a slice ([fmt.Println] of a
    [[]int]) or one line of [printChunks]. *)
Inductive event : Type :=
| PrintLine (s : string)
| PrintInts (l : list Z)
| PrintChunk (i : Z) (c : list Z).

(** A Go [error] is its message; [nil] is [None]. *)
Definition error : Type := string.

Definition printChunks (a : array) (chunks : list slice) : list event :=
  map (fun ic => PrintChunk (Z.of_nat (fst ic)) (view a (snd ic)))
    (combine (seq 0 (length chunks)) chunks).

(** Lines 140-155.  [fmt.Println] of a string that starts with a newline
    prints an empty line first. *)
Definition processAndPrint (a : array) (numbers : slice)
  : outcome (array * list event) :=
  chunks <- splitIntoChunks numbers ;;
  let out1 :=
    [PrintLine EmptyString; PrintLine "Chunks before sorting:"%string]
      ++ printChunks a chunks in
  let '(a', sortedChunks) := sortChunksConcurrently a chunks in
  let out2 :=
    [PrintLine EmptyString; PrintLine "Chunks after sorting:"%string]
      ++ printChunks a' sortedChunks in
  result <- mergeSortedChunks (map (view a') sortedChunks) ;;
  Done (a', out1 ++ out2
            ++ [PrintLine EmptyString; PrintLine "Final sorted result:"%string;
                PrintInts result]).

(** ** -r mode *)

(** [make([]int, n)].  The runtime (makeslice) panics with "len out of
    range" on a negative length and on a length whose elements, 8 bytes
    each, need more than [maxAlloc] bytes, the allocation limit of the
    platform.  A request within the limit returns [n] zeros: that the
    machine has the memory is taken for granted, here as for every other
    allocation of the program. *)
Definition make_ints (maxAlloc n : Z) : outcome (list Z) :=
  if (n <? 0) || (maxAlloc <? 8 * n) then Panic
  else Done (repeat 0 (Z.to_nat n)).

(** The limit on linux/amd64, where the heap has 48 address bits. *)
Definition linux_amd64_maxAlloc : Z := 2 ^ 48.

Section RandomMode.

(** The state of the process-wide random source and [rand.Intn]. *)
Variable rng : Type.
Variable Intn : Z -> rng -> Z * rng.

(** The allocation limit of the runtime, in bytes. *)
Variable maxAlloc : Z.

(** The random source after [k] calls of [rand.Intn(1000)]. *)
Fixpoint rng_after (k : nat) (g : rng) : rng :=
  match k with
  | O => g
  | S k' => rng_after k' (snd (Intn 1000 g))
  end.

(** The loop of lines 244-246 over the freshly made slice. *)
Fixpoint fill_random (nums : list Z) (g : rng) : list Z * rng :=
  match nums with
  | [] => ([], g)
  | _ :: rest =>
      let '(v, g1) := Intn 1000 g in
      let '(rest', g2) := fill_random rest g1 in
      (v :: rest', g2)
  end.

Definition generateRandomNumbers (n : Z) (g : rng) : outcome (list Z * rng) :=
  nums <- make_ints maxAlloc n ;;
  Done (fill_random nums g).

Definition runRandom (n : Z) (g : rng) : outcome (option error * rng * list event) :=
  if n <? 10 then Done (Some "N must be >= 10"%string, g, [])
  else
    '(numbers, g') <- generateRandomNumbers n g ;;
    let out0 := [PrintLine "Original numbers:"%string; PrintInts numbers] in
    '(_, out1) <- processAndPrint numbers (whole numbers) ;;
    Done (None, g', out0 ++ out1).

End RandomMode.

(** ** -i and -d modes *)

(** The library functions the file modes call. *)
Record GoLib : Type := mkGoLib {
  TrimSpace : string -> string;
  Atoi : string -> option Z;
  Ext : string -> string;
  Join : string -> string -> string
}.

(** What a [bufio.Scanner] yields on an opened file: the lines that
    [Scan] delivers and the final [scanner.Err()]. *)
Record scanned : Type := mkScanned { tokens : list string; scan_err : option error }.

(** The operating system calls, on a state [world] of the file system:
    [os.Open] followed by scanning, [os.Stat] with [IsDir], [os.MkdirAll],
    [os.ReadDir] (entry names), [os.Create] and [fmt.Fprintln] of one
    integer to the created file. *)
Record OS (world : Type) : Type := mkOS {
  os_open : world -> string -> error + scanned;
  os_is_dir : world -> string -> bool;
  os_mkdir_all : world -> string -> error + world;
  os_read_dir : world -> string -> error + list string;
  os_create : world -> string -> error + world;
  os_fprintln : world -> string -> Z -> world
}.

Arguments os_open {world} _ _ _.
Arguments os_is_dir {world} _ _ _.
Arguments os_mkdir_all {world} _ _ _.
Arguments os_read_dir {world} _ _ _.
Arguments os_create {world} _ _ _.
Arguments os_fprintln {world} _ _ _ _.

Section FileModes.

Variable lib : GoLib.
Variable world : Type.
Variable os : OS world.

(** The scanning loop of lines 260-270 on the lines still to come. *)
Fixpoint read_loop (lines : list string) (numbers : list Z) : error + list Z :=
  match lines with
  | [] => inr numbers
  | text :: rest =>
      let line := TrimSpace lib text in
      if String.eqb line EmptyString then read_loop rest numbers
      else
        match Atoi lib line with
        | None => inl (String.append "invalid integer: " line)
        | Some val => read_loop rest (numbers ++ [val])
        end
  end.

Definition readNumbersFromFile (w : world) (path : string) : list Z * option error :=
  match os_open os w path with
  | inl err => ([], Some err)
  | inr sc =>
      match read_loop (tokens sc) [] with
      | inl err => ([], Some err)
      | inr numbers => (numbers, scan_err sc)
      end
  end.

Definition runInputFile (w : world) (path : string) : outcome (option error * list event) :=
  match readNumbersFromFile w path with
  | (_, Some err) => Done (Some err, [])
  | (numbers, None) =>
      if Z.of_nat (length numbers) <? 10
      then Done (Some "input file must contain at least 10 valid integers"%string, [])
      else
        let out0 := [PrintLine "Original numbers:"%string; PrintInts numbers] in
        '(_, out1) <- processAndPrint numbers (whole numbers) ;;
        Done (None, out0 ++ out1)
  end.

(** Lines 275-286; the result of [fmt.Fprintln] is not looked at. *)
Definition writeNumbersToFile (w : world) (path : string) (nums : list Z)
  : world * option error :=
  match os_create os w path with
  | inl err => (w, Some err)
  | inr w1 => (fold_left (fun w' n => os_fprintln os w' path n) nums w1, None)
  end.

(** The loop of lines 109-131 over the directory entries still to come. *)
Fixpoint dir_loop (w : world) (dir outputDir : string) (files : list string)
  : outcome (world * option error) :=
  match files with
  | [] => Done (w, None)
  | f :: rest =>
      if negb (String.eqb (Ext lib f) ".txt") then dir_loop w dir outputDir rest
      else
        let inputPath := Join lib dir f in
        match readNumbersFromFile w inputPath with
        | (_, Some err) => Done (w, Some err)
        | (numbers, None) =>
            if Z.of_nat (length numbers) <? 10
            then Done (w, Some (String.append f " has fewer than 10 numbers"))
            else
              '(_, result) <- pipeline numbers (whole numbers) ;;
              let outputPath := Join lib outputDir f in
              match writeNumbersToFile w outputPath result with
              | (w', Some err) => Done (w', Some err)
              | (w', None) => dir_loop w' dir outputDir rest
              end
        end
  end.

Definition runDirectory (w : world) (dir : string) : outcome (world * option error) :=
  if negb (os_is_dir os w dir) then Done (w, Some "invalid directory"%string)
  else
    let outputDir := String.append dir "_sorted_sandra_jaimy_241ADB123" in
    match os_mkdir_all os w outputDir with
    | inl err => Done (w, Some err)
    | inr w1 =>
        match os_read_dir os w1 dir with
        | inl err => Done (w1, Some err)
        | inr files => dir_loop w1 dir outputDir files
        end
    end.

(** The lines of the file at [path] as the scanner delivers them; none
    when it cannot be opened. *)
Definition lines_of (w : world) (path : string) : list string :=
  match os_open os w path with
  | inl _ => []
  | inr sc => tokens sc
  end.

(** A line that is not blank after trimming and that [strconv.Atoi]
    rejects. *)
Definition bad_line (text : string) : Prop :=
  TrimSpace lib text <> EmptyString /\ Atoi lib (TrimSpace lib text) = None.

(** The integers on the non-blank lines, when all of them parse. *)
Fixpoint values_of (lines : list string) : list Z :=
  match lines with
  | [] => []
  | text :: rest =>
      if String.eqb (TrimSpace lib text) EmptyString then values_of rest
      else
        match Atoi lib (TrimSpace lib text) with
        | Some val => val :: values_of rest
        | None => values_of rest
        end
  end.

(** The first non-blank line that [strconv.Atoi] rejects, trimmed. *)
Fixpoint first_bad (lines : list string) : option string :=
  match lines with
  | [] => None
  | text :: rest =>
      let line := TrimSpace lib text in
      if String.eqb line EmptyString then first_bad rest
      else
        match Atoi lib line with
        | None => Some line
        | Some _ => first_bad rest
        end
  end.

End FileModes.

(** ** An instance to run the file and random modes on

    ASCII versions of the library functions, a linear congruential
    random source and a flat in-memory file system.  The theorems below
    hold for every [GoLib], [OS] and random source; this instance is what
    their examples evaluate. *)

Module Demo.

Import Ascii.

Definition is_space (c : ascii) : bool :=
  let n := nat_of_ascii c in
  ((9 <=? n) && (n <=? 13) || (n =? 32))%nat.

Fixpoint drop_space (l : list ascii) : list ascii :=
  match l with
  | [] => []
  | c :: t => if is_space c then drop_space t else l
  end.

Definition trim_space (s : string) : string :=
  string_of_list_ascii
    (rev (drop_space (rev (drop_space (list_ascii_of_string s))))).

Definition digit (c : ascii) : option Z :=
  let n := Z.of_nat (nat_of_ascii c) in
  if (48 <=? n) && (n <=? 57) then Some (n - 48) else None.

Fixpoint digits (l : list ascii) (acc : Z) : option Z :=
  match l with
  | [] => Some acc
  | c :: t =>
      match digit c with
      | Some d => digits t (10 * acc + d)
      | None => None
      end
  end.

(** Base 10, an optional sign, at least one digit, within 64 bits. *)
Definition atoi (s : string) : option Z :=
  let parse (neg : bool) (ds : list ascii) :=
    match ds with
    | [] => None
    | _ =>
        match digits ds 0 with
        | Some v =>
            let v' := if neg then - v else v in
            if (- 2 ^ 63 <=? v') && (v' <? 2 ^ 63) then Some v' else None
        | None => None
        end
    end in
  match list_ascii_of_string s with
  | [] => None
  | c :: t =>
      if Ascii.eqb c "-" then parse true t
      else if Ascii.eqb c "+" then parse false t
      else parse false (c :: t)
  end.

(** The suffix from the last dot of the last path element. *)
Fixpoint ext_rev (r acc : list ascii) : list ascii :=
  match r with
  | [] => []
  | c :: t =>
      if Ascii.eqb c "." then c :: acc
      else if Ascii.eqb c "/" then []
      else ext_rev t (c :: acc)
  end.

Definition ext (s : string) : string :=
  string_of_list_ascii (ext_rev (rev (list_ascii_of_string s)) []).

Definition join (d f : string) : string :=
  String.append d (String.append "/" f).

Definition lib : GoLib := mkGoLib trim_space atoi ext join.

(** Directories by name, files by full path with their lines. *)
Record memfs : Type := mkMemfs {
  m_dirs : list string;
  m_files : list (string * list string)
}.

Fixpoint lookup (path : string) (fs : list (string * list string))
  : option (list string) :=
  match fs with
  | [] => None
  | (p, ls) :: rest => if String.eqb p path then Some ls else lookup path rest
  end.

Fixpoint strip_prefix (p s : string) : option string :=
  match p, s with
  | EmptyString, _ => Some s
  | String a p', String b s' => if Ascii.eqb a b then strip_prefix p' s' else None
  | String _ _, EmptyString => None
  end.

Definition m_open (w : memfs) (path : string) : error + scanned :=
  match lookup path (m_files w) with
  | Some ls => inr (mkScanned ls None)
  | None => inl (String.append "open " (String.append path ": no such file or directory"))
  end.

Definition m_is_dir (w : memfs) (d : string) : bool :=
  existsb (String.eqb d) (m_dirs w).

Definition m_mkdir_all (w : memfs) (d : string) : error + memfs :=
  inr (if m_is_dir w d then w else mkMemfs (d :: m_dirs w) (m_files w)).

Definition m_read_dir (w : memfs) (d : string) : error + list string :=
  inr (flat_map
         (fun pl => match strip_prefix (String.append d "/") (fst pl) with
                    | Some name => [name]
                    | None => []
                    end)
         (m_files w)).

Definition m_create (w : memfs) (path : string) : error + memfs :=
  inr (mkMemfs (m_dirs w)
         ((path, []) :: filter (fun pl => negb (String.eqb (fst pl) path)) (m_files w))).

Definition format_int (n : Z) : string :=
  DecimalString.NilZero.string_of_int (Z.to_int n).

Definition m_fprintln (w : memfs) (path : string) (n : Z) : memfs :=
  mkMemfs (m_dirs w)
    (map (fun pl => if String.eqb (fst pl) path
                    then (fst pl, snd pl ++ [format_int n])
                    else pl)
       (m_files w)).

Definition os : OS memfs :=
  mkOS memfs m_open m_is_dir m_mkdir_all m_read_dir m_create m_fprintln.

(** A 64-bit linear congruential generator; [Intn k] takes the high bits
    modulo [k]. *)
Definition lcg_Intn (k : Z) (g : Z) : Z * Z :=
  let g' := (g * 6364136223846793005 + 1442695040888963407) mod 2 ^ 64 in
  ((g' / 2 ^ 33) mod k, g').

(** Two input files: ten integers with a blank line and padding, and a
    file with the line [abc] among integers. *)
Definition good_lines : list string :=
  ["10"; " 9"; "8 "; "7"; "6"; "5"; "4"; " "; "3"; "2"; "-1"]%string.

Definition bad_lines : list string :=
  ["10"; "9"; "abc"; "8"; "7"; "6"; "5"; "4"; "3"; "2"; "1"]%string.

Definition disk : memfs :=
  mkMemfs ["in"%string]
    [("in/a.txt", good_lines); ("in/b.txt", bad_lines); ("in/notes.md", ["x"]);
     ("in/short.txt", ["1"; "2"; "3"])]%string.

End Demo.

(** ** Vocabulary of the statements *)

(** Consecutive headers: each chunk starts where the one before it ends;
    [tiles o chunks e] covers the offsets from [o] up to [e]. *)
Fixpoint tiles (o : Z) (chunks : list slice) (e : Z) : Prop :=
  match chunks with
  | [] => o = e
  | c :: rest => off c = o /\ 0 <= len c /\ tiles (o + len c) rest e
  end.

(** The least integer whose square is at least [n]. *)
Definition ceil_sqrt (n : Z) : Z :=
  let s := Z.sqrt n in
  if s * s =? n then s else s + 1.

(** Every cursor lies between 0 and the end of its chunk. *)
Definition cursors_ok (chunks : list (list Z)) (indices : list Z) : Prop :=
  Forall2 (fun c ix => 0 <= ix <= Z.of_nat (length c)) chunks indices.

(** The element under the cursor of chunk [j], when that cursor has not
    reached the end of the chunk. *)
Definition head_at (chunks : list (list Z)) (indices : list Z) (j : nat) : option Z :=
  match nth_error chunks j, nth_error indices j with
  | Some c, Some ix =>
      if ix <? Z.of_nat (length c) then nth_error c (Z.to_nat ix) else None
  | _, _ => None
  end.

(** The elements not yet consumed, chunk by chunk. *)
Fixpoint remaining (chunks : list (list Z)) (indices : list Z) : list Z :=
  match chunks, indices with
  | c :: cs, ix :: ixs => skipn (Z.to_nat ix) c ++ remaining cs ixs
  | _, _ => []
  end.

(** [v] is taken from chunk [c]: it is the element under that chunk's
    cursor, no cursor holds a smaller element, and every chunk before [c]
    holds a strictly larger one. *)
Definition selects (chunks : list (list Z)) (indices : list Z) (v c : Z) : Prop :=
  0 <= c /\
  head_at chunks indices (Z.to_nat c) = Some v /\
  forall j w, head_at chunks indices j = Some w ->
              v <= w /\ (Z.of_nat j < c -> v < w).

(** The cursors after chunk [c] has given its element. *)
Definition advance (indices : list Z) (c : Z) : list Z :=
  upd (Z.to_nat c) (nth (Z.to_nat c) indices 0 + 1) indices.

(** A record of the merge, from cursors [indices] on: each entry holds
    the cursors of its iteration, the selection made there is the one
    described by [selects], the value emitted is the smallest of all
    elements not yet consumed, the next entry starts from the advanced
    cursors, and after the last entry nothing remains. *)
Fixpoint merge_record (chunks : list (list Z)) (indices : list Z)
  (tr : list (list Z * Z * Z)) : Prop :=
  match tr with
  | [] => remaining chunks indices = []
  | (ixs, v, c) :: tr' =>
      ixs = indices /\
      selects chunks indices v c /\
      Forall (fun w => v <= w) (remaining chunks indices) /\
      merge_record chunks (advance indices c) tr'
  end.

(** The state of the running minimum after the chunks before [i] have
    been scanned. *)
Definition scan_inv (chunks : list (list Z)) (indices : list Z) (i : nat)
  (st : Z * Z) : Prop :=
  let '(v, c) := st in
  (c = -1 /\ forall j, (j < i)%nat -> head_at chunks indices j = None) \/
  (0 <= c < Z.of_nat i /\
   head_at chunks indices (Z.to_nat c) = Some v /\
   forall j w, (j < i)%nat -> head_at chunks indices j = Some w ->
               v <= w /\ (Z.of_nat j < c -> v < w)).

(** The values a record emits, in order. *)
Definition emitted (tr : list (list Z * Z * Z)) : list Z :=
  map (fun e => snd (fst e)) tr.

(** A caller's sequence of ten integers in decreasing order, and three
    sorted chunks. *)
Definition ten_down : list Z := [10; 9; 8; 7; 6; 5; 4; 3; 2; 1].

Definition three_chunks : list (list Z) := [[1; 4; 7]; [2; 5]; [3; 6; 8; 9]].

(** The four headers that [splitIntoChunks] cuts from [ten_down]. *)
Definition ten_chunks : list slice :=
  [mkSlice 0 3 10; mkSlice 3 3 7; mkSlice 6 2 4; mkSlice 8 2 2].

(** ** Entry point *)

(** What [flag.Parse] does with the command line for the three flags of
    lines 27-29: it leaves values in [*r], [*i] and [*d] (the defaults -1
    and the empty string for a flag that is not given), or, the default
    flag set being ExitOnError, it ends the process itself: [os.Exit(2)]
    on an undefined flag or a value of -r that is not an integer,
    [os.Exit(0)] on -h. *)
Inductive parse_result : Type :=
| Parsed (r : Z) (i d : string)
| ParseExit (code : Z).

(** How the process ends when it does not panic: [main] returns,
    [log.Fatal] prints its argument and exits with status 1, or
    [flag.Parse] has exited with [code]. *)
Inductive exit_status : Type :=
| Returned
| LogFatal (msg : string)
| FlagExit (code : Z).

Section EntryPoint.

Variable rng : Type.
Variable Intn : Z -> rng -> Z * rng.
Variable maxAlloc : Z.
Variable lib : GoLib.
Variable world : Type.
Variable os : OS world.

(** The parser of package flag, on the arguments after the program
    name. *)
Variable flag_Parse : list string -> parse_result.

Definition fatal_or_exit (err : option error) : exit_status :=
  match err with
  | Some e => LogFatal e
  | None => Returned
  end.

(** Lines 24-48, on the command line [args], the state [g] of the random
    source after [rand.Seed] and the file system [w]. *)
Definition main (args : list string) (g : rng) (w : world)
  : outcome (exit_status * world * list event) :=
  match flag_Parse args with
  | ParseExit code => Done (FlagExit code, w, [])
  | Parsed r i d =>
      if negb (r =? -1) then
        '(err, _, out) <- runRandom rng Intn maxAlloc r g ;;
        Done (fatal_or_exit err, w, out)
      else if negb (String.eqb i EmptyString) then
        '(err, out) <- runInputFile lib world os w i ;;
        Done (fatal_or_exit err, w, out)
      else if negb (String.eqb d EmptyString) then
        '(w', err) <- runDirectory lib world os w d ;;
        Done (fatal_or_exit err, w', [])
      else
        Done (LogFatal "Usage: gosort -r N | -i file.txt | -d directory", w, [])
  end.

End EntryPoint.

(** ** Further vocabulary *)

(** [subseq l1 l2]: [l1] is [l2] with some elements left out, the order
    of the others kept. *)
Inductive subseq {A : Type} : list A -> list A -> Prop :=
| subseq_nil (l : list A) : subseq [] l
| subseq_take (x : A) (l1 l2 : list A) : subseq l1 l2 -> subseq (x :: l1) (x :: l2)
| subseq_skip (x : A) (l1 l2 : list A) : subseq l1 l2 -> subseq l1 (x :: l2).

(** The lines of [printChunks] for chunks with contents [bs]: numbered
    from 0, in order. *)
Definition numbered (bs : list (list Z)) : list event :=
  map (fun ib => PrintChunk (Z.of_nat (fst ib)) (snd ib))
    (combine (seq 0 (length bs)) bs).

(** A caller's sequence shorter than the callers allow, inside a larger
    array. *)
Definition short_array : array := [7; 3; 1; 2; 9].

Definition short_slice : slice := mkSlice 1 3 4.

(** File systems for the directory mode: one good input beside a file of
    another extension, before and after the output directory and the
    output file have been created; and a good input followed by a short
    one. *)
Definition one_input_disk : Demo.memfs :=
  Demo.mkMemfs ["in"%string]
    [("in/a.txt", Demo.good_lines); ("in/notes.md", ["x"])]%string.

Definition one_input_dir_made : Demo.memfs :=
  Demo.mkMemfs ["in_sorted_sandra_jaimy_241ADB123"; "in"]%string
    [("in/a.txt", Demo.good_lines); ("in/notes.md", ["x"])]%string.

Definition one_input_file_made : Demo.memfs :=
  Demo.mkMemfs ["in_sorted_sandra_jaimy_241ADB123"; "in"]%string
    [("in_sorted_sandra_jaimy_241ADB123/a.txt", []);
     ("in/a.txt", Demo.good_lines); ("in/notes.md", ["x"])]%string.

Definition short_input_disk : Demo.memfs :=
  Demo.mkMemfs ["in"%string]
    [("in/a.txt", Demo.good_lines); ("in/short.txt", ["1"; "2"; "3"])]%string.

Definition short_input_dir_made : Demo.memfs :=
  Demo.mkMemfs ["in_sorted_sandra_jaimy_241ADB123"; "in"]%string
    [("in/a.txt", Demo.good_lines); ("in/short.txt", ["1"; "2"; "3"])]%string.

(** * Properties *)

(** ** Outcomes and indexing *)

Lemma bind_Done {A B : Type} (c : outcome A) (k : A -> outcome B) (b : B) :
  bind c k = Done b -> exists a, c = Done a /\ k a = Done b.
Proof. destruct c; simpl; intros H; try discriminate. eauto. Qed.

Lemma index_Done {A : Type} (l : list A) (i : Z) (x : A) :
  index l i = Done x <-> 0 <= i /\ nth_error l (Z.to_nat i) = Some x.
Proof.
  unfold index. destruct (Z.ltb_spec i 0).
  - split; [discriminate | lia].
  - destruct (nth_error l (Z.to_nat i)) eqn:E; split; intros H1.
    + inversion H1; subst. auto.
    + destruct H1 as [_ H1]. congruence.
    + discriminate.
    + destruct H1 as [_ H1]. discriminate.
Qed.

Lemma index_nat {A : Type} (l : list A) (i : nat) (x : A) :
  nth_error l i = Some x -> index l (Z.of_nat i) = Done x.
Proof. intros H. apply index_Done. rewrite Nat2Z.id. split; [lia | exact H]. Qed.

Lemma upd_length {A : Type} (i : nat) (x : A) (l : list A) :
  length (upd i x l) = length l.
Proof.
  revert i. induction l as [| h t IH]; intros [| i]; simpl; auto.
Qed.

Lemma nth_error_upd_same {A : Type} (i : nat) (x : A) (l : list A) :
  (i < length l)%nat -> nth_error (upd i x l) i = Some x.
Proof.
  revert i. induction l as [| h t IH]; intros [| i] Hi; simpl in *; try lia; auto.
  apply IH. lia.
Qed.

Lemma nth_error_upd_other {A : Type} (i j : nat) (x : A) (l : list A) :
  i <> j -> nth_error (upd i x l) j = nth_error l j.
Proof.
  revert i j. induction l as [| h t IH]; intros [| i] [| j] Hij; simpl; auto.
  congruence.
Qed.

(** ** Insertion sort meets the contract of sort.Ints *)

Lemma insert_perm (x : Z) (l : list Z) : Permutation (x :: l) (insert x l).
Proof.
  induction l as [| y t IH]; simpl; [reflexivity|].
  destruct (x <=? y); [reflexivity|].
  rewrite perm_swap. constructor. exact IH.
Qed.

Lemma isort_perm (l : list Z) : Permutation l (isort l).
Proof.
  induction l as [| x t IH]; simpl; [constructor|].
  rewrite <- insert_perm. constructor. exact IH.
Qed.

Lemma isort_length (l : list Z) : length (isort l) = length l.
Proof. symmetry. apply Permutation_length, isort_perm. Qed.

Lemma insert_sorted (x : Z) (l : list Z) :
  StronglySorted Z.le l -> StronglySorted Z.le (insert x l).
Proof.
  induction 1 as [| y t Hs IH Hall]; simpl.
  - repeat constructor.
  - destruct (Z.leb_spec x y).
    + constructor; [constructor; assumption|].
      constructor; [assumption|].
      eapply Forall_impl; [|exact Hall]. intros; lia.
    + constructor; [exact IH|].
      eapply Permutation_Forall; [apply insert_perm|].
      constructor; [lia | exact Hall].
Qed.

Lemma isort_sorted (l : list Z) : StronglySorted Z.le (isort l).
Proof.
  induction l as [| x t IH]; simpl; [constructor | apply insert_sorted, IH].
Qed.

(** Increasing order leaves no choice: two sorted lists with the same
    elements are equal. *)
Lemma sorted_perm_unique (l1 l2 : list Z) :
  StronglySorted Z.le l1 -> StronglySorted Z.le l2 -> Permutation l1 l2 -> l1 = l2.
Proof.
  intros H1. revert l2. induction H1 as [| x t1 Hs1 IH Hall1]; intros l2 H2 Hp.
  - apply Permutation_nil in Hp. congruence.
  - destruct H2 as [| y t2 Hs2 Hall2].
    + apply Permutation_sym, Permutation_nil in Hp. discriminate.
    + assert (Hxy : x = y).
      { assert (Hx : In x (y :: t2)) by (eapply Permutation_in; [exact Hp | left; reflexivity]).
        assert (Hy : In y (x :: t1))
          by (eapply Permutation_in; [apply Permutation_sym; exact Hp | left; reflexivity]).
        rewrite Forall_forall in Hall1, Hall2.
        destruct Hx as [Hx | Hx]; [congruence|].
        destruct Hy as [Hy | Hy]; [congruence|].
        specialize (Hall1 _ Hy). specialize (Hall2 _ Hx). lia. }
      subst y. f_equal. apply IH; [assumption|].
      eapply Permutation_cons_inv; exact Hp.
Qed.

Lemma isort_id (l : list Z) : StronglySorted Z.le l -> isort l = l.
Proof.
  intros H. apply sorted_perm_unique; [apply isort_sorted | exact H|].
  apply Permutation_sym, isort_perm.
Qed.

Lemma Sorted_le_strong (l : list Z) : Sorted Z.le l <-> StronglySorted Z.le l.
Proof.
  split.
  - apply Sorted_StronglySorted. intros x y z; lia.
  - apply StronglySorted_Sorted.
Qed.

(** ** Slices *)

Lemma view_length (a : array) (s : slice) :
  wf_slice a s -> length (view a s) = Z.to_nat (len s).
Proof.
  intros (Ho & Hl & Hc). unfold view.
  rewrite length_firstn, length_skipn. lia.
Qed.

Lemma view_whole (l : list Z) : view l (whole l) = l.
Proof.
  unfold view, whole. simpl. rewrite Nat2Z.id. apply firstn_all.
Qed.

Lemma wf_whole (l : list Z) : wf_slice l (whole l).
Proof. unfold wf_slice, whole. simpl. lia. Qed.

Lemma firstn_plus {A : Type} (n m : nat) (l : list A) :
  firstn (n + m) l = firstn n l ++ firstn m (skipn n l).
Proof.
  revert l. induction n as [| n IH]; intros l; simpl; [reflexivity|].
  destruct l as [| x t]; simpl.
  - rewrite firstn_nil. reflexivity.
  - f_equal. apply IH.
Qed.

Lemma tiles_le (chunks : list slice) (o e : Z) : tiles o chunks e -> o <= e.
Proof.
  revert o. induction chunks as [| c rest IH]; simpl; intros o H.
  - lia.
  - destruct H as (_ & Hl & Ht). apply IH in Ht. lia.
Qed.

(** The chunks of a tiling read, in order, the span of the array they
    cover. *)
Lemma concat_view_tiles (a : array) (chunks : list slice) (o e : Z) :
  tiles o chunks e -> 0 <= o -> e <= Z.of_nat (length a) ->
  concat (map (view a) chunks) = firstn (Z.to_nat (e - o)) (skipn (Z.to_nat o) a).
Proof.
  revert o. induction chunks as [| c rest IH]; simpl; intros o Ht Ho He.
  - subst e. rewrite Z.sub_diag. reflexivity.
  - destruct Ht as (Hoff & Hlen & Ht).
    pose proof (tiles_le _ _ _ Ht) as Hle.
    rewrite (IH _ Ht) by lia. unfold view. rewrite Hoff.
    replace (Z.to_nat (e - o)) with (Z.to_nat (len c) + Z.to_nat (e - (o + len c)))%nat by lia.
    rewrite firstn_plus. f_equal. rewrite skipn_skipn.
    f_equal. f_equal. lia.
Qed.

(** ** The partition *)

Lemma split_loop_spec (numbers : slice) (base rem nc : Z) :
  0 <= base -> 0 <= rem -> nc * base + rem <= cap numbers ->
  forall (todo : nat) (i : Z),
    0 <= i -> i + Z.of_nat todo = nc ->
    exists chunks,
      split_loop numbers base rem todo i (i * base + Z.min i rem) = Done chunks /\
      length chunks = todo /\
      tiles (off numbers + (i * base + Z.min i rem)) chunks
            (off numbers + (nc * base + Z.min nc rem)) /\
      forall k c, nth_error chunks k = Some c ->
                  len c = if i + Z.of_nat k <? rem then base + 1 else base.
Proof.
  intros Hb Hr Hcap todo. induction todo as [| todo IH]; intros i Hi Hnc.
  - exists []. simpl. split; [reflexivity|]. split; [reflexivity|]. split.
    + replace nc with i by lia. reflexivity.
    + intros [|k] c; discriminate.
  - cbn [split_loop].
    set (size := if i <? rem then base + 1 else base).
    set (idx := i * base + Z.min i rem).
    assert (Hnext : idx + size = (i + 1) * base + Z.min (i + 1) rem).
    { unfold idx, size. destruct (Z.ltb_spec i rem); lia. }
    assert (Hsize : 0 <= size) by (unfold size; destruct (i <? rem); lia).
    assert (Hidx : 0 <= idx) by (unfold idx; nia).
    assert (Hfit : idx + size <= cap numbers).
    { rewrite Hnext. assert ((i + 1) * base <= nc * base) by nia. lia. }
    unfold reslice.
    replace ((0 <=? idx) && (idx <=? idx + size) && (idx + size <=? cap numbers)) with true
      by (symmetry; rewrite !andb_true_iff, !Z.leb_le; lia).
    cbn [bind]. rewrite Hnext.
    destruct (IH (i + 1)) as (rest & -> & Hlen & Htiles & Hsz); [lia | lia |].
    cbn [bind]. eexists. split; [reflexivity|]. split; [simpl; lia|]. split.
    + cbn [tiles off len]. split; [reflexivity|]. split; [lia|].
      replace (off numbers + idx + ((i + 1) * base + Z.min (i + 1) rem - idx))
        with (off numbers + ((i + 1) * base + Z.min (i + 1) rem)) by lia.
      exact Htiles.
    + intros [| k] c Hk; simpl in Hk.
      * inversion Hk; subst c. cbn [len]. rewrite Z.add_0_r. fold size. lia.
      * rewrite (Hsz k c Hk). replace (i + 1 + Z.of_nat k) with (i + Z.of_nat (S k)) by lia.
        reflexivity.
Qed.

Lemma numChunks_ge_4 (n : Z) : 4 <= numChunks n.
Proof. unfold numChunks. destruct (Z.ltb_spec (F64.to_int (F64.Ceil (F64.Sqrt (F64.of_int n)))) 4); lia. Qed.

(** [splitIntoChunks] never panics; it returns [numChunks] headers that
    tile the sequence, the first [n mod numChunks] of them one element
    longer than the rest. *)
Lemma splitIntoChunks_spec (numbers : slice) :
  0 <= len numbers <= cap numbers ->
  let n := len numbers in
  let nc := numChunks n in
  exists chunks,
    splitIntoChunks numbers = Done chunks /\
    Z.of_nat (length chunks) = nc /\
    tiles (off numbers) chunks (off numbers + n) /\
    forall k c, nth_error chunks k = Some c ->
                len c = if Z.of_nat k <? n mod nc then n / nc + 1 else n / nc.
Proof.
  intros Hn n nc. pose proof (numChunks_ge_4 n) as Hnc. fold nc in Hnc.
  unfold splitIntoChunks. fold n. fold nc.
  rewrite Z.quot_div_nonneg, Z.rem_mod_nonneg by lia.
  pose proof (Z.div_mod n nc ltac:(lia)) as Hdm.
  pose proof (Z.mod_pos_bound n nc ltac:(lia)) as Hmod.
  assert (Hdiv : 0 <= n / nc) by (apply Z.div_pos; lia).
  destruct (split_loop_spec numbers (n / nc) (n mod nc) nc Hdiv ltac:(lia) ltac:(lia)
              (Z.to_nat nc) 0 ltac:(lia) ltac:(lia))
    as (chunks & Hrun & Hlen & Htiles & Hsz).
  replace (0 * (n / nc) + Z.min 0 (n mod nc)) with 0 in * by lia.
  exists chunks. split; [exact Hrun|]. split; [lia|]. split.
  - replace (off numbers + n) with (off numbers + (nc * (n / nc) + Z.min nc (n mod nc))) by lia.
    rewrite Z.add_0_r in Htiles. exact Htiles.
  - intros k c Hk. rewrite (Hsz k c Hk). reflexivity.
Qed.

(** ** Sorting the chunks of a tiling in place *)

Lemma tiles_in (chunks : list slice) (o e : Z) (c : slice) :
  tiles o chunks e -> In c chunks ->
  o <= off c /\ 0 <= len c /\ off c + len c <= e.
Proof.
  revert o. induction chunks as [| c0 rest IH]; simpl; intros o Ht Hin; [contradiction|].
  destruct Ht as (Hoff & Hlen & Ht). pose proof (tiles_le _ _ _ Ht) as Hle.
  destruct Hin as [-> | Hin].
  - lia.
  - destruct (IH _ Ht Hin) as (H1 & H2 & H3). lia.
Qed.

Lemma view_region_length (a : array) (c : slice) :
  0 <= off c -> 0 <= len c -> off c + len c <= Z.of_nat (length a) ->
  length (view a c) = Z.to_nat (len c).
Proof.
  intros Ho Hl He. unfold view. rewrite length_firstn, length_skipn. lia.
Qed.

(** A chunk laid over the block it denotes reads that block. *)
Lemma view_block (pre b post : list Z) (c : slice) :
  off c = Z.of_nat (length pre) -> len c = Z.of_nat (length b) ->
  view (pre ++ b ++ post) c = b.
Proof.
  intros Ho Hl. unfold view. rewrite Ho, Hl, !Nat2Z.id.
  rewrite skipn_app, skipn_all, Nat.sub_diag. simpl.
  rewrite firstn_app, firstn_all, Nat.sub_diag. simpl. apply app_nil_r.
Qed.

Lemma views_blocks (chunks : list slice) (blocks : list (list Z)) :
  forall (pre post : list Z) (e : Z),
    tiles (Z.of_nat (length pre)) chunks e ->
    Forall2 (fun c b => len c = Z.of_nat (length b)) chunks blocks ->
    map (view (pre ++ concat blocks ++ post)) chunks = blocks.
Proof.
  revert blocks. induction chunks as [| c rest IH]; intros blocks pre post e Ht Hf.
  - inversion Hf. reflexivity.
  - inversion Hf as [| c0 b cs bs Hlen Hrest]; subst. destruct Ht as (Hoff & _ & Ht).
    simpl. f_equal.
    + rewrite <- app_assoc. apply view_block; assumption.
    + rewrite <- app_assoc, app_assoc. apply (IH bs (pre ++ b) post e); [|exact Hrest].
      rewrite length_app, Nat2Z.inj_add, <- Hlen. exact Ht.
Qed.

(** [sort.Ints] on one chunk rewrites that chunk's span and nothing else. *)
Lemma sort_Ints_split (a : array) (c : slice) :
  0 <= off c -> 0 <= len c -> off c + len c <= Z.of_nat (length a) ->
  sort_Ints a c
  = firstn (Z.to_nat (off c)) a ++ isort (view a c) ++ skipn (Z.to_nat (off c + len c)) a.
Proof. reflexivity. Qed.

Lemma sort_Ints_length (a : array) (c : slice) :
  0 <= off c -> 0 <= len c -> off c + len c <= Z.of_nat (length a) ->
  length (sort_Ints a c) = length a.
Proof.
  intros Ho Hl He. unfold sort_Ints, store.
  rewrite !length_app, isort_length, (view_region_length a c Ho Hl He).
  rewrite length_firstn, length_skipn. lia.
Qed.

Lemma sort_Ints_prefix (a : array) (c : slice) :
  0 <= off c -> 0 <= len c -> off c + len c <= Z.of_nat (length a) ->
  firstn (Z.to_nat (off c + len c)) (sort_Ints a c)
  = firstn (Z.to_nat (off c)) a ++ isort (view a c).
Proof.
  intros Ho Hl He. unfold sort_Ints, store. rewrite app_assoc.
  rewrite firstn_app.
  assert (Hlen : length (firstn (Z.to_nat (off c)) a ++ isort (view a c))
                 = Z.to_nat (off c + len c)).
  { rewrite length_app, isort_length, (view_region_length a c Ho Hl He), length_firstn. lia. }
  rewrite Hlen, Nat.sub_diag, firstn_0, app_nil_r.
  rewrite <- Hlen. apply firstn_all.
Qed.

Lemma sort_Ints_suffix (a : array) (c : slice) (k : Z) :
  0 <= off c -> 0 <= len c -> off c + len c <= Z.of_nat (length a) ->
  off c + len c <= k ->
  skipn (Z.to_nat k) (sort_Ints a c) = skipn (Z.to_nat k) a.
Proof.
  intros Ho Hl He Hk. unfold sort_Ints, store. rewrite app_assoc.
  assert (Hlen : length (firstn (Z.to_nat (off c)) a ++ isort (view a c))
                 = Z.to_nat (off c + len c)).
  { rewrite length_app, isort_length, (view_region_length a c Ho Hl He), length_firstn. lia. }
  rewrite skipn_app, Hlen.
  rewrite skipn_all2 by lia. simpl.
  rewrite skipn_skipn. f_equal. lia.
Qed.

Lemma sort_Ints_view_later (a : array) (c c' : slice) :
  0 <= off c -> 0 <= len c -> off c + len c <= Z.of_nat (length a) ->
  off c + len c <= off c' ->
  view (sort_Ints a c) c' = view a c'.
Proof.
  intros Ho Hl He Hk. unfold view.
  rewrite (sort_Ints_suffix a c (off c')) by assumption. reflexivity.
Qed.

(** After every chunk of a tiling has been sorted in place, the array is
    the old one with each chunk's span replaced by its sorted contents. *)
Lemma fold_sort_tiles (chunks : list slice) :
  forall (a : array) (o e : Z),
    tiles o chunks e -> 0 <= o -> e <= Z.of_nat (length a) ->
    fold_left sort_Ints chunks a
    = firstn (Z.to_nat o) a
        ++ concat (map (fun c => isort (view a c)) chunks)
        ++ skipn (Z.to_nat e) a.
Proof.
  induction chunks as [| c rest IH]; intros a o e Ht Ho He.
  - simpl in *. subst e. symmetry. apply firstn_skipn.
  - destruct Ht as (Hoff & Hlen & Ht). pose proof (tiles_le _ _ _ Ht) as Hle.
    cbn [fold_left].
    assert (Hc0 : 0 <= off c) by lia.
    assert (Hce : off c + len c <= Z.of_nat (length a)) by lia.
    rewrite (IH (sort_Ints a c) (o + len c) e Ht)
      by (try rewrite sort_Ints_length; lia).
    rewrite <- Hoff at 1. rewrite sort_Ints_prefix by assumption.
    rewrite sort_Ints_suffix by (try assumption; lia).
    rewrite Hoff, <- app_assoc. f_equal. cbn [map concat]. rewrite <- app_assoc.
    f_equal. f_equal. f_equal.
    apply map_ext_in. intros c' Hin.
    destruct (tiles_in _ _ _ _ Ht Hin) as (H1 & _ & _).
    rewrite sort_Ints_view_later by (try assumption; lia). reflexivity.
Qed.

Lemma tiles_lengths (a : array) (chunks : list slice) (o e : Z) :
  tiles o chunks e -> 0 <= o -> e <= Z.of_nat (length a) ->
  Forall2 (fun c b => len c = Z.of_nat (length b)) chunks
    (map (fun c => isort (view a c)) chunks).
Proof.
  revert o. induction chunks as [| c rest IH]; intros o Ht Ho He; simpl; constructor.
  - destruct Ht as (Hoff & Hlen & Ht). pose proof (tiles_le _ _ _ Ht).
    rewrite isort_length, view_region_length; lia.
  - destruct Ht as (Hoff & Hlen & Ht). apply (IH (o + len c)); [exact Ht | lia | lia].
Qed.

(** What the merge phase reads: every chunk holds its former contents in
    increasing order. *)
Lemma views_after_sort (a : array) (chunks : list slice) (o e : Z) :
  tiles o chunks e -> 0 <= o -> e <= Z.of_nat (length a) ->
  map (view (fold_left sort_Ints chunks a)) chunks
  = map (fun c => isort (view a c)) chunks.
Proof.
  intros Ht Ho He. pose proof (tiles_le _ _ _ Ht) as Hle.
  rewrite (fold_sort_tiles chunks a o e Ht Ho He).
  apply (views_blocks chunks _ _ _ e).
  - rewrite length_firstn. replace (Z.of_nat (Nat.min (Z.to_nat o) (length a))) with o by lia.
    exact Ht.
  - apply (tiles_lengths a chunks o e); assumption.
Qed.

(** ** The scan for the smallest head *)

Lemma Forall2_nth_error {A B : Type} (P : A -> B -> Prop) (l1 : list A) (l2 : list B) :
  Forall2 P l1 l2 ->
  forall i, (i < length l1)%nat ->
            exists x y, nth_error l1 i = Some x /\ nth_error l2 i = Some y /\ P x y.
Proof.
  induction 1 as [| x y t1 t2 Hxy Hf IH]; intros i Hi; simpl in Hi; [lia|].
  destruct i as [| i]; simpl.
  - eauto.
  - apply IH. lia.
Qed.

Lemma cursors_ok_length (chunks : list (list Z)) (indices : list Z) :
  cursors_ok chunks indices -> length indices = length chunks.
Proof. intros H. symmetry. eapply Forall2_length; exact H. Qed.

Lemma head_at_out (chunks : list (list Z)) (indices : list Z) (j : nat) :
  (length chunks <= j)%nat -> head_at chunks indices j = None.
Proof.
  intros Hj. unfold head_at.
  replace (nth_error chunks j) with (@None (list Z)); [reflexivity|].
  symmetry. apply nth_error_None. exact Hj.
Qed.

(** One iteration of the scan reads within bounds and keeps the first
    smallest head. *)
Lemma scan_body_spec (chunks : list (list Z)) (indices : list Z) (v c : Z) (i : nat) :
  cursors_ok chunks indices -> (i < length chunks)%nat ->
  scan_body chunks indices (v, c) i
  = Done match head_at chunks indices i with
         | Some val => if (c =? -1) || (val <? v) then (val, Z.of_nat i) else (v, c)
         | None => (v, c)
         end.
Proof.
  intros Hok Hi.
  destruct (Forall2_nth_error _ _ _ Hok i Hi) as (ch & ix & Hch & Hix & Hb).
  unfold scan_body, head_at.
  rewrite (index_nat _ _ _ Hix), (index_nat _ _ _ Hch), Hch, Hix. cbn [bind].
  destruct (Z.ltb_spec ix (Z.of_nat (length ch))) as [Hlt | Hge]; [|reflexivity].
  destruct (nth_error ch (Z.to_nat ix)) as [val |] eqn:Hval.
  - assert (Hidx : index ch ix = Done val) by (apply index_Done; split; [lia | exact Hval]).
    rewrite Hidx. cbn [bind]. destruct ((c =? -1) || (val <? v)); reflexivity.
  - apply nth_error_None in Hval. lia.
Qed.

Lemma scan_inv_step (chunks : list (list Z)) (indices : list Z) (v c : Z) (i : nat) :
  scan_inv chunks indices i (v, c) ->
  scan_inv chunks indices (S i)
    match head_at chunks indices i with
    | Some val => if (c =? -1) || (val <? v) then (val, Z.of_nat i) else (v, c)
    | None => (v, c)
    end.
Proof.
  intros Hinv. destruct (head_at chunks indices i) as [val |] eqn:Hhead.
  - destruct Hinv as [[-> Hnone] | (Hc & Hcv & Hmin)].
    + simpl. right. split; [lia|]. rewrite Nat2Z.id. split; [exact Hhead|].
      intros j w Hj Hw. destruct (Nat.eq_dec j i) as [-> | Hne].
      * rewrite Hhead in Hw. inversion Hw; subst. lia.
      * rewrite Hnone in Hw by lia. discriminate.
    + replace (c =? -1) with false by (symmetry; apply Z.eqb_neq; lia). cbn [orb].
      destruct (Z.ltb_spec val v) as [Hlt | Hge].
      * right. split; [lia|]. rewrite Nat2Z.id. split; [exact Hhead|].
        intros j w Hj Hw. destruct (Nat.eq_dec j i) as [-> | Hne].
        -- rewrite Hhead in Hw. inversion Hw; subst. lia.
        -- destruct (Hmin j w ltac:(lia) Hw). lia.
      * right. split; [lia|]. split; [exact Hcv|].
        intros j w Hj Hw. destruct (Nat.eq_dec j i) as [-> | Hne].
        -- rewrite Hhead in Hw. inversion Hw; subst. lia.
        -- apply Hmin; [lia | exact Hw].
  - destruct Hinv as [[-> Hnone] | (Hc & Hcv & Hmin)].
    + left. split; [reflexivity|]. intros j Hj.
      destruct (Nat.eq_dec j i) as [-> | Hne]; [exact Hhead | apply Hnone; lia].
    + right. split; [lia|]. split; [exact Hcv|].
      intros j w Hj Hw. destruct (Nat.eq_dec j i) as [-> | Hne].
      * rewrite Hhead in Hw. discriminate.
      * apply Hmin; [lia | exact Hw].
Qed.

Lemma scan_range_spec (chunks : list (list Z)) (indices : list Z) :
  cursors_ok chunks indices ->
  forall (k i : nat) (st : Z * Z),
    (i + k = length chunks)%nat -> scan_inv chunks indices i st ->
    exists st', scan_range chunks indices (seq i k) st = Done st' /\
                scan_inv chunks indices (length chunks) st'.
Proof.
  intros Hok k. induction k as [| k IH]; intros i [v c] Hik Hinv.
  - exists (v, c). split; [reflexivity|]. replace (length chunks) with i by lia. exact Hinv.
  - cbn [seq scan_range]. rewrite scan_body_spec by (try assumption; lia). cbn [bind].
    apply IH; [lia|]. apply scan_inv_step. exact Hinv.
Qed.

(** The scan never panics.  It answers [-1] exactly when every cursor is
    at its end, and otherwise the first chunk that holds the smallest
    head. *)
Lemma scan_spec (chunks : list (list Z)) (indices : list Z) :
  cursors_ok chunks indices ->
  exists v c,
    scan chunks indices = Done (v, c) /\
    ((c = -1 /\ forall j, head_at chunks indices j = None) \/
     (c <> -1 /\ c < Z.of_nat (length chunks) /\ selects chunks indices v c)).
Proof.
  intros Hok. unfold scan.
  destruct (scan_range_spec chunks indices Hok (length chunks) 0%nat (0, -1))
    as ([v c] & Hrun & Hinv).
  - reflexivity.
  - left. split; [reflexivity|]. intros j Hj. lia.
  - exists v, c. split; [exact Hrun|].
    destruct Hinv as [[-> Hnone] | (Hc & Hcv & Hmin)].
    + left. split; [reflexivity|]. intros j.
      destruct (Nat.lt_ge_cases j (length chunks)); [apply Hnone; assumption|].
      apply head_at_out. assumption.
    + right. split; [lia|]. split; [lia|]. split; [lia|]. split; [exact Hcv|].
      intros j w Hw. destruct (Nat.lt_ge_cases j (length chunks)) as [Hj | Hj].
      * apply Hmin; assumption.
      * rewrite head_at_out in Hw by assumption. discriminate.
Qed.

(** ** Cursors and what remains *)

Lemma skipn_nth_error {A : Type} (l : list A) (n : nat) (x : A) :
  nth_error l n = Some x -> skipn n l = x :: skipn (S n) l.
Proof.
  revert n. induction l as [| h t IH]; intros [| n] H; simpl in *; try discriminate.
  - inversion H. reflexivity.
  - apply IH. exact H.
Qed.

Lemma StronglySorted_skipn (l : list Z) (n : nat) :
  StronglySorted Z.le l -> StronglySorted Z.le (skipn n l).
Proof.
  revert l. induction n as [| n IH]; intros l H; simpl; [exact H|].
  destruct l as [| h t]; [constructor|]. apply IH. inversion H. assumption.
Qed.

Lemma head_at_cons (c : list Z) (cs : list (list Z)) (ix : Z) (ixs : list Z) (j : nat) :
  head_at (c :: cs) (ix :: ixs) (S j) = head_at cs ixs j.
Proof. reflexivity. Qed.

Lemma head_at_bound (chunks : list (list Z)) (indices : list Z) (j : nat) (v : Z) :
  head_at chunks indices j = Some v -> (j < length chunks)%nat.
Proof.
  intros H. destruct (Nat.lt_ge_cases j (length chunks)) as [Hj | Hj]; [exact Hj|].
  rewrite head_at_out in H by assumption. discriminate.
Qed.

Lemma remaining_none (chunks : list (list Z)) (indices : list Z) :
  cursors_ok chunks indices ->
  (forall j, head_at chunks indices j = None) ->
  remaining chunks indices = [].
Proof.
  induction 1 as [| c ix cs ixs Hb Hf IH]; intros Hnone; simpl; [reflexivity|].
  rewrite IH by (intros j; apply (Hnone (S j))).
  specialize (Hnone 0%nat). unfold head_at in Hnone. simpl in Hnone.
  destruct (Z.ltb_spec ix (Z.of_nat (length c))) as [Hlt | Hge].
  - apply nth_error_None in Hnone. lia.
  - rewrite skipn_all2 by lia. reflexivity.
Qed.

(** Taking the head of chunk [j] removes exactly that element from what
    remains and keeps the cursors in range. *)
Lemma remaining_take (chunks : list (list Z)) (indices : list Z) :
  cursors_ok chunks indices ->
  forall (j : nat) (v : Z),
    head_at chunks indices j = Some v ->
    cursors_ok chunks (advance indices (Z.of_nat j)) /\
    exists pre post,
      remaining chunks indices = pre ++ v :: post /\
      remaining chunks (advance indices (Z.of_nat j)) = pre ++ post.
Proof.
  unfold advance. induction 1 as [| c ix cs ixs Hb Hf IH]; intros j v Hhead.
  - destruct j; discriminate.
  - rewrite Nat2Z.id. destruct j as [| j].
    + unfold head_at in Hhead. simpl in Hhead.
      destruct (Z.ltb_spec ix (Z.of_nat (length c))) as [Hlt | Hge]; [|discriminate].
      simpl. split.
      * constructor; [lia | exact Hf].
      * exists [], (skipn (S (Z.to_nat ix)) c ++ remaining cs ixs). split.
        -- rewrite (skipn_nth_error _ _ _ Hhead). reflexivity.
        -- replace (Z.to_nat (ix + 1)) with (S (Z.to_nat ix)) by lia. reflexivity.
    + rewrite head_at_cons in Hhead.
      destruct (IH j v Hhead) as (Hok & pre & post & Hrem & Hrem').
      rewrite Nat2Z.id in Hok, Hrem'. simpl. split.
      * constructor; [exact Hb | exact Hok].
      * exists (skipn (Z.to_nat ix) c ++ pre), post.
        rewrite Hrem, Hrem', <- !app_assoc. split; reflexivity.
Qed.

(** With sorted chunks the smallest head is the smallest element left. *)
Lemma remaining_all_ge (chunks : list (list Z)) (indices : list Z) (v : Z) :
  Forall (StronglySorted Z.le) chunks ->
  cursors_ok chunks indices ->
  (forall j w, head_at chunks indices j = Some w -> v <= w) ->
  Forall (fun w => v <= w) (remaining chunks indices).
Proof.
  intros Hs Hok. revert Hs. induction Hok as [| c ix cs ixs Hb Hf IH]; intros Hs Hmin.
  - constructor.
  - inversion Hs as [| c0 cs0 Hc Hcs]; subst. simpl. apply Forall_app. split.
    + destruct (Z.ltb_spec ix (Z.of_nat (length c))) as [Hlt | Hge].
      * destruct (nth_error c (Z.to_nat ix)) as [h |] eqn:Hh;
          [| apply nth_error_None in Hh; lia].
        assert (Hhead : head_at (c :: cs) (ix :: ixs) 0 = Some h).
        { unfold head_at. simpl. destruct (Z.ltb_spec ix (Z.of_nat (length c))); [exact Hh | lia]. }
        specialize (Hmin 0%nat h Hhead).
        pose proof (StronglySorted_skipn c (Z.to_nat ix) Hc) as Hsk.
        rewrite (skipn_nth_error _ _ _ Hh) in *.
        inversion Hsk as [| h0 t0 _ Hall]; subst.
        constructor; [exact Hmin|].
        eapply Forall_impl; [|exact Hall]. intros; lia.
      * rewrite skipn_all2 by lia. constructor.
    + apply IH; [exact Hcs|]. intros j w Hw. apply (Hmin (S j) w). exact Hw.
Qed.

Lemma incr_advance (indices : list Z) (c : Z) :
  0 <= c -> (Z.to_nat c < length indices)%nat ->
  incr indices c = Done (advance indices c).
Proof.
  intros Hc Hlt. unfold incr, advance.
  destruct (nth_error indices (Z.to_nat c)) as [ix |] eqn:Hix;
    [| apply nth_error_None in Hix; lia].
  assert (Hidx : index indices c = Done ix) by (apply index_Done; auto).
  rewrite Hidx. cbn [bind]. rewrite (nth_error_nth _ _ 0 Hix). reflexivity.
Qed.

Lemma remaining_zero (chunks : list (list Z)) :
  remaining chunks (repeat 0 (length chunks)) = concat chunks.
Proof. induction chunks as [| c cs IH]; simpl; [reflexivity | rewrite IH; reflexivity]. Qed.

Lemma cursors_ok_zero (chunks : list (list Z)) :
  cursors_ok chunks (repeat 0 (length chunks)).
Proof. induction chunks as [| c cs IH]; simpl; constructor; [lia | exact IH]. Qed.

(** ** The merge loop *)

(** With more fuel than elements left, the loop returns: it appends to
    [result] a rearrangement of what remains, one element per recorded
    iteration, and with sorted chunks the record is that of a merge and
    the appended elements are in increasing order. *)
Lemma merge_run_spec (chunks : list (list Z)) :
  forall (fuel : nat) (indices : list Z),
    cursors_ok chunks indices ->
    (length (remaining chunks indices) < fuel)%nat ->
    exists tr,
      merge_trace fuel chunks indices = Done tr /\
      (forall result,
          merge_loop fuel chunks indices result = Done (result ++ emitted tr)) /\
      Permutation (emitted tr) (remaining chunks indices) /\
      Forall (fun e => cursors_ok chunks (fst (fst e))) tr /\
      (Forall (StronglySorted Z.le) chunks ->
       merge_record chunks indices tr /\ StronglySorted Z.le (emitted tr)).
Proof.
  induction fuel as [| fuel IH]; intros indices Hok Hfuel; [lia|].
  cbn [merge_trace merge_loop].
  destruct (scan_spec chunks indices Hok)
    as (v & c & -> & [[-> Hnone] | (Hc1 & Hclt & Hsel)]); cbn [bind].
  - pose proof (remaining_none _ _ Hok Hnone) as Hrem.
    exists []. simpl. split; [reflexivity|]. split; [intros; rewrite app_nil_r; reflexivity|].
    rewrite Hrem. split; [constructor|]. split; [constructor|].
    intros _. split; [reflexivity | constructor].
  - replace (c =? -1) with false by (symmetry; apply Z.eqb_neq; exact Hc1).
    destruct Hsel as (Hc0 & Hhead & Hmin).
    destruct (remaining_take chunks indices Hok (Z.to_nat c) v Hhead)
      as (Hok' & pre & post & Hrem & Hrem').
    rewrite Z2Nat.id in Hok', Hrem' by exact Hc0.
    rewrite incr_advance
      by (try exact Hc0; rewrite (cursors_ok_length _ _ Hok); lia).
    cbn [bind].
    destruct (IH (advance indices c) Hok') as (tr & -> & Hloop & Hperm & Hcur & Hsorted).
    { rewrite Hrem'. rewrite Hrem in Hfuel. rewrite length_app in *. simpl in Hfuel. lia. }
    cbn [bind]. exists ((indices, v, c) :: tr). split; [reflexivity|].
    split; [|split; [|split]].
    + intros result. rewrite Hloop, <- app_assoc. reflexivity.
    + cbn [emitted map fst snd]. fold (emitted tr).
      rewrite Hrem, Hperm, Hrem'. apply Permutation_middle.
    + constructor; [exact Hok | exact Hcur].
    + intros Hs. destruct (Hsorted Hs) as (Hrec & Hst).
      assert (Hall : Forall (fun w => v <= w) (remaining chunks indices)).
      { apply remaining_all_ge; [exact Hs | exact Hok|].
        intros j w Hw. apply (Hmin j w Hw). }
      split.
      * cbn [merge_record]. split; [reflexivity|]. split; [|split; assumption].
        split; [exact Hc0|]. split; assumption.
      * cbn [emitted map fst snd]. fold (emitted tr). constructor; [exact Hst|].
        eapply Permutation_Forall; [apply Permutation_sym; exact Hperm|].
        rewrite Hrem' . rewrite Hrem in Hall.
        apply Forall_app in Hall. destruct Hall as [Hpre Hpost].
        inversion Hpost; subst. apply Forall_app. split; assumption.
Qed.

(** [mergeSortedChunks] on any chunks: a result, no panic, within its
    fuel. *)
Lemma mergeSortedChunks_spec (chunks : list (list Z)) :
  exists tr,
    mergeTrace chunks = Done tr /\
    mergeSortedChunks chunks = Done (emitted tr) /\
    Permutation (emitted tr) (concat chunks) /\
    Forall (fun e => cursors_ok chunks (fst (fst e))) tr /\
    (Forall (StronglySorted Z.le) chunks ->
     merge_record chunks (repeat 0 (length chunks)) tr /\
     StronglySorted Z.le (emitted tr)).
Proof.
  destruct (merge_run_spec chunks (S (total chunks)) (repeat 0 (length chunks)))
    as (tr & Htr & Hloop & Hperm & Hcur & Hs).
  - apply cursors_ok_zero.
  - rewrite remaining_zero. unfold total. lia.
  - exists tr. rewrite remaining_zero in Hperm.
    split; [exact Htr|]. split; [apply (Hloop [])|]. split; [|split]; assumption.
Qed.

(** ** The pipeline *)

Lemma Permutation_concat_isort {A : Type} (f : A -> list Z) (l : list A) :
  Permutation (concat (map f l)) (concat (map (fun c => isort (f c)) l)).
Proof.
  induction l as [| c t IH]; simpl; [constructor|].
  apply Permutation_app; [apply isort_perm | exact IH].
Qed.

Lemma tiles_sum (chunks : list slice) (o e : Z) :
  tiles o chunks e -> fold_right Z.add 0 (map len chunks) = e - o.
Proof.
  revert o. induction chunks as [| c rest IH]; simpl; intros o Ht.
  - lia.
  - destruct Ht as (_ & _ & Ht). rewrite (IH _ Ht). lia.
Qed.

Lemma view_numbers_span (a : array) (numbers : slice) :
  view a numbers
  = firstn (Z.to_nat (off numbers + len numbers - off numbers))
      (skipn (Z.to_nat (off numbers)) a).
Proof. unfold view. f_equal. f_equal. lia. Qed.

(** The pipeline on a well-formed sequence of any length. *)
Lemma pipeline_spec (a : array) (numbers : slice) :
  wf_slice a numbers ->
  exists chunks output,
    splitIntoChunks numbers = Done chunks /\
    tiles (off numbers) chunks (off numbers + len numbers) /\
    pipeline a numbers = Done (fold_left sort_Ints chunks a, output) /\
    Permutation (view a numbers) output /\
    StronglySorted Z.le output.
Proof.
  intros Hwf. pose proof Hwf as (Ho & Hl & Hc).
  destruct (splitIntoChunks_spec numbers Hl) as (chunks & Hsplit & Hlen & Htiles & Hsz).
  destruct (mergeSortedChunks_spec (map (fun c => isort (view a c)) chunks))
    as (tr & _ & Hmerge & Hperm & _ & Hsorted).
  exists chunks, (emitted tr). split; [exact Hsplit|]. split; [exact Htiles|].
  split; [|split].
  - unfold pipeline. rewrite Hsplit. cbn [bind sortChunksConcurrently].
    rewrite (views_after_sort a chunks _ _ Htiles) by lia.
    rewrite Hmerge. reflexivity.
  - rewrite Hperm, <- Permutation_concat_isort.
    rewrite (concat_view_tiles a chunks _ _ Htiles) by lia.
    rewrite <- view_numbers_span. reflexivity.
  - apply Hsorted. apply Forall_forall. intros b Hb.
    apply in_map_iff in Hb. destruct Hb as (c & <- & _). apply isort_sorted.
Qed.

(** C1.  For every input sequence of length at least 10 the pipeline
    (splitIntoChunks, then sortChunksConcurrently, then mergeSortedChunks)
    returns an output that is a permutation of the input, is
    non-decreasing and has the input's length; the chunk lengths add up
    to the input's length. *)
Theorem C1_pipeline_sorts (a : array) (numbers : slice) :
  wf_slice a numbers ->
  10 <= len numbers ->
  exists chunks a' output,
    splitIntoChunks numbers = Done chunks /\
    fold_right Z.add 0 (map len chunks) = len numbers /\
    pipeline a numbers = Done (a', output) /\
    Permutation (view a numbers) output /\
    Sorted Z.le output /\
    length output = length (view a numbers) /\
    Z.of_nat (length output) = len numbers.
Proof.
  intros Hwf _.
  destruct (pipeline_spec a numbers Hwf) as (chunks & output & Hsplit & Htiles & Hrun & Hperm & Hs).
  exists chunks, (fold_left sort_Ints chunks a), output.
  split; [exact Hsplit|]. split; [rewrite (tiles_sum _ _ _ Htiles); lia|].
  split; [exact Hrun|]. split; [exact Hperm|].
  split; [apply Sorted_le_strong; exact Hs|].
  assert (Hlen : length output = length (view a numbers))
    by (symmetry; apply Permutation_length; exact Hperm).
  split; [exact Hlen|]. rewrite Hlen, view_length by exact Hwf.
  destruct Hwf as (_ & ? & _). lia.
Qed.

Lemma C1_pipeline_sorts_witness :
  exists chunks a' output,
    splitIntoChunks (whole ten_down) = Done chunks /\
    fold_right Z.add 0 (map len chunks) = len (whole ten_down) /\
    pipeline ten_down (whole ten_down) = Done (a', output) /\
    Permutation (view ten_down (whole ten_down)) output /\
    Sorted Z.le output /\
    length output = length (view ten_down (whole ten_down)) /\
    Z.of_nat (length output) = len (whole ten_down).
Proof.
  apply (C1_pipeline_sorts ten_down (whole ten_down)).
  - unfold wf_slice, whole. simpl. lia.
  - simpl. lia.
Defined.

(** C6.  On an input sequence of length at least 10 that is already
    non-decreasing, the pipeline returns exactly that sequence. *)
Theorem C6_sorted_input_fixed (a : array) (numbers : slice) :
  wf_slice a numbers ->
  10 <= len numbers ->
  Sorted Z.le (view a numbers) ->
  exists a', pipeline a numbers = Done (a', view a numbers).
Proof.
  intros Hwf _ Hin.
  destruct (pipeline_spec a numbers Hwf) as (chunks & output & _ & _ & Hrun & Hperm & Hs).
  exists (fold_left sort_Ints chunks a). rewrite Hrun. do 2 f_equal.
  apply sorted_perm_unique; [exact Hs | apply Sorted_le_strong; exact Hin|].
  apply Permutation_sym. exact Hperm.
Qed.

Lemma C6_sorted_input_fixed_witness :
  exists a', pipeline (rev ten_down) (whole (rev ten_down))
             = Done (a', view (rev ten_down) (whole (rev ten_down))).
Proof.
  apply (C6_sorted_input_fixed (rev ten_down) (whole (rev ten_down))).
  - unfold wf_slice, whole. simpl. lia.
  - simpl. lia.
  - simpl. repeat constructor; lia.
Defined.

(** ** The merge on its own *)

Lemma merge_loop_more_fuel (chunks : list (list Z)) (extra : nat) :
  forall (fuel : nat) (indices result out : list Z),
    merge_loop fuel chunks indices result = Done out ->
    merge_loop (fuel + extra) chunks indices result = Done out.
Proof.
  induction fuel as [| fuel IH]; intros indices result out Hrun; [discriminate|].
  cbn [merge_loop Nat.add] in *.
  destruct (scan chunks indices) as [[v c] | |]; cbn [bind] in *; try discriminate.
  destruct (c =? -1); [exact Hrun|].
  destruct (incr indices c) as [indices' | |]; cbn [bind] in *; try discriminate.
  apply IH. exact Hrun.
Qed.

(** The fuel of [mergeSortedChunks] is enough: more of it changes
    nothing. *)
Lemma merge_more_fuel (chunks : list (list Z)) (extra : nat) :
  merge_loop (S (total chunks) + extra) chunks (repeat 0 (length chunks)) []
  = mergeSortedChunks chunks.
Proof.
  destruct (mergeSortedChunks_spec chunks) as (tr & _ & Hrun & _).
  rewrite Hrun. apply merge_loop_more_fuel. exact Hrun.
Qed.

(** C2.  On chunks that are each sorted ascending, mergeSortedChunks
    repeatedly emits the smallest head among the chunks whose cursor has
    not reached the end, which is the smallest element not yet consumed,
    and on a tie takes it from the lowest-indexed chunk: the recorded
    iterations start from cursors 0, each satisfies [selects], advances
    only the chosen cursor, and the loop stops when nothing remains.
    Merging [[1,4,7],[2,5],[3,6,8,9]] yields [1,...,9]. *)
Theorem C2_merge_selects_smallest (chunks : list (list Z)) :
  Forall (Sorted Z.le) chunks ->
  (exists tr,
      mergeTrace chunks = Done tr /\
      mergeSortedChunks chunks = Done (emitted tr) /\
      merge_record chunks (repeat 0 (length chunks)) tr) /\
  mergeSortedChunks three_chunks = Done [1; 2; 3; 4; 5; 6; 7; 8; 9].
Proof.
  intros Hs. split; [|reflexivity].
  destruct (mergeSortedChunks_spec chunks) as (tr & Htr & Hrun & _ & _ & Hrec).
  exists tr. split; [exact Htr|]. split; [exact Hrun|].
  apply Hrec. eapply Forall_impl; [|exact Hs]. intros c. apply Sorted_le_strong.
Qed.

Lemma C2_merge_selects_smallest_witness :
  (exists tr,
      mergeTrace three_chunks = Done tr /\
      mergeSortedChunks three_chunks = Done (emitted tr) /\
      merge_record three_chunks (repeat 0 (length three_chunks)) tr) /\
  mergeSortedChunks three_chunks = Done [1; 2; 3; 4; 5; 6; 7; 8; 9].
Proof.
  apply (C2_merge_selects_smallest three_chunks).
  unfold three_chunks. repeat constructor; lia.
Defined.

(** On a tie the element comes from the lowest-indexed chunk: with
    chunks [[2,2],[2]] the first two picks are from chunk 0. *)
Example merge_tie_break :
  mergeTrace [[2; 2]; [2]]
  = Done [([0; 0], 2, 0); ([1; 0], 2, 0); ([2; 0], 2, 1)].
Proof. reflexivity. Qed.

(** C10.  On every list of chunks (empty, with empty chunks, unsorted)
    mergeSortedChunks terminates without an out-of-bounds access: it
    returns, it does not panic on any of its bounds-checked reads, more
    fuel does not change the result, and in every iteration each cursor
    lies between 0 and the length of its chunk, so that the guard
    indices[i] < len(chunks[i]) admits valid reads only.  The output has
    as many elements as the chunks have together. *)
Theorem C10_merge_total (chunks : list (list Z)) :
  exists tr output,
    mergeSortedChunks chunks = Done output /\
    (forall extra : nat,
        merge_loop (S (total chunks) + extra) chunks (repeat 0 (length chunks)) []
        = Done output) /\
    mergeTrace chunks = Done tr /\
    output = emitted tr /\
    Forall (fun e => cursors_ok chunks (fst (fst e))) tr /\
    length output = list_sum (map (@length Z) chunks).
Proof.
  destruct (mergeSortedChunks_spec chunks) as (tr & Htr & Hrun & Hperm & Hcur & _).
  exists tr, (emitted tr). split; [exact Hrun|]. split.
  - intros extra. rewrite merge_more_fuel. exact Hrun.
  - split; [exact Htr|]. split; [reflexivity|]. split; [exact Hcur|].
    rewrite (Permutation_length Hperm). apply length_concat.
Qed.

(** The guard of line 218 is what keeps the read in bounds: a cursor at
    the end of its chunk is skipped, and reading there would panic. *)
Example merge_exhausted_chunk :
  mergeSortedChunks [[3; 1]; []; [2]] = Done [2; 3; 1] /\
  index (@nil Z) 0 = Panic /\ index [3; 1] 2 = Panic.
Proof. repeat split. Qed.

(** ** The partition: sizes and order *)

(** C4.  With base = n / numChunks and remainder = n mod numChunks, the
    first remainder chunks have base+1 elements and the rest base; the
    chunks are consecutive sub-sequences of the input in its order and
    their concatenation is the input; for n = 10 the sizes are
    [3,3,2,2]. *)
Theorem C4_chunk_sizes (a : array) (numbers : slice) :
  wf_slice a numbers ->
  let n := len numbers in
  let nc := numChunks n in
  exists chunks,
    splitIntoChunks numbers = Done chunks /\
    (forall k c, nth_error chunks k = Some c ->
                 len c = if Z.of_nat k <? n mod nc then n / nc + 1 else n / nc) /\
    tiles (off numbers) chunks (off numbers + n) /\
    concat (map (view a) chunks) = view a numbers /\
    (n = 10 -> map len chunks = [3; 3; 2; 2]).
Proof.
  intros (Ho & Hl & Hc) n nc.
  destruct (splitIntoChunks_spec numbers Hl) as (chunks & Hsplit & Hlen & Htiles & Hsz).
  fold n in Hlen, Htiles, Hsz. fold nc in Hlen, Hsz.
  exists chunks. split; [exact Hsplit|]. split; [exact Hsz|]. split; [exact Htiles|]. split.
  - rewrite (concat_view_tiles a chunks _ _ Htiles) by (unfold n; lia).
    unfold n. rewrite <- view_numbers_span. reflexivity.
  - intros Hn. unfold nc in *. rewrite Hn in *.
    assert (Hnc : numChunks 10 = 4) by (vm_compute; reflexivity).
    rewrite Hnc in *. change (10 mod 4) with 2 in *. change (10 / 4) with 2 in *.
    destruct chunks as [| c0 [| c1 [| c2 [| c3 [| c4 rest]]]]]; simpl in Hlen; try lia.
    simpl. rewrite (Hsz 0%nat c0 eq_refl), (Hsz 1%nat c1 eq_refl),
      (Hsz 2%nat c2 eq_refl), (Hsz 3%nat c3 eq_refl). reflexivity.
Qed.

Lemma C4_chunk_sizes_witness :
  exists chunks,
    splitIntoChunks (whole ten_down) = Done chunks /\
    (forall k c, nth_error chunks k = Some c ->
                 len c = if Z.of_nat k <? 10 mod numChunks 10
                         then 10 / numChunks 10 + 1 else 10 / numChunks 10) /\
    tiles 0 chunks (0 + 10) /\
    concat (map (view ten_down) chunks) = view ten_down (whole ten_down) /\
    (10 = 10 -> map len chunks = [3; 3; 2; 2]).
Proof.
  apply (C4_chunk_sizes ten_down (whole ten_down)).
  unfold wf_slice, whole. simpl. lia.
Defined.

(** ** What the pipeline does to the caller's sequence *)

(** The claim that the caller's sequence is unchanged after the pipeline
    fails: the chunks are sub-slices of the caller's array and are sorted
    in place.  After the pipeline on 10,9,...,1 the caller's slice reads
    8,9,10,5,6,7,3,4,1,2. *)
Lemma C5_input_changed :
  exists a' output,
    pipeline ten_down (whole ten_down) = Done (a', output) /\
    view a' (whole ten_down) = [8; 9; 10; 5; 6; 7; 3; 4; 1; 2] /\
    view a' (whole ten_down) <> view ten_down (whole ten_down).
Proof.
  eexists _, _. split; [vm_compute; reflexivity|].
  split; [reflexivity | discriminate].
Qed.

(** C5, amended.  The pipeline writes to the caller's array only through
    sortChunksConcurrently, which sorts each chunk's span in place: after
    the pipeline the caller's sequence is the concatenation of its chunks,
    each in increasing order; it has the same elements and length, and
    the array outside the sequence is untouched. *)
Theorem C5_sorted_in_place (a : array) (numbers : slice) :
  wf_slice a numbers ->
  10 <= len numbers ->
  exists chunks a' output,
    splitIntoChunks numbers = Done chunks /\
    pipeline a numbers = Done (a', output) /\
    a' = fst (sortChunksConcurrently a chunks) /\
    view a' numbers = concat (map (fun c => isort (view a c)) chunks) /\
    map (view a') chunks = map (fun c => isort (view a c)) chunks /\
    Permutation (view a numbers) (view a' numbers) /\
    length a' = length a /\
    firstn (Z.to_nat (off numbers)) a' = firstn (Z.to_nat (off numbers)) a /\
    skipn (Z.to_nat (off numbers + len numbers)) a'
    = skipn (Z.to_nat (off numbers + len numbers)) a.
Proof.
  intros Hwf _. pose proof Hwf as (Ho & Hl & Hc).
  destruct (pipeline_spec a numbers Hwf)
    as (chunks & output & Hsplit & Htiles & Hrun & _ & _).
  set (o := off numbers) in *. set (e := off numbers + len numbers) in *.
  set (blocks := concat (map (fun c => isort (view a c)) chunks)).
  assert (Ha' : fold_left sort_Ints chunks a
                = firstn (Z.to_nat o) a ++ blocks ++ skipn (Z.to_nat e) a)
    by (apply fold_sort_tiles; [exact Htiles | lia | unfold e; lia]).
  assert (Hpre : length (firstn (Z.to_nat o) a) = Z.to_nat o)
    by (rewrite length_firstn; lia).
  assert (Hblocks : Permutation (view a numbers) blocks).
  { unfold blocks. rewrite <- Permutation_concat_isort.
    rewrite (concat_view_tiles a chunks _ _ Htiles) by (unfold e; lia).
    unfold o, e. rewrite <- view_numbers_span. reflexivity. }
  assert (Hblen : length blocks = Z.to_nat (len numbers)).
  { rewrite <- (Permutation_length Hblocks). apply view_length. exact Hwf. }
  assert (Hview : view (fold_left sort_Ints chunks a) numbers = blocks).
  { rewrite Ha'. apply view_block; fold o; lia. }
  exists chunks, (fold_left sort_Ints chunks a), output.
  split; [exact Hsplit|]. split; [exact Hrun|]. split; [reflexivity|].
  split; [exact Hview|].
  split; [apply (views_after_sort a chunks o e); [exact Htiles | lia | unfold e; lia]|].
  split; [rewrite Hview; exact Hblocks|].
  split; [|split].
  - rewrite Ha', !length_app, Hpre, Hblen, length_skipn. unfold e. lia.
  - rewrite Ha'. rewrite <- Hpre at 1. rewrite firstn_app, firstn_all, Nat.sub_diag.
    rewrite firstn_0, app_nil_r. reflexivity.
  - rewrite Ha', app_assoc, skipn_app.
    assert (Hlen2 : length (firstn (Z.to_nat o) a ++ blocks) = Z.to_nat e)
      by (rewrite length_app, Hpre, Hblen; unfold e; lia).
    rewrite (skipn_all2 (firstn (Z.to_nat o) a ++ blocks)) by lia.
    rewrite Hlen2, Nat.sub_diag. reflexivity.
Qed.

Lemma C5_sorted_in_place_witness :
  exists chunks a' output,
    splitIntoChunks (whole ten_down) = Done chunks /\
    pipeline ten_down (whole ten_down) = Done (a', output) /\
    a' = fst (sortChunksConcurrently ten_down chunks) /\
    view a' (whole ten_down) = concat (map (fun c => isort (view ten_down c)) chunks) /\
    map (view a') chunks = map (fun c => isort (view ten_down c)) chunks /\
    Permutation (view ten_down (whole ten_down)) (view a' (whole ten_down)) /\
    length a' = length ten_down /\
    firstn (Z.to_nat (off (whole ten_down))) a'
    = firstn (Z.to_nat (off (whole ten_down))) ten_down /\
    skipn (Z.to_nat (off (whole ten_down) + len (whole ten_down))) a'
    = skipn (Z.to_nat (off (whole ten_down) + len (whole ten_down))) ten_down.
Proof.
  apply (C5_sorted_in_place ten_down (whole ten_down)).
  - unfold wf_slice, whole. simpl. lia.
  - simpl. lia.
Defined.

(** ** The goroutines and the barrier *)

Module ConcFacts.

Import Conc.

Lemma upd_same {A : Type} (i : nat) (x : A) (l : list A) :
  nth_error l i = Some x -> upd i x l = l.
Proof.
  revert i. induction l as [| h t IH]; intros [| i] H; simpl in *; try discriminate.
  - inversion H. reflexivity.
  - f_equal. apply IH. exact H.
Qed.

Lemma pending_upd (ts : list task) (k : nat) (t t' : task) :
  nth_error ts k = Some t ->
  pending (upd k t' ts) + (match t with Finished => 0 | _ => 1 end)
  = pending ts + (match t' with Finished => 0 | _ => 1 end).
Proof.
  revert k. induction ts as [| h r IH]; intros [| k] H; simpl in *; try discriminate.
  - inversion H; subst. lia.
  - specialize (IH k H). lia.
Qed.

Lemma pending_nonneg (ts : list task) : 0 <= pending ts.
Proof. induction ts as [| h r IH]; simpl; [lia | destruct h; lia]. Qed.

Lemma pending_repeat (n : nat) : pending (repeat NotStarted n) = Z.of_nat n.
Proof. induction n as [| n IH]; [reflexivity|]. cbn [repeat pending fold_right] in *. fold (pending (repeat NotStarted n)). lia. Qed.

Lemma pending_zero (ts : list task) :
  pending ts = 0 -> forall j t, nth_error ts j = Some t -> t = Finished.
Proof.
  induction ts as [| h r IH]; intros Hp [| j] t Ht; simpl in *; try discriminate.
  - inversion Ht; subst. pose proof (pending_nonneg r). fold (pending r) in Hp.
    destruct t; try lia. reflexivity.
  - pose proof (pending_nonneg r). fold (pending r) in Hp.
    apply (IH ltac:(destruct h; lia) j t Ht).
Qed.

Lemma pending_pos (ts : list task) :
  0 < pending ts -> exists k t, nth_error ts k = Some t /\ t <> Finished.
Proof.
  induction ts as [| h r IH]; simpl; intros Hp; [lia|]. fold (pending r) in Hp.
  destruct h.
  1-3: exists 0%nat; eexists; split; [reflexivity | discriminate].
  destruct (IH ltac:(lia)) as (k & t & Hk & Ht). exists (S k), t. split; assumption.
Qed.

Lemma nth_error_repeat_some {A : Type} (x y : A) (n j : nat) :
  nth_error (repeat x n) j = Some y -> y = x /\ (j < n)%nat.
Proof.
  revert j. induction n as [| n IH]; intros [| j] H; simpl in *; try discriminate.
  - inversion H. split; [reflexivity | lia].
  - destruct (IH j H). split; [assumption | lia].
Qed.

Lemma nth_error_repeat_lt {A : Type} (x : A) (n j : nat) :
  (j < n)%nat -> nth_error (repeat x n) j = Some x.
Proof.
  revert j. induction n as [| n IH]; intros [| j] H; simpl; try lia; [reflexivity|].
  apply IH. lia.
Qed.

Lemma nth_error_upd {A : Type} (i j : nat) (x : A) (l : list A) :
  (i < length l)%nat ->
  nth_error (upd i x l) j = if Nat.eqb i j then Some x else nth_error l j.
Proof.
  intros Hi. destruct (Nat.eqb_spec i j) as [<- | Hne].
  - apply nth_error_upd_same. exact Hi.
  - apply nth_error_upd_other. exact Hne.
Qed.

Lemma nth_error_lt {A : Type} (l : list A) (i : nat) (x : A) :
  nth_error l i = Some x -> (i < length l)%nat.
Proof. intros H. apply nth_error_Some. congruence. Qed.

(** Every step keeps the control invariant. *)
Lemma step_control (chunks : list slice) (s s' : state) (act : action) :
  control_ok (length chunks) s -> step chunks s act = Some s' ->
  control_ok (length chunks) s'.
Proof.
  intros (Hlen & Hmain) Hstep. destruct act as [| k | k]; simpl in Hstep.
  - destruct (main s) as [| i | |] eqn:Hpc.
    + destruct Hmain as (Hwg & Hts). inversion Hstep; subst s'; clear Hstep.
      split; [exact Hlen|]. cbn [main wg tasks].
      split; [lia|]. split; [rewrite Hts, pending_repeat; lia|].
      intros j. rewrite Hts. split.
      * intros Hj. apply nth_error_repeat_some in Hj. lia.
      * intros Hj. apply nth_error_repeat_lt. lia.
    + destruct Hmain as (Hi & Hwg & Hns).
      destruct (Nat.ltb_spec i (length chunks)) as [Hlt | Hge];
        inversion Hstep; subst s'; clear Hstep.
      * split; [cbn [tasks]; rewrite upd_length; exact Hlen|]. cbn [main wg tasks].
        split; [lia|]. split.
        -- pose proof (proj2 (Hns i) ltac:(lia)) as Hi0.
           pose proof (pending_upd _ _ _ Ready Hi0) as Hp. cbv beta iota in Hp. lia.
        -- intros j. rewrite nth_error_upd by lia.
           destruct (Nat.eqb_spec i j) as [<- | Hne].
           ++ split; [discriminate | lia].
           ++ rewrite Hns. lia.
      * split; [exact Hlen|]. cbn [main wg tasks]. split; [exact Hwg|].
        intros j Hj. apply Hns in Hj. lia.
    + destruct Hmain as (Hwg & Hns).
      destruct (Z.eqb_spec (wg s) 0) as [Hz | Hnz]; [|discriminate].
      inversion Hstep; subst s'; clear Hstep.
      split; [exact Hlen|]. cbn [main wg tasks]. split; [exact Hz|].
      apply pending_zero. lia.
    + discriminate.
  - destruct (nth_error (tasks s) k) as [[| | |] |] eqn:Hk; try discriminate.
    destruct (nth_error chunks k) as [c |] eqn:Hc; [|discriminate].
    inversion Hstep; subst s'; clear Hstep.
    pose proof (nth_error_lt _ _ _ Hk) as Hklt.
    pose proof (pending_upd _ _ _ DoneSorting Hk) as Hp. cbv beta iota in Hp.
    split; [cbn [tasks]; rewrite upd_length; exact Hlen|]. cbn [main wg tasks].
    destruct (main s) as [| i | |].
    + destruct Hmain as (_ & Hts). rewrite Hts in Hk.
      apply nth_error_repeat_some in Hk. destruct Hk; discriminate.
    + destruct Hmain as (Hi & Hwg & Hns). split; [exact Hi|]. split; [lia|].
      intros j. rewrite nth_error_upd by lia.
      destruct (Nat.eqb_spec k j) as [<- | Hne]; [|apply Hns].
      split; [discriminate|]. intros Hj. apply Hns in Hj. congruence.
    + destruct Hmain as (Hwg & Hns). split; [lia|].
      intros j. rewrite nth_error_upd by lia.
      destruct (Nat.eqb_spec k j) as [<- | Hne]; [discriminate | apply Hns].
    + destruct Hmain as (_ & Hfin). specialize (Hfin k _ Hk). discriminate.
  - destruct (nth_error (tasks s) k) as [[| | |] |] eqn:Hk; try discriminate.
    inversion Hstep; subst s'; clear Hstep.
    pose proof (nth_error_lt _ _ _ Hk) as Hklt.
    pose proof (pending_upd _ _ _ Finished Hk) as Hp. cbv beta iota in Hp.
    split; [cbn [tasks]; rewrite upd_length; exact Hlen|]. cbn [main wg tasks].
    destruct (main s) as [| i | |].
    + destruct Hmain as (_ & Hts). rewrite Hts in Hk.
      apply nth_error_repeat_some in Hk. destruct Hk; discriminate.
    + destruct Hmain as (Hi & Hwg & Hns). split; [exact Hi|]. split; [lia|].
      intros j. rewrite nth_error_upd by lia.
      destruct (Nat.eqb_spec k j) as [<- | Hne]; [|apply Hns].
      split; [discriminate|]. intros Hj. apply Hns in Hj. congruence.
    + destruct Hmain as (Hwg & Hns). split; [lia|].
      intros j. rewrite nth_error_upd by lia.
      destruct (Nat.eqb_spec k j) as [<- | Hne]; [discriminate | apply Hns].
    + destruct Hmain as (_ & Hfin). specialize (Hfin k _ Hk). discriminate.
Qed.

Lemma init_control (a : array) (chunks : list slice) :
  control_ok (length chunks) (init a chunks).
Proof.
  split; [apply repeat_length|]. simpl. split; reflexivity.
Qed.

(** *** Memory: a goroutine writes its own chunk only *)

Lemma sort_Ints_at (pre b post : list Z) (c : slice) :
  off c = Z.of_nat (length pre) -> len c = Z.of_nat (length b) ->
  sort_Ints (pre ++ b ++ post) c = pre ++ isort b ++ post.
Proof.
  intros Ho Hl. unfold sort_Ints, store. rewrite (view_block pre b post c Ho Hl).
  rewrite Ho, Hl, <- Nat2Z.inj_add, !Nat2Z.id.
  rewrite firstn_app, firstn_all, Nat.sub_diag, firstn_0, app_nil_r.
  f_equal. f_equal.
  rewrite app_assoc, skipn_app, skipn_all2 by (rewrite length_app; lia).
  rewrite length_app, Nat.sub_diag. reflexivity.
Qed.

Lemma sort_Ints_block (chunks : list slice) :
  forall (bs : list (list Z)) (pre post : list Z) (e : Z) (k : nat) (c : slice) (b : list Z),
    tiles (Z.of_nat (length pre)) chunks e ->
    Forall2 (fun c b => len c = Z.of_nat (length b)) chunks bs ->
    nth_error chunks k = Some c -> nth_error bs k = Some b ->
    sort_Ints (pre ++ concat bs ++ post) c = pre ++ concat (upd k (isort b) bs) ++ post.
Proof.
  induction chunks as [| c0 rest IH]; intros bs pre post e k c b Ht Hf Hc Hb.
  - destruct k; discriminate.
  - inversion Hf as [| c1 b0 cs bs' Hlen Hrest]; subst.
    destruct Ht as (Hoff & _ & Ht). destruct k as [| k]; simpl in Hc, Hb.
    + inversion Hc; inversion Hb; subst. cbn [upd concat]. rewrite <- !app_assoc.
      apply sort_Ints_at; assumption.
    + cbn [upd concat]. rewrite <- !app_assoc, !(app_assoc pre b0).
      apply (IH bs' (pre ++ b0) post e k c b); try assumption.
      rewrite length_app, Nat2Z.inj_add, <- Hlen. exact Ht.
Qed.

Lemma blocks_upd (a : array) (chunks : list slice) (ts : list task)
  (k : nat) (c : slice) (t : task) :
  nth_error chunks k = Some c ->
  blocks a chunks (upd k t ts) = upd k (block a c t) (blocks a chunks ts).
Proof.
  revert ts k. induction chunks as [| c0 rest IH]; intros ts k Hc.
  - destruct k; discriminate.
  - destruct ts as [| t0 ts]; [destruct k; reflexivity|].
    destruct k as [| k]; simpl in Hc.
    + inversion Hc; subst. reflexivity.
    + simpl. f_equal. apply IH. exact Hc.
Qed.

Lemma nth_error_blocks (a : array) (chunks : list slice) (ts : list task)
  (k : nat) (c : slice) (t : task) :
  nth_error chunks k = Some c -> nth_error ts k = Some t ->
  nth_error (blocks a chunks ts) k = Some (block a c t).
Proof.
  revert ts k. induction chunks as [| c0 rest IH]; intros ts k Hc Ht.
  - destruct k; discriminate.
  - destruct ts as [| t0 ts]; [destruct k; discriminate|].
    destruct k as [| k]; simpl in *.
    + inversion Hc; inversion Ht; subst. reflexivity.
    + apply IH; assumption.
Qed.

Lemma block_length (a : array) (c : slice) (t : task) :
  0 <= off c -> 0 <= len c -> off c + len c <= Z.of_nat (length a) ->
  len c = Z.of_nat (length (block a c t)).
Proof.
  intros Ho Hl He.
  destruct t; cbn [block]; try rewrite isort_length; rewrite view_region_length; lia.
Qed.

Lemma blocks_lengths (a : array) (chunks : list slice) :
  forall (ts : list task) (o e : Z),
    tiles o chunks e -> 0 <= o -> e <= Z.of_nat (length a) ->
    length ts = length chunks ->
    Forall2 (fun c b => len c = Z.of_nat (length b)) chunks (blocks a chunks ts).
Proof.
  induction chunks as [| c rest IH]; intros ts o e Ht Ho He Hlen.
  - constructor.
  - destruct ts as [| t ts]; [discriminate|]. destruct Ht as (Hoff & Hl & Ht).
    pose proof (tiles_le _ _ _ Ht). cbn [blocks]. constructor.
    + apply block_length; lia.
    + apply (IH ts (o + len c) e); try assumption; [lia | simpl in Hlen; lia].
Qed.

Lemma blocks_all_finished (a : array) (chunks : list slice) (ts : list task) :
  length ts = length chunks ->
  (forall j t, nth_error ts j = Some t -> t = Finished) ->
  blocks a chunks ts = map (fun c => isort (view a c)) chunks.
Proof.
  revert ts. induction chunks as [| c rest IH]; intros ts Hlen Hfin; [reflexivity|].
  destruct ts as [| t ts]; [discriminate|]. cbn [blocks map].
  rewrite (Hfin 0%nat t eq_refl). cbn [block]. f_equal.
  apply IH; [simpl in Hlen; lia|]. intros j t' Hj. apply (Hfin (S j)). exact Hj.
Qed.

Lemma blocks_none_started (a : array) (chunks : list slice) :
  blocks a chunks (repeat NotStarted (length chunks)) = map (view a) chunks.
Proof. induction chunks as [| c rest IH]; simpl; [reflexivity | rewrite IH; reflexivity]. Qed.

(** Every step keeps the array in the layout that the goroutine states
    describe: the only write is [sort.Ints] on the stepping goroutine's
    own chunk. *)
Lemma step_mem (a : array) (chunks : list slice) (o e : Z) (s s' : state) (act : action) :
  tiles o chunks e -> 0 <= o -> e <= Z.of_nat (length a) ->
  control_ok (length chunks) s ->
  mem s = layout a o e chunks (tasks s) ->
  step chunks s act = Some s' ->
  mem s' = layout a o e chunks (tasks s').
Proof.
  intros Ht Ho He (Hlen & Hmain) Hmem Hstep.
  pose proof (tiles_le _ _ _ Ht) as Hoe.
  destruct act as [| k | k]; simpl in Hstep.
  - destruct (main s) as [| i | |] eqn:Hpc.
    + inversion Hstep; subst s'. exact Hmem.
    + destruct Hmain as (Hi & _ & Hns).
      destruct (Nat.ltb_spec i (length chunks)) as [Hlt | Hge];
        inversion Hstep; subst s'; clear Hstep; cbn [mem tasks]; [|exact Hmem].
      pose proof (proj2 (Hns i) ltac:(lia)) as Hi0.
      destruct (nth_error chunks i) as [c |] eqn:Hc; [| apply nth_error_None in Hc; lia].
      rewrite Hmem. unfold layout. rewrite (blocks_upd a chunks _ i c Ready Hc).
      rewrite upd_same; [reflexivity|].
      apply (nth_error_blocks a chunks _ i c NotStarted Hc Hi0).
    + destruct (wg s =? 0); inversion Hstep; subst s'. exact Hmem.
    + discriminate.
  - destruct (nth_error (tasks s) k) as [[| | |] |] eqn:Hk; try discriminate.
    destruct (nth_error chunks k) as [c |] eqn:Hc; [|discriminate].
    inversion Hstep; subst s'; clear Hstep. cbn [mem tasks].
    rewrite Hmem. unfold layout.
    rewrite (blocks_upd a chunks _ k c DoneSorting Hc).
    apply (sort_Ints_block chunks (blocks a chunks (tasks s)) _ _ e k c (view a c)).
    + rewrite length_firstn. replace (Z.of_nat (Nat.min (Z.to_nat o) (length a))) with o by lia.
      exact Ht.
    + apply (blocks_lengths a chunks (tasks s) o e); assumption.
    + exact Hc.
    + apply (nth_error_blocks a chunks _ k c Ready Hc Hk).
  - destruct (nth_error (tasks s) k) as [[| | |] |] eqn:Hk; try discriminate.
    inversion Hstep; subst s'; clear Hstep. cbn [mem tasks].
    pose proof (nth_error_lt _ _ _ Hk) as Hklt.
    destruct (nth_error chunks k) as [c |] eqn:Hc; [| apply nth_error_None in Hc; lia].
    rewrite Hmem. unfold layout. rewrite (blocks_upd a chunks _ k c Finished Hc).
    rewrite upd_same; [reflexivity|].
    apply (nth_error_blocks a chunks _ k c DoneSorting Hc Hk).
Qed.

Lemma init_mem (a : array) (chunks : list slice) (o e : Z) :
  tiles o chunks e -> 0 <= o -> e <= Z.of_nat (length a) ->
  mem (init a chunks) = layout a o e chunks (tasks (init a chunks)).
Proof.
  intros Ht Ho He. pose proof (tiles_le _ _ _ Ht). cbn [init mem tasks]. unfold layout.
  rewrite blocks_none_started, (concat_view_tiles a chunks o e Ht Ho He).
  rewrite <- (firstn_skipn (Z.to_nat o) a) at 1. f_equal.
  rewrite <- (firstn_skipn (Z.to_nat (e - o)) (skipn (Z.to_nat o) a)) at 1. f_equal.
  rewrite skipn_skipn. f_equal. lia.
Qed.

(** *** Every schedule ends, and only behind the barrier *)

Lemma weight_upd (ts : list task) (k : nat) (t t' : task) :
  nth_error ts k = Some t ->
  (fold_right (fun t n => task_weight t + n) 0 (upd k t' ts) + task_weight t
   = fold_right (fun t n => task_weight t + n) 0 ts + task_weight t')%nat.
Proof.
  revert k. induction ts as [| h r IH]; intros [| k] H; simpl in *; try discriminate.
  - inversion H; subst. lia.
  - specialize (IH k H). lia.
Qed.

(** Each step uses up exactly one unit of [weight]. *)
Lemma step_weight (chunks : list slice) (s s' : state) (act : action) :
  control_ok (length chunks) s -> step chunks s act = Some s' ->
  weight s = S (weight s').
Proof.
  intros (Hlen & Hmain) Hstep. unfold weight.
  destruct act as [| k | k]; simpl in Hstep.
  - destruct (main s) as [| i | |] eqn:Hpc.
    + inversion Hstep; subst s'. reflexivity.
    + destruct Hmain as (Hi & _ & Hns).
      destruct (Nat.ltb_spec i (length chunks)) as [Hlt | Hge];
        inversion Hstep; subst s'; clear Hstep; cbn [main tasks pc_weight]; [|lia].
      pose proof (proj2 (Hns i) ltac:(lia)) as Hi0.
      pose proof (weight_upd _ _ _ Ready Hi0) as Hw. cbn [task_weight] in Hw. lia.
    + destruct (wg s =? 0); inversion Hstep; subst s'. reflexivity.
    + discriminate.
  - destruct (nth_error (tasks s) k) as [[| | |] |] eqn:Hk; try discriminate.
    destruct (nth_error chunks k) as [c |]; [|discriminate].
    inversion Hstep; subst s'; clear Hstep. cbn [main tasks].
    pose proof (weight_upd _ _ _ DoneSorting Hk) as Hw. cbn [task_weight] in Hw. lia.
  - destruct (nth_error (tasks s) k) as [[| | |] |] eqn:Hk; try discriminate.
    inversion Hstep; subst s'; clear Hstep. cbn [main tasks].
    pose proof (weight_upd _ _ _ Finished Hk) as Hw. cbn [task_weight] in Hw. lia.
Qed.

Lemma weight_init (a : array) (chunks : list slice) :
  weight (init a chunks) = (3 * length chunks + 3)%nat.
Proof.
  unfold weight, init. cbn [main tasks pc_weight].
  induction (length chunks) as [| n IH]; simpl in *; lia.
Qed.

Lemma enabled_In (chunks : list slice) (s : state) (act : action) :
  length (tasks s) = length chunks ->
  In act (enabled chunks s) <-> exists s', step chunks s act = Some s'.
Proof.
  intros Hlen. unfold enabled. rewrite filter_In. split.
  - intros [_ H]. destruct (step chunks s act) as [s' |]; [eauto | discriminate].
  - intros [s' H]. split; [|rewrite H; reflexivity].
    destruct act as [| k | k]; [left; reflexivity | |]; right; apply in_or_app;
      simpl in H; destruct (nth_error (tasks s) k) as [t |] eqn:Hk; try discriminate;
      apply nth_error_lt in Hk; [left | right]; apply in_map, in_seq; lia.
Qed.

(** Before the caller has passed the barrier some thread can always run:
    the caller itself, or a goroutine that has not finished. *)
Lemma progress (chunks : list slice) (s : state) :
  control_ok (length chunks) s -> main s <> AtReturn ->
  exists act s', step chunks s act = Some s'.
Proof.
  intros (Hlen & Hmain) Hpc. destruct (main s) as [| i | |] eqn:Hm.
  - exists Main. simpl. rewrite Hm. eauto.
  - exists Main. simpl. rewrite Hm. destruct (i <? length chunks)%nat; eauto.
  - destruct Hmain as (Hwg & Hns). destruct (Z.eq_dec (wg s) 0) as [Hz | Hnz].
    + exists Main. simpl. rewrite Hm, Hz. simpl. eauto.
    + pose proof (pending_nonneg (tasks s)).
      destruct (pending_pos (tasks s) ltac:(lia)) as (k & t & Hk & Ht).
      pose proof (nth_error_lt _ _ _ Hk) as Hklt.
      destruct (nth_error chunks k) as [c |] eqn:Hc; [| apply nth_error_None in Hc; lia].
      destruct t.
      * exfalso. apply (Hns k). exact Hk.
      * exists (SortInts k). simpl. rewrite Hk, Hc. eauto.
      * exists (WgDone k). simpl. rewrite Hk. eauto.
      * congruence.
  - congruence.
Qed.

(** Behind the barrier nothing is left to run. *)
Lemma returned_final (chunks : list slice) (s : state) (act : action) :
  control_ok (length chunks) s -> main s = AtReturn -> step chunks s act = None.
Proof.
  intros (Hlen & Hmain) Hm. rewrite Hm in Hmain. destruct Hmain as (_ & Hfin).
  destruct act as [| k | k]; simpl.
  - rewrite Hm. reflexivity.
  - destruct (nth_error (tasks s) k) as [t |] eqn:Hk; [|reflexivity].
    rewrite (Hfin k t Hk). reflexivity.
  - destruct (nth_error (tasks s) k) as [t |] eqn:Hk; [|reflexivity].
    rewrite (Hfin k t Hk). reflexivity.
Qed.

(** What holds along every run. *)
Lemma run_inv (a : array) (chunks : list slice) (o e : Z) :
  tiles o chunks e -> 0 <= o -> e <= Z.of_nat (length a) ->
  forall (sched : list action) (s s' : state),
    run chunks s sched = Some s' ->
    control_ok (length chunks) s ->
    mem s = layout a o e chunks (tasks s) ->
    control_ok (length chunks) s' /\
    mem s' = layout a o e chunks (tasks s') /\
    (length sched + weight s' = weight s)%nat.
Proof.
  intros Ht Ho He sched. induction sched as [| act sched IH]; intros s s' Hrun Hc Hm.
  - simpl in Hrun. inversion Hrun; subst. auto.
  - simpl in Hrun. destruct (step chunks s act) as [s1 |] eqn:Hstep; [|discriminate].
    destruct (IH s1 s' Hrun (step_control _ _ _ _ Hc Hstep)
                (step_mem a chunks o e _ _ _ Ht Ho He Hc Hm Hstep)) as (Hc' & Hm' & Hw).
    split; [exact Hc'|]. split; [exact Hm'|].
    rewrite (step_weight _ _ _ _ Hc Hstep). simpl. lia.
Qed.

(** Whatever has been scheduled so far, the run can be completed. *)
Lemma run_completes (chunks : list slice) :
  forall (w : nat) (s : state),
    weight s = w -> control_ok (length chunks) s ->
    exists more s', run chunks s more = Some s' /\ main s' = AtReturn.
Proof.
  induction w as [| w IH]; intros s Hw Hc.
  - exists [], s. split; [reflexivity|].
    destruct (main s) eqn:Hm; try reflexivity;
      unfold weight in Hw; rewrite Hm in Hw; simpl in Hw; lia.
  - destruct (main s) eqn:Hm.
    4: { exists [], s. split; [reflexivity | exact Hm]. }
    all: destruct (progress chunks s Hc ltac:(congruence)) as (act & s1 & Hstep);
      pose proof (step_weight _ _ _ _ Hc Hstep) as Hw1;
      destruct (IH s1 ltac:(lia) (step_control _ _ _ _ Hc Hstep)) as (more & s' & Hrun & Hret);
      exists (act :: more), s'; simpl; rewrite Hstep; split; assumption.
Qed.

End ConcFacts.

(** C9.  sortChunksConcurrently creates one goroutine per chunk, each
    sorting its own chunk, and the caller cannot pass wg.Wait before
    every goroutine has finished.  In every state that any schedule can
    reach: there is one goroutine per chunk; the array is the caller's
    with each chunk holding its original contents until its own
    goroutine has sorted it and its sorted contents from then on, and
    nothing else changed; some thread can run as long as the
    caller has not returned, and every schedule has used up
    3 * numChunks + 3 steps when it stops; once the caller has returned
    nothing can run any more, the counter is 0, every goroutine has
    finished, the array is the one sortChunksConcurrently is modelled to
    return and every chunk the merge will read is sorted; and every run
    can be completed to such a state. *)
Theorem C9_barrier (a : array) (numbers : slice) (chunks : list slice) :
  wf_slice a numbers ->
  splitIntoChunks numbers = Done chunks ->
  length (Conc.tasks (Conc.init a chunks)) = length chunks /\
  forall sched s,
    Conc.run chunks (Conc.init a chunks) sched = Some s ->
    length (Conc.tasks s) = length chunks /\
    Conc.mem s
    = Conc.layout a (off numbers) (off numbers + len numbers) chunks (Conc.tasks s) /\
    map (view (Conc.mem s)) chunks = Conc.blocks a chunks (Conc.tasks s) /\
    (length sched + Conc.weight s = 3 * length chunks + 3)%nat /\
    (Conc.main s <> Conc.AtReturn -> Conc.enabled chunks s <> []) /\
    (Conc.main s = Conc.AtReturn ->
     Conc.enabled chunks s = [] /\
     Conc.wg s = 0 /\
     Forall (eq Conc.Finished) (Conc.tasks s) /\
     Conc.mem s = fst (sortChunksConcurrently a chunks) /\
     Forall (fun c => Sorted Z.le (view (Conc.mem s) c)) chunks) /\
    exists more s',
      Conc.run chunks s more = Some s' /\ Conc.main s' = Conc.AtReturn.
Proof.
  intros Hwf Hsplit. pose proof Hwf as (Ho & Hl & Hc).
  destruct (splitIntoChunks_spec numbers Hl) as (chunks' & Hsplit' & _ & Htiles & _).
  rewrite Hsplit in Hsplit'. inversion Hsplit'; subst chunks'; clear Hsplit'.
  set (o := off numbers) in *. set (e := off numbers + len numbers) in *.
  assert (He : e <= Z.of_nat (length a)) by (unfold e; lia).
  split; [apply repeat_length|]. intros sched s Hrun.
  destruct (ConcFacts.run_inv a chunks o e Htiles Ho He sched _ _ Hrun
              (ConcFacts.init_control a chunks)
              (ConcFacts.init_mem a chunks o e Htiles Ho He))
    as (Hctl & Hmem & Hw).
  pose proof Hctl as (Hlen & Hmain).
  rewrite ConcFacts.weight_init in Hw.
  assert (Hviews : map (view (Conc.mem s)) chunks = Conc.blocks a chunks (Conc.tasks s)).
  { rewrite Hmem. unfold Conc.layout. apply (views_blocks chunks _ _ _ e).
    - pose proof (tiles_le _ _ _ Htiles). rewrite length_firstn.
      replace (Z.of_nat (Nat.min (Z.to_nat o) (length a))) with o by lia. exact Htiles.
    - apply (ConcFacts.blocks_lengths a chunks _ o e); assumption. }
  split; [exact Hlen|]. split; [exact Hmem|]. split; [exact Hviews|].
  split; [exact Hw|]. split; [|split].
  - intros Hpc. destruct (ConcFacts.progress chunks s Hctl Hpc) as (act & s1 & Hstep).
    intros Hnil. assert (Hin : In act (Conc.enabled chunks s))
      by (apply ConcFacts.enabled_In; eauto).
    rewrite Hnil in Hin. exact Hin.
  - intros Hret. rewrite Hret in Hmain. destruct Hmain as (Hwg & Hfin).
    assert (Hblocks : Conc.blocks a chunks (Conc.tasks s)
                      = map (fun c => isort (view a c)) chunks)
      by (apply ConcFacts.blocks_all_finished; assumption).
    split; [|split; [exact Hwg|split; [|split]]].
    + destruct (Conc.enabled chunks s) as [| act rest] eqn:Hen; [reflexivity|].
      assert (Hin : In act (Conc.enabled chunks s)) by (rewrite Hen; left; reflexivity).
      apply ConcFacts.enabled_In in Hin; [|exact Hlen]. destruct Hin as [s1 Hstep].
      rewrite (ConcFacts.returned_final chunks s act Hctl Hret) in Hstep. discriminate.
    + apply Forall_forall. intros t Ht. apply In_nth_error in Ht. destruct Ht as [j Hj].
      symmetry. apply (Hfin j t Hj).
    + rewrite Hmem. unfold Conc.layout. rewrite Hblocks. cbn [sortChunksConcurrently fst].
      symmetry. apply fold_sort_tiles; assumption.
    + apply Forall_forall. intros c Hin.
      assert (Hv : In (view (Conc.mem s) c) (map (view (Conc.mem s)) chunks))
        by (apply in_map; exact Hin).
      rewrite Hviews, Hblocks in Hv. apply in_map_iff in Hv.
      destruct Hv as (c' & <- & _). apply Sorted_le_strong, isort_sorted.
  - apply (ConcFacts.run_completes chunks (Conc.weight s) s eq_refl Hctl).
Qed.

Lemma C9_barrier_witness :
  length (Conc.tasks (Conc.init ten_down ten_chunks)) = length ten_chunks /\
  forall sched s,
    Conc.run ten_chunks (Conc.init ten_down ten_chunks) sched = Some s ->
    length (Conc.tasks s) = length ten_chunks /\
    Conc.mem s
    = Conc.layout ten_down (off (whole ten_down))
        (off (whole ten_down) + len (whole ten_down)) ten_chunks (Conc.tasks s) /\
    map (view (Conc.mem s)) ten_chunks = Conc.blocks ten_down ten_chunks (Conc.tasks s) /\
    (length sched + Conc.weight s = 3 * length ten_chunks + 3)%nat /\
    (Conc.main s <> Conc.AtReturn -> Conc.enabled ten_chunks s <> []) /\
    (Conc.main s = Conc.AtReturn ->
     Conc.enabled ten_chunks s = [] /\
     Conc.wg s = 0 /\
     Forall (eq Conc.Finished) (Conc.tasks s) /\
     Conc.mem s = fst (sortChunksConcurrently ten_down ten_chunks) /\
     Forall (fun c => Sorted Z.le (view (Conc.mem s) c)) ten_chunks) /\
    exists more s',
      Conc.run ten_chunks s more = Some s' /\ Conc.main s' = Conc.AtReturn.
Proof.
  apply (C9_barrier ten_down (whole ten_down) ten_chunks).
  - unfold wf_slice, whole. simpl. lia.
  - vm_compute. reflexivity.
Defined.

(** The schedule that starts every goroutine and then runs them in index
    order reaches the state behind the barrier, and so does one that runs
    them in the opposite order; a schedule that lets the caller try to
    pass the barrier while a goroutine is still sorting is refused. *)
Example run_in_order :
  Conc.run ten_chunks (Conc.init ten_down ten_chunks) (Conc.in_order ten_chunks)
  = Some (Conc.mkState [8; 9; 10; 5; 6; 7; 3; 4; 1; 2] 0 Conc.AtReturn
            (repeat Conc.Finished 4)).
Proof. reflexivity. Qed.

Example run_reversed :
  Conc.run ten_chunks (Conc.init ten_down ten_chunks)
    (repeat Conc.Main 6
       ++ flat_map (fun i => [Conc.SortInts i; Conc.WgDone i]) [3; 2; 1; 0]%nat
       ++ [Conc.Main])
  = Some (Conc.mkState [8; 9; 10; 5; 6; 7; 3; 4; 1; 2] 0 Conc.AtReturn
            (repeat Conc.Finished 4)).
Proof. reflexivity. Qed.

Example wait_blocks :
  Conc.run ten_chunks (Conc.init ten_down ten_chunks)
    (repeat Conc.Main 6
       ++ flat_map (fun i => [Conc.SortInts i; Conc.WgDone i]) [0; 1; 2]%nat
       ++ [Conc.SortInts 3%nat; Conc.Main])
  = None.
Proof. reflexivity. Qed.

(** ** The chunk count: binary64 square root against the integer one *)

Module F64Facts.

Import F64.

(** The exponent function of binary64 on concrete shapes. *)
Ltac fexp_calc := unfold fexp, SpecFloat.emin, prec, emax; lia.

Ltac div2_calc := Z.to_euclidean_division_equations; lia.

(** *** Bit lengths and shifts *)

Lemma digits2_pos_bounds (p : positive) :
  2 ^ (Z.pos (digits2_pos p) - 1) <= Z.pos p < 2 ^ Z.pos (digits2_pos p).
Proof.
  induction p as [p IH | p IH |]; cbn [digits2_pos].
  - rewrite Pos2Z.inj_succ.
    replace (Z.succ (Z.pos (digits2_pos p)) - 1) with (Z.succ (Z.pos (digits2_pos p) - 1)) by lia.
    rewrite !Z.pow_succ_r by lia. lia.
  - rewrite Pos2Z.inj_succ.
    replace (Z.succ (Z.pos (digits2_pos p)) - 1) with (Z.succ (Z.pos (digits2_pos p) - 1)) by lia.
    rewrite !Z.pow_succ_r by lia. lia.
  - simpl. lia.
Qed.

Lemma digits2_pos_unique (p : positive) (d : Z) :
  2 ^ (d - 1) <= Z.pos p < 2 ^ d -> Z.pos (digits2_pos p) = d.
Proof.
  intros [Hlo Hhi]. pose proof (digits2_pos_bounds p) as [Blo Bhi].
  assert (0 < d).
  { destruct (Z_lt_le_dec 0 d); auto.
    assert (2 ^ d <= 2 ^ 0) by (destruct (Z_lt_le_dec d 0);
      [rewrite Z.pow_neg_r by lia; simpl; lia | apply Z.pow_le_mono_r; lia]).
    simpl in *. lia. }
  destruct (Z_lt_le_dec (Z.pos (digits2_pos p)) d) as [Hlt | Hge].
  - assert (2 ^ Z.pos (digits2_pos p) <= 2 ^ (d - 1)) by (apply Z.pow_le_mono_r; lia). lia.
  - destruct (Z_lt_le_dec d (Z.pos (digits2_pos p))) as [Hlt | Hle]; [|lia].
    assert (2 ^ d <= 2 ^ (Z.pos (digits2_pos p) - 1)) by (apply Z.pow_le_mono_r; lia). lia.
Qed.

Lemma iter_xO_mul (m d : positive) : Z.pos (Pos.iter xO m d) = Z.pos m * 2 ^ Z.pos d.
Proof.
  change (Pos.iter xO m d) with (Zpower.shift_pos d m).
  rewrite Zpower.shift_pos_correct, Z.pow_pos_fold. lia.
Qed.

Lemma shl_align_spec (m : positive) (e e' : Z) :
  e' <= e ->
  exists m', shl_align m e e' = (m', e') /\ Z.pos m' = Z.pos m * 2 ^ (e - e').
Proof.
  intros Hle. unfold shl_align. destruct (e' - e) as [| d | d] eqn:Hd.
  - assert (e' = e) by lia. subst e'. exists m. rewrite Z.sub_diag. split; [reflexivity | simpl; lia].
  - lia.
  - exists (Pos.iter xO m d). split; [reflexivity|].
    rewrite iter_xO_mul. f_equal. f_equal. lia.
Qed.

Lemma loc_of_shr_record_of_loc (m : Z) (l : location) :
  loc_of_shr_record (shr_record_of_loc m l) = l /\ shr_m (shr_record_of_loc m l) = m.
Proof. destruct l as [|[]]; split; reflexivity. Qed.

(** *** Rounding a 53-bit mantissa

    A mantissa of exactly 53 bits with a normal exponent needs no shift,
    so rounding only looks at the location of the discarded part. *)

Lemma shr_fexp_53 (p : positive) (e : Z) (l : location) :
  2 ^ 52 <= Z.pos p < 2 ^ 53 -> -1074 <= e ->
  shr_fexp prec emax (Z.pos p) e l = (shr_record_of_loc (Z.pos p) l, e).
Proof.
  intros Hp He. unfold shr_fexp, Zdigits2.
  rewrite (digits2_pos_unique p 53) by (simpl; lia).
  replace (fexp prec emax (53 + e) - e) with 0 by fexp_calc.
  reflexivity.
Qed.

(** Rounding keeps the mantissa or adds one; when that carries into a
    54th bit the result is renormalised to 2^52 with the next
    exponent. *)
Lemma binary_round_aux_53 (q e : Z) (l : location) :
  2 ^ 52 <= q < 2 ^ 53 -> -1074 <= e <= 970 -> l <> loc_Inexact Eq ->
  exists m' e',
    binary_round_aux prec emax false q e l = S754_finite false m' e' /\
    ((e' = e /\ Z.pos m' = round_nearest_even q l) \/
     (e' = e + 1 /\ Z.pos m' = 2 ^ 52 /\ round_nearest_even q l = 2 ^ 53)).
Proof.
  intros Hq He Hl. destruct q as [| p | p]; try lia.
  unfold binary_round_aux. rewrite shr_fexp_53 by lia.
  destruct (loc_of_shr_record_of_loc (Z.pos p) l) as [-> ->].
  set (q1 := round_nearest_even (Z.pos p) l).
  assert (Hq1 : q1 = Z.pos p \/ q1 = Z.pos p + 1).
  { unfold q1. destruct l as [|[]]; simpl; auto. congruence. }
  destruct (Z_lt_le_dec q1 (2 ^ 53)) as [Hlt | Hge].
  - destruct q1 as [| p1 | p1] eqn:E1; try lia.
    rewrite shr_fexp_53 by lia. simpl shr_m.
    replace (e <=? emax - prec) with true by (unfold emax, prec; lia).
    exists p1, e. split; [reflexivity|]. left. split; reflexivity.
  - assert (Hq2 : q1 = 2 ^ 53) by lia. rewrite Hq2.
    unfold shr_fexp.
    replace (fexp prec emax (Zdigits2 (2 ^ 53) + e) - e) with 1
      by (simpl Zdigits2; fexp_calc).
    replace (emax - prec) with 971 by reflexivity.
    simpl.
    replace (e + 1 <=? 971) with true by lia.
    eexists _, (e + 1). split; [reflexivity|]. right. repeat split.
Qed.

(** *** The three operations

    [float64(n)] is exact below 2^53: a 53-bit mantissa [m] and an
    exponent [e] with [m = n * 2^(-e)]. *)
Lemma of_int_pos (n : Z) :
  1 <= n < 2 ^ 53 ->
  exists m e,
    of_int n = S754_finite false m e /\
    -52 <= e <= 0 /\ Z.pos m = n * 2 ^ (- e) /\ 2 ^ 52 <= Z.pos m < 2 ^ 53.
Proof.
  intros Hn. destruct n as [| p | p]; try lia.
  unfold of_int, binary_normalize, binary_round.
  pose proof (digits2_pos_bounds p) as Hd.
  set (d := Z.pos (digits2_pos p)) in *.
  assert (Hd53 : 1 <= d <= 53).
  { split; [unfold d; lia|].
    destruct (Z_lt_le_dec 53 d); [|lia].
    assert (2 ^ 53 <= 2 ^ (d - 1)) by (apply Z.pow_le_mono_r; lia). lia. }
  replace (fexp prec emax (d + 0)) with (d - 53) by fexp_calc.
  destruct (shl_align_spec p 0 (d - 53)) as (mz & -> & Hmz); [lia|].
  replace (0 - (d - 53)) with (53 - d) in Hmz by lia.
  assert (Hmzb : 2 ^ 52 <= Z.pos mz < 2 ^ 53).
  { assert (E52 : 2 ^ 52 = 2 ^ (d - 1) * 2 ^ (53 - d))
      by (rewrite <- Z.pow_add_r by lia; f_equal; lia).
    assert (E53 : 2 ^ 53 = 2 ^ d * 2 ^ (53 - d))
      by (rewrite <- Z.pow_add_r by lia; f_equal; lia).
    assert (0 < 2 ^ (53 - d)) by (apply Z.pow_pos_nonneg; lia).
    rewrite Hmz, E52, E53. split.
    - apply Z.mul_le_mono_nonneg_r; lia.
    - apply Z.mul_lt_mono_pos_r; lia. }
  destruct (binary_round_aux_53 (Z.pos mz) (d - 53) loc_Exact)
    as (m' & e' & -> & [[-> Hv] | (_ & _ & Hv)]);
    [lia | lia | discriminate | | simpl in Hv; lia].
  simpl in Hv. exists m', (d - 53). split; [reflexivity|].
  replace (- (d - 53)) with (53 - d) by lia. rewrite Hv. repeat split; lia.
Qed.

Lemma to_int_of_int (n : Z) : 0 <= n < 2 ^ 53 -> to_int (of_int n) = n.
Proof.
  intros Hn. destruct (Z.eq_dec n 0) as [-> | Hnz]; [reflexivity|].
  destruct (of_int_pos n) as (m & e & -> & He & Hm & Hmb); [lia|].
  unfold to_int.
  assert (Hp : 0 < 2 ^ (- e)) by (apply Z.pow_pos_nonneg; lia).
  assert (Ht : (if 0 <=? e then Z.pos m * 2 ^ e else Z.quot (Z.pos m) (2 ^ (- e))) = n).
  { destruct (Z.leb_spec 0 e).
    - assert (e = 0) by lia. subst e. simpl in *. lia.
    - rewrite Hm. rewrite Z.quot_mul; lia. }
  rewrite Ht.
  destruct (Z.leb_spec (- 2 ^ 63) n); [|lia].
  destruct (Z.ltb_spec n (2 ^ 63)); [reflexivity|lia].
Qed.

(** [math.Sqrt] of such a number: with [t = 26 - e / 2] the mantissa is
    scaled to 105 or 106 bits, its integer root [q] has 53 bits, and the
    result is [q] or [q + 1] (to nearest) times [2^(-t)]. *)
Lemma Sqrt_finite (m : positive) (e : Z) :
  2 ^ 52 <= Z.pos m < 2 ^ 53 -> -52 <= e <= 0 ->
  let t := 26 - e / 2 in
  let q := Z.sqrt (Z.pos m * 2 ^ (e + 2 * t)) in
  let r := Z.pos m * 2 ^ (e + 2 * t) - q * q in
  let q1 := if r <=? q then q else q + 1 in
  exists mq eq,
    Sqrt (S754_finite false m e) = S754_finite false mq eq /\
    ((eq = - t /\ Z.pos mq = q1) \/ (eq = - t + 1 /\ Z.pos mq = 2 ^ 52 /\ q1 = 2 ^ 53)).
Proof.
  intros Hm He t q r q1.
  unfold Sqrt, SFsqrt, SFsqrt_core_binary, Zdigits2.
  rewrite (digits2_pos_unique m 53) by (simpl; lia).
  rewrite !Z.div2_div.
  replace (Z.min (fexp prec emax ((53 + e + 1) / 2)) (e / 2)) with (- t)
    by (unfold fexp, SpecFloat.emin, prec, emax, t; div2_calc).
  replace (e - 2 * - t) with (e + 2 * t) by lia.
  assert (Hs : 52 <= e + 2 * t <= 53) by (unfold t; div2_calc).
  change IntDef.Z.sqrtrem with Z.sqrtrem. change IntDef.Z.shiftl with Z.shiftl.
  set (m' := Z.pos m * 2 ^ (e + 2 * t)) in *.
  replace (match e + 2 * t with
           | 0 => Z.pos m
           | Z.pos _ => Z.shiftl (Z.pos m) (e + 2 * t)
           | Z.neg _ => 0
           end) with m'
    by (destruct (e + 2 * t) eqn:E; try lia; rewrite Z.shiftl_mul_pow2 by lia; reflexivity).
  assert (Hm' : 2 ^ 104 <= m' < 2 ^ 106).
  { unfold m'. assert (e + 2 * t = 52 \/ e + 2 * t = 53) as [-> | ->] by lia; lia. }
  pose proof (Z.sqrtrem_spec m' ltac:(lia)) as Hsp.
  pose proof (Z.sqrtrem_sqrt m') as Hsq. fold q in Hsq.
  destruct (Z.sqrtrem m') as [q0 r0]. simpl in Hsq. subst q0.
  destruct Hsp as [Hsp Hr0].
  assert (r0 = r) by (unfold r; lia). subst r0.
  assert (Hq : 2 ^ 52 <= q < 2 ^ 53).
  { split.
    - change (2 ^ 52) with (Z.sqrt (2 ^ 104)). apply Z.sqrt_le_mono. lia.
    - apply Z.sqrt_lt_square; lia. }
  set (l := if r =? 0 then loc_Exact else loc_Inexact (if r <=? q then Lt else Gt)).
  assert (Hl : l <> loc_Inexact Eq).
  { unfold l. destruct (r =? 0); [discriminate|]. destruct (r <=? q); discriminate. }
  assert (Hrnd : round_nearest_even q l = q1).
  { unfold l, q1. destruct (Z.eqb_spec r 0) as [E0|E0].
    - simpl. destruct (Z.leb_spec r q); [reflexivity | lia].
    - destruct (r <=? q); reflexivity. }
  destruct (binary_round_aux_53 q (- t) l) as (mq & eq & -> & Hcase);
    [lia | unfold t; div2_calc | exact Hl |].
  rewrite Hrnd in Hcase. exists mq, eq. split; [reflexivity | exact Hcase].
Qed.

(** *** The integer side *)

Lemma ceil_sqrt_spec (n : Z) :
  0 <= n -> 0 <= ceil_sqrt n /\ n <= ceil_sqrt n * ceil_sqrt n /\
            (0 < n -> (ceil_sqrt n - 1) * (ceil_sqrt n - 1) < n).
Proof.
  intros Hn. unfold ceil_sqrt. pose proof (Z.sqrt_spec n Hn) as Hs.
  pose proof (Z.sqrt_nonneg n).
  destruct (Z.eqb_spec (Z.sqrt n * Z.sqrt n) n) as [E | E].
  - repeat split; try lia; intros; nia.
  - replace (Z.sqrt n + 1 - 1) with (Z.sqrt n) by lia.
    unfold Z.succ in Hs. repeat split; try lia.
Qed.

(** [q] is the integer root of [n * T^2] and [q1] its rounding; [k] is
    the ceiling of the root of [n].  Then [q1 / T] lies in the last unit
    interval up to [k], provided [T] is large against [k] or [n] is a
    square. *)
Lemma rounded_root_upper (n k T q q1 : Z) :
  0 < T -> 1 <= k -> n <= k * k -> 0 <= q ->
  q * q <= n * (T * T) ->
  q <= q1 <= q + 1 -> (q1 = q + 1 -> q * q + q < n * (T * T)) ->
  q1 <= k * T.
Proof.
  intros HT Hk Hn Hq Hsq Hq1 Hup.
  assert (Hle : n * (T * T) <= (k * T) * (k * T)).
  { replace (k * T * (k * T)) with ((k * k) * (T * T)) by ring.
    apply Z.mul_le_mono_nonneg_r; nia. }
  assert (HqkT : q <= k * T).
  { apply Z.square_le_simpl_nonneg; [nia | lia]. }
  destruct (Z.eq_dec q (k * T)) as [E | E]; [|lia].
  destruct (Z.eq_dec q1 (q + 1)) as [E1 | E1]; [|lia].
  specialize (Hup E1). rewrite <- E in Hle. lia.
Qed.

Lemma rounded_root_lower (n k T q q1 : Z) :
  0 < T -> 1 <= k -> (k - 1) * (k - 1) < n -> 0 <= q ->
  n * (T * T) < (q + 1) * (q + 1) ->
  q <= q1 ->
  n = k * k \/ 2 * (k - 1) < T ->
  (k - 1) * T < q1.
Proof.
  intros HT Hk Hn Hq Hsq Hq1 [E | Hsmall].
  - subst n.
    assert (k * T < q + 1).
    { apply Z.square_lt_simpl_nonneg; [lia|].
      replace (k * T * (k * T)) with ((k * k) * (T * T)) by ring. exact Hsq. }
    nia.
  - set (a := (k - 1) * T).
    assert (Ha : 0 <= a) by (unfold a; nia).
    destruct (Z_lt_le_dec a q) as [Hlt | Hge]; [lia|]. exfalso.
    assert (H1 : (q + 1) * (q + 1) <= (a + 1) * (a + 1))
      by (apply Z.square_le_mono_nonneg; lia).
    assert (H2 : a * a + T * T <= n * (T * T)).
    { replace (a * a + T * T) with (((k - 1) * (k - 1) + 1) * (T * T)) by (unfold a; ring).
      apply Z.mul_le_mono_nonneg_r; nia. }
    assert (H3 : 2 * a < T * T).
    { unfold a. replace (2 * ((k - 1) * T)) with ((2 * (k - 1)) * T) by ring.
      apply Z.mul_lt_mono_pos_r; lia. }
    lia.
Qed.

Lemma ceil_div_unique (a b k : Z) :
  0 < b -> (k - 1) * b < a <= k * b -> - (- a / b) = k.
Proof.
  intros Hb Hk. assert (- k = - a / b); [|lia].
  apply Z.div_unique with (r := k * b - a); [left|]; lia.
Qed.

Lemma ceil_sqrt_small (n : Z) : 0 <= n <= 2 ^ 52 -> ceil_sqrt n <= 2 ^ 26.
Proof.
  intros Hn. unfold ceil_sqrt.
  assert (Hs : Z.sqrt n <= 2 ^ 26).
  { change (2 ^ 26) with (Z.sqrt (2 ^ 52)). apply Z.sqrt_le_mono. lia. }
  destruct (Z.eqb_spec (Z.sqrt n * Z.sqrt n) n) as [E | E]; [lia|].
  destruct (Z.eq_dec (Z.sqrt n) (2 ^ 26)) as [E26 | E26]; [|lia].
  pose proof (Z.sqrt_spec n ltac:(lia)) as [Hlo _]. rewrite E26 in *.
  change (2 ^ 26 * 2 ^ 26) with (2 ^ 52) in *. lia.
Qed.

(** *** The chunk count

    Up to 2^52 the binary64 computation of lines 164-167 is the integer
    formula. *)
Lemma numChunks_exact (n : Z) :
  0 <= n <= 2 ^ 52 -> numChunks n = Z.max 4 (ceil_sqrt n).
Proof.
  intros Hn. unfold numChunks.
  destruct (Z.eq_dec n 0) as [-> | Hnz]; [reflexivity|].
  destruct (of_int_pos n) as (m & e & -> & He & Hm & Hmb); [lia|].
  destruct (Sqrt_finite m e Hmb He) as (mq & eq & -> & Hcase).
  set (t := 26 - e / 2) in *.
  set (m' := Z.pos m * 2 ^ (e + 2 * t)) in *.
  set (q := Z.sqrt m') in *.
  set (r := m' - q * q) in *.
  set (q1 := if r <=? q then q else q + 1) in *.
  assert (Ht : 26 <= t <= 52) by (unfold t; div2_calc).
  set (Th := 2 ^ (t - 1)).
  set (T := 2 ^ t).
  assert (HT : T = 2 * Th).
  { unfold T, Th. replace t with (Z.succ (t - 1)) at 1 by lia. apply Z.pow_succ_r. lia. }
  assert (HTh : 0 < Th) by (apply Z.pow_pos_nonneg; lia).
  assert (Hm' : m' = n * (T * T)).
  { unfold m', T. rewrite Hm, <- Z.mul_assoc, <- !Z.pow_add_r by lia.
    f_equal. f_equal. lia. }
  assert (Hm'0 : 0 <= m') by (unfold m'; apply Z.mul_nonneg_nonneg; [lia | apply Z.pow_nonneg; lia]).
  pose proof (Z.sqrt_spec m' Hm'0) as Hq. fold q in Hq. unfold Z.succ in Hq.
  pose proof (Z.sqrt_nonneg m') as Hq0. fold q in Hq0.
  destruct (ceil_sqrt_spec n ltac:(lia)) as (Hk0 & Hku & Hkl).
  specialize (Hkl ltac:(lia)).
  pose proof (ceil_sqrt_small n Hn) as Hk26.
  set (k := ceil_sqrt n) in *.
  assert (Hk1 : 1 <= k).
  { destruct (Z_lt_le_dec k 1); [|lia]. assert (k = 0) by lia.
    replace k with 0 in Hku by lia. lia. }
  assert (Hq1 : q <= q1 <= q + 1) by (unfold q1; destruct (r <=? q); lia).
  (* the rounded root, scaled back, lies in the interval from k - 1 to k *)
  assert (Hup : q1 <= k * T).
  { apply (rounded_root_upper n k T q q1); try lia.
    unfold q1. destruct (Z.leb_spec r q); [lia|]. intros _. unfold r in *. lia. }
  assert (Hlow : (k - 1) * T < q1).
  { apply (rounded_root_lower n k T q q1); try lia.
    destruct (Z.eq_dec n (k * k)) as [E | E]; [left; exact E | right].
    assert (He1 : e <= -1).
    { destruct (Z.eq_dec e 0) as [-> | ]; [|lia]. simpl in Hm.
      assert (n = 2 ^ 52) by lia. subst n.
      exfalso. apply E. unfold k. reflexivity. }
    assert (Hn2 : n < Th * Th).
    { assert (n < 2 ^ (53 + e)).
      { assert (E53 : 2 ^ 53 = 2 ^ (53 + e) * 2 ^ (- e))
          by (rewrite <- Z.pow_add_r by lia; f_equal; lia).
        assert (0 < 2 ^ (- e)) by (apply Z.pow_pos_nonneg; lia).
        rewrite Hm, E53 in Hmb. destruct Hmb as [_ Hmb].
        apply Z.mul_lt_mono_pos_r in Hmb; lia. }
      assert (2 ^ (53 + e) <= Th * Th).
      { unfold Th. rewrite <- Z.pow_add_r by lia. apply Z.pow_le_mono_r; [lia|].
        unfold t. div2_calc. }
      lia. }
    assert (k - 1 < Th); [|lia].
    apply Z.square_lt_simpl_nonneg; lia. }
  (* so its ceiling is k, which converts back to int unchanged *)
  assert (Hc : - (- Z.pos mq / 2 ^ (- eq)) = k).
  { destruct Hcase as [[-> Hmq] | (-> & Hmq & Hq53)].
    - replace (- - t) with t by lia. fold T.
      apply ceil_div_unique; lia.
    - replace (- (- t + 1)) with (t - 1) by lia. fold Th.
      apply ceil_div_unique; [lia|].
      replace (k * T) with (2 * (k * Th)) in Hup by (rewrite HT; ring).
      replace ((k - 1) * T) with (2 * ((k - 1) * Th)) in Hlow by (rewrite HT; ring).
      lia. }
  assert (Heq : eq < 0) by lia.
  unfold Ceil. destruct (Z.leb_spec 0 eq); [lia|].
  rewrite Hc. fold (of_int k).
  rewrite to_int_of_int by lia.
  destruct (Z.ltb_spec k 4); lia.
Qed.

End F64Facts.

(** C3.  splitIntoChunks creates exactly max(4, ceil(sqrt(n))) chunks,
    ceil(sqrt(n)) being the least integer whose square is at least n;
    n = 10 gives 4 chunks, n = 100 gives 10 and n = 5 gives 4.  The
    count is computed in binary64, which is exact for every length up to
    2^52; a slice of 8-byte integers cannot be longer than that. *)
Theorem C3_chunk_count (numbers : slice) :
  0 <= len numbers <= cap numbers ->
  len numbers <= 2 ^ 52 ->
  let n := len numbers in
  exists chunks,
    splitIntoChunks numbers = Done chunks /\
    Z.of_nat (length chunks) = Z.max 4 (ceil_sqrt n) /\
    (0 <= ceil_sqrt n /\ n <= ceil_sqrt n * ceil_sqrt n /\
     forall k, 0 <= k -> n <= k * k -> ceil_sqrt n <= k) /\
    (n = 10 -> length chunks = 4%nat) /\
    (n = 100 -> length chunks = 10%nat) /\
    (n = 5 -> length chunks = 4%nat).
Proof.
  intros Hl H52 n.
  destruct (splitIntoChunks_spec numbers Hl) as (chunks & Hsplit & Hlen & _).
  fold n in Hlen. rewrite (F64Facts.numChunks_exact n) in Hlen by (unfold n; lia).
  exists chunks. split; [exact Hsplit|]. split; [exact Hlen|].
  destruct (F64Facts.ceil_sqrt_spec n ltac:(unfold n; lia)) as (Hk0 & Hku & Hkl).
  split.
  - split; [exact Hk0|]. split; [exact Hku|]. intros k Hk Hnk.
    destruct (Z.eq_dec n 0) as [Hn0 | Hn0]; [rewrite Hn0; exact Hk|].
    specialize (Hkl ltac:(unfold n in *; lia)).
    destruct (Z_lt_le_dec k (ceil_sqrt n)) as [Hlt | Hge]; [|exact Hge].
    assert (k * k <= (ceil_sqrt n - 1) * (ceil_sqrt n - 1))
      by (apply Z.square_le_mono_nonneg; lia).
    lia.
  - split; [|split]; intros Hn; rewrite Hn in Hlen.
    + change (Z.max 4 (ceil_sqrt 10)) with 4 in Hlen. lia.
    + change (Z.max 4 (ceil_sqrt 100)) with 10 in Hlen. lia.
    + change (Z.max 4 (ceil_sqrt 5)) with 4 in Hlen. lia.
Qed.

Lemma C3_chunk_count_witness :
  exists chunks,
    splitIntoChunks (whole ten_down) = Done chunks /\
    Z.of_nat (length chunks) = Z.max 4 (ceil_sqrt 10) /\
    (0 <= ceil_sqrt 10 /\ 10 <= ceil_sqrt 10 * ceil_sqrt 10 /\
     forall k, 0 <= k -> 10 <= k * k -> ceil_sqrt 10 <= k) /\
    (10 = 10 -> length chunks = 4%nat) /\
    (10 = 100 -> length chunks = 10%nat) /\
    (10 = 5 -> length chunks = 4%nat).
Proof.
  apply (C3_chunk_count (whole ten_down)); simpl; lia.
Defined.

(** The chunk counts the program computes for lengths 10, 100 and 5, and
    for a perfect square and its successor. *)
Example numChunks_values :
  map numChunks [10; 100; 5; 16; 17] = [4; 10; 4; 4; 5].
Proof. vm_compute. reflexivity. Qed.

(** Where the bound comes from: 2^52 + 1 is the first length at which
    the binary64 computation and the integer formula differ (the rounded
    root loses the fraction that the ceiling needs).  No slice of
    integers is that long. *)
Remark numChunks_past_2_52 :
  numChunks (2 ^ 52 + 1) = 2 ^ 26 /\ ceil_sqrt (2 ^ 52 + 1) = 2 ^ 26 + 1.
Proof. split; vm_compute; reflexivity. Qed.

(** ** -r mode *)

Lemma processAndPrint_pipeline (a : array) (numbers : slice) (a' : array) (result : list Z) :
  pipeline a numbers = Done (a', result) ->
  exists pre,
    processAndPrint a numbers = Done (a', pre ++ [PrintInts result]).
Proof.
  unfold pipeline, processAndPrint. intros Hrun.
  destruct (splitIntoChunks numbers) as [chunks | |]; cbn [bind] in *; try discriminate.
  cbn [sortChunksConcurrently] in *.
  destruct (mergeSortedChunks (map (view (fold_left sort_Ints chunks a)) chunks))
    as [r | |]; cbn [bind] in *; try discriminate.
  inversion Hrun; subst. eexists.
  rewrite !app_assoc.
  change [PrintLine EmptyString; PrintLine "Final sorted result:"; PrintInts result]
    with ([PrintLine EmptyString; PrintLine "Final sorted result:"] ++ [PrintInts result]).
  rewrite app_assoc. reflexivity.
Qed.

Section RandomFacts.

Variable rng : Type.
Variable Intn : Z -> rng -> Z * rng.

Lemma fill_random_length (nums : list Z) (g : rng) :
  length (fst (fill_random rng Intn nums g)) = length nums.
Proof.
  revert g. induction nums as [| x rest IH]; intros g; simpl; [reflexivity|].
  destruct (Intn 1000 g) as [v g1]. specialize (IH g1).
  destruct (fill_random rng Intn rest g1) as [rest' g2]. simpl in *. lia.
Qed.

Lemma fill_random_range (nums : list Z) (g : rng) :
  (forall g0, 0 <= fst (Intn 1000 g0) < 1000) ->
  Forall (fun v => 0 <= v < 1000) (fst (fill_random rng Intn nums g)).
Proof.
  intros Hrange. revert g. induction nums as [| x rest IH]; intros g; simpl; [constructor|].
  pose proof (Hrange g) as Hv. destruct (Intn 1000 g) as [v g1]. specialize (IH g1).
  destruct (fill_random rng Intn rest g1) as [rest' g2]. simpl in *.
  constructor; assumption.
Qed.

Lemma fill_random_draws (nums : list Z) (g : rng) :
  snd (fill_random rng Intn nums g) = rng_after rng Intn (length nums) g /\
  forall k, (k < length nums)%nat ->
            nth_error (fst (fill_random rng Intn nums g)) k
            = Some (fst (Intn 1000 (rng_after rng Intn k g))).
Proof.
  revert g. induction nums as [| x rest IH]; intros g.
  - split; [reflexivity | intros k Hk; inversion Hk].
  - cbn [fill_random length rng_after].
    destruct (Intn 1000 g) as [v g1] eqn:Hd. specialize (IH g1).
    destruct (fill_random rng Intn rest g1) as [rest' g2]. cbn [fst snd] in *.
    destruct IH as (Hg & Hnth). split; [exact Hg|].
    intros [| k] Hk; cbn [nth_error rng_after]; rewrite Hd.
    + reflexivity.
    + cbn [snd]. apply Hnth. lia.
Qed.

Variable maxAlloc : Z.

Lemma make_ints_ok (n : Z) :
  0 <= n -> 8 * n <= maxAlloc -> make_ints maxAlloc n = Done (repeat 0 (Z.to_nat n)).
Proof.
  intros Hn Hm. unfold make_ints.
  destruct (Z.ltb_spec n 0); [lia|]. destruct (Z.ltb_spec maxAlloc (8 * n)); [lia|].
  reflexivity.
Qed.

Lemma make_ints_panic (n : Z) :
  n < 0 \/ maxAlloc < 8 * n -> make_ints maxAlloc n = Panic.
Proof.
  intros Hn. unfold make_ints.
  destruct (Z.ltb_spec n 0); [reflexivity|].
  destruct (Z.ltb_spec maxAlloc (8 * n)); [reflexivity | lia].
Qed.

Lemma runRandom_small (n : Z) (g : rng) :
  n < 10 ->
  runRandom rng Intn maxAlloc n g = Done (Some "N must be >= 10"%string, g, []).
Proof.
  intros Hn. unfold runRandom. destruct (Z.ltb_spec n 10); [reflexivity | lia].
Qed.

Lemma runRandom_panics (n : Z) (g : rng) :
  10 <= n -> maxAlloc < 8 * n -> runRandom rng Intn maxAlloc n g = Panic.
Proof.
  intros Hn Hm. unfold runRandom, generateRandomNumbers.
  destruct (Z.ltb_spec n 10); [lia|].
  rewrite make_ints_panic by lia. reflexivity.
Qed.

Lemma runRandom_runs (n : Z) (g : rng) :
  10 <= n -> 8 * n <= maxAlloc ->
  exists numbers a' out1,
    generateRandomNumbers rng Intn maxAlloc n g
    = Done (numbers, rng_after rng Intn (Z.to_nat n) g) /\
    numbers = fst (fill_random rng Intn (repeat 0 (Z.to_nat n)) g) /\
    processAndPrint numbers (whole numbers) = Done (a', out1) /\
    runRandom rng Intn maxAlloc n g
    = Done (None, rng_after rng Intn (Z.to_nat n) g,
            [PrintLine "Original numbers:"%string; PrintInts numbers] ++ out1).
Proof.
  intros Hn Hm. unfold runRandom, generateRandomNumbers.
  destruct (Z.ltb_spec n 10); [lia|].
  rewrite make_ints_ok by lia. cbn [bind].
  destruct (fill_random_draws (repeat 0 (Z.to_nat n)) g) as (Hg & _).
  rewrite repeat_length in Hg.
  destruct (fill_random rng Intn (repeat 0 (Z.to_nat n)) g) as [numbers g'].
  cbn [fst snd] in *. subst g'.
  destruct (pipeline_spec numbers (whole numbers) (wf_whole numbers))
    as (chunks & result & _ & _ & Hrun & _ & _).
  destruct (processAndPrint_pipeline _ _ _ _ Hrun) as (pre & Hprint).
  rewrite Hprint. cbn [bind].
  exists numbers, (fold_left sort_Ints chunks numbers), (pre ++ [PrintInts result]).
  split; [reflexivity|]. split; [reflexivity|]. split; [exact Hprint | reflexivity].
Qed.

End RandomFacts.



Lemma lcg_Intn_range (k g0 : Z) : 0 < k -> 0 <= fst (Demo.lcg_Intn k g0) < k.
Proof. intros Hk. unfold Demo.lcg_Intn. cbn [fst]. apply Z.mod_pos_bound. exact Hk. Qed.


Example runRandom_rejects_9 :
  runRandom Z Demo.lcg_Intn linux_amd64_maxAlloc 9 42
  = Done (Some "N must be >= 10"%string, 42, []).
Proof. reflexivity. Qed.

(** ** -i and -d modes *)

Section FileFacts.

Variable lib : GoLib.
Variable world : Type.
Variable os : OS world.

Lemma read_loop_spec (lines : list string) (numbers : list Z) :
  read_loop lib lines numbers
  = match first_bad lib lines with
    | Some line => inl (String.append "invalid integer: " line)
    | None => inr (numbers ++ values_of lib lines)
    end.
Proof.
  revert numbers. induction lines as [| text rest IH]; intros numbers; simpl.
  - rewrite app_nil_r. reflexivity.
  - destruct (String.eqb (TrimSpace lib text) EmptyString); [apply IH|].
    destruct (Atoi lib (TrimSpace lib text)) as [val |]; [|reflexivity].
    rewrite IH. destruct (first_bad lib rest); [reflexivity|].
    rewrite <- app_assoc. reflexivity.
Qed.

Lemma first_bad_iff (lines : list string) :
  first_bad lib lines <> None <-> exists text, In text lines /\ bad_line lib text.
Proof.
  unfold bad_line. induction lines as [| text rest IH]; simpl.
  - split; [congruence | intros (t & [] & _)].
  - destruct (String.eqb_spec (TrimSpace lib text) EmptyString) as [Hblank | Hnb].
    + rewrite IH. split.
      * intros (t & Hin & Hbad). exists t. split; [right; exact Hin | exact Hbad].
      * intros (t & [-> | Hin] & Hbad); [destruct Hbad; contradiction|].
        exists t. split; assumption.
    + destruct (Atoi lib (TrimSpace lib text)) as [val |] eqn:Hat.
      * rewrite IH. split.
        -- intros (t & Hin & Hbad). exists t. split; [right; exact Hin | exact Hbad].
        -- intros (t & [-> | Hin] & Hbad); [destruct Hbad; congruence|].
           exists t. split; assumption.
      * split; [|discriminate]. intros _. exists text. split; [left; reflexivity|].
        split; assumption.
Qed.

(** Blank lines contribute nothing. *)
Lemma values_of_blank (before after : list string) (text : string) :
  TrimSpace lib text = EmptyString ->
  values_of lib (before ++ text :: after) = values_of lib (before ++ after).
Proof.
  intros Hblank. induction before as [| t rest IH]; simpl.
  - rewrite Hblank. reflexivity.
  - rewrite IH. reflexivity.
Qed.

Lemma dir_loop_app (w : world) (dir outputDir : string) (before after : list string) :
  dir_loop lib world os w dir outputDir (before ++ after)
  = match dir_loop lib world os w dir outputDir before with
    | Done (w1, None) => dir_loop lib world os w1 dir outputDir after
    | other => other
    end.
Proof.
  revert w. induction before as [| f rest IH]; intros w; [reflexivity|].
  cbn [app dir_loop].
  destruct (negb (String.eqb (Ext lib f) ".txt")); [apply IH|].
  destruct (readNumbersFromFile lib world os w (Join lib dir f)) as [numbers [err |]];
    [reflexivity|].
  destruct (Z.of_nat (length numbers) <? 10); [reflexivity|].
  destruct (pipeline numbers (whole numbers)) as [[a' result] | |]; cbn [bind];
    try reflexivity.
  destruct (writeNumbersToFile world os w (Join lib outputDir f) result) as [w' [err |]];
    [reflexivity | apply IH].
Qed.

End FileFacts.

(** The claim that readNumbersFromFile returns an error only when some
    non-blank line fails to parse does not hold: a file that cannot be
    opened gives an error without any line having been read. *)
Lemma C8_open_failure :
  readNumbersFromFile Demo.lib Demo.memfs Demo.os Demo.disk "in/c.txt"
  = ([], Some "open in/c.txt: no such file or directory"%string) /\
  ~ (exists text,
        In text (lines_of Demo.memfs Demo.os Demo.disk "in/c.txt") /\
        bad_line Demo.lib text).
Proof.
  split; [reflexivity|]. intros (text & Hin & _). exact Hin.
Qed.

(** C8, amended.  readNumbersFromFile returns the error of os.Open when
    the file cannot be opened.  On an opened file it skips blank lines;
    if some non-blank line fails integer parsing it returns the error
    "invalid integer: <line>" for the first such line and no numbers;
    otherwise it returns the integers of the non-blank lines in order,
    together with the scanner's final error.  So for a file that opens
    and scans without error it returns an error if and only if some
    non-blank line fails integer parsing.  runInputFile passes a read
    error on and additionally fails when fewer than 10 integers are read.
    In directory mode a read error for a ".txt" entry ends runDirectory
    with that error and with the file system as the entries before it
    left it: nothing is created or written for that input. *)
Theorem C8_read_errors (lib : GoLib) (world : Type) (os : OS world)
  (w : world) (path : string) :
  let read := readNumbersFromFile lib world os w path in
  (forall e, os_open os w path = inl e -> read = ([], Some e)) /\
  (forall sc, os_open os w path = inr sc ->
     (forall line, first_bad lib (tokens sc) = Some line ->
                   read = ([], Some (String.append "invalid integer: " line))) /\
     (first_bad lib (tokens sc) = None ->
      read = (values_of lib (tokens sc), scan_err sc)) /\
     (first_bad lib (tokens sc) <> None <->
      exists text, In text (tokens sc) /\ bad_line lib text) /\
     (scan_err sc = None ->
      (snd read <> None <-> exists text, In text (tokens sc) /\ bad_line lib text))) /\
  (forall before after text,
      TrimSpace lib text = EmptyString ->
      values_of lib (before ++ text :: after) = values_of lib (before ++ after)) /\
  (forall e, snd read = Some e ->
             runInputFile lib world os w path = Done (Some e, [])) /\
  (snd read = None -> Z.of_nat (length (fst read)) < 10 ->
   runInputFile lib world os w path
   = Done (Some "input file must contain at least 10 valid integers"%string, [])) /\
  (snd read = None -> 10 <= Z.of_nat (length (fst read)) ->
   exists out, runInputFile lib world os w path = Done (None, out)) /\
  (forall dir before f rest w1 w2 e,
      let outputDir := String.append dir "_sorted_sandra_jaimy_241ADB123" in
      os_is_dir os w dir = true ->
      os_mkdir_all os w outputDir = inr w1 ->
      os_read_dir os w1 dir = inr (before ++ f :: rest) ->
      dir_loop lib world os w1 dir outputDir before = Done (w2, None) ->
      Ext lib f = ".txt"%string ->
      snd (readNumbersFromFile lib world os w2 (Join lib dir f)) = Some e ->
      runDirectory lib world os w dir = Done (w2, Some e)).
Proof.
  intros read. split; [|split; [|split; [|split; [|split; [|split]]]]].
  - intros e Hopen. unfold read, readNumbersFromFile. rewrite Hopen. reflexivity.
  - intros sc Hopen.
    assert (Hread : read = match first_bad lib (tokens sc) with
                           | Some line => ([], Some (String.append "invalid integer: " line))
                           | None => (values_of lib (tokens sc), scan_err sc)
                           end).
    { unfold read, readNumbersFromFile. rewrite Hopen, read_loop_spec.
      destruct (first_bad lib (tokens sc)); reflexivity. }
    split; [|split; [|split]].
    + intros line Hbad. rewrite Hread, Hbad. reflexivity.
    + intros Hnone. rewrite Hread, Hnone. reflexivity.
    + apply first_bad_iff.
    + intros Hscan. rewrite <- first_bad_iff, Hread.
      destruct (first_bad lib (tokens sc)); cbn [snd]; [|rewrite Hscan];
        split; congruence.
  - apply values_of_blank.
  - intros e He. unfold runInputFile. fold read.
    destruct read as [numbers err]. cbn [snd] in He. subst err. reflexivity.
  - intros Hnone Hshort. unfold runInputFile. fold read.
    destruct read as [numbers err]. cbn [fst snd] in *. subst err.
    destruct (Z.ltb_spec (Z.of_nat (length numbers)) 10); [reflexivity | lia].
  - intros Hnone Hlong. unfold runInputFile. fold read.
    destruct read as [numbers err]. cbn [fst snd] in *. subst err.
    destruct (Z.ltb_spec (Z.of_nat (length numbers)) 10); [lia|].
    destruct (pipeline_spec numbers (whole numbers) (wf_whole numbers))
      as (chunks & result & _ & _ & Hrun & _ & _).
    destruct (processAndPrint_pipeline _ _ _ _ Hrun) as (pre & Hprint).
    rewrite Hprint. cbn [bind]. eexists. reflexivity.
  - intros dir before f rest w1 w2 e outputDir Hdir Hmk Hls Hbefore Hext Hfail.
    unfold runDirectory. fold outputDir. rewrite Hdir, Hmk, Hls. cbn [negb].
    rewrite dir_loop_app, Hbefore. cbn [dir_loop]. rewrite Hext.
    replace (String.eqb ".txt" ".txt") with true by reflexivity. cbn [negb].
    destruct (readNumbersFromFile lib world os w2 (Join lib dir f)) as [numbers err].
    cbn [snd] in Hfail. subst err. reflexivity.
Qed.

Lemma C8_read_errors_witness :
  readNumbersFromFile Demo.lib Demo.memfs Demo.os Demo.disk "in/b.txt"
  = ([], Some "invalid integer: abc"%string) /\
  (exists text, In text Demo.bad_lines /\ bad_line Demo.lib text) /\
  runInputFile Demo.lib Demo.memfs Demo.os Demo.disk "in/b.txt"
  = Done (Some "invalid integer: abc"%string, []).
Proof.
  destruct (C8_read_errors Demo.lib Demo.memfs Demo.os Demo.disk "in/b.txt")
    as (_ & Hopened & _ & Hrun & _).
  destruct (Hopened (mkScanned Demo.bad_lines None) eq_refl) as (Hbad & _ & Hiff & _).
  split; [apply (Hbad "abc"%string); reflexivity|].
  split; [apply Hiff; discriminate|].
  apply Hrun. reflexivity.
Defined.

(** The file modes on the in-memory disk: a blank line and padding are
    skipped, the line abc is rejected, a short file is refused, and in
    directory mode the output of a.txt is written while b.txt stops the
    run and gets no output file. *)
Example read_good_file :
  readNumbersFromFile Demo.lib Demo.memfs Demo.os Demo.disk "in/a.txt"
  = ([10; 9; 8; 7; 6; 5; 4; 3; 2; -1], None).
Proof. reflexivity. Qed.

Example read_bad_file :
  readNumbersFromFile Demo.lib Demo.memfs Demo.os Demo.disk "in/b.txt"
  = ([], Some "invalid integer: abc"%string).
Proof. reflexivity. Qed.

Example run_short_file :
  runInputFile Demo.lib Demo.memfs Demo.os Demo.disk "in/short.txt"
  = Done (Some "input file must contain at least 10 valid integers"%string, []).
Proof. reflexivity. Qed.

Example run_directory_stops_at_bad_file :
  exists w',
    runDirectory Demo.lib Demo.memfs Demo.os Demo.disk "in"
    = Done (w', Some "invalid integer: abc"%string) /\
    Demo.lookup "in_sorted_sandra_jaimy_241ADB123/a.txt" (Demo.m_files w')
    = Some ["-1"; "2"; "3"; "4"; "5"; "6"; "7"; "8"; "9"; "10"]%string /\
    Demo.lookup "in_sorted_sandra_jaimy_241ADB123/b.txt" (Demo.m_files w') = None.
Proof. eexists. split; [vm_compute; reflexivity|]. split; reflexivity. Qed.

(** * Further properties of the code *)

(** ** The pipeline on any input *)

Lemma isort_perm_eq (l1 l2 : list Z) : Permutation l1 l2 -> isort l1 = isort l2.
Proof.
  intros Hp. apply sorted_perm_unique; try apply isort_sorted.
  rewrite <- (isort_perm l1), <- (isort_perm l2). exact Hp.
Qed.

Lemma isort_idem (l : list Z) : isort (isort l) = isort l.
Proof. apply isort_id, isort_sorted. Qed.

(** The array after the chunks of a tiling have been sorted: same
    length, and unchanged before and behind the tiling. *)
Lemma fold_sort_frame (a : array) (chunks : list slice) (o e : Z) :
  tiles o chunks e -> 0 <= o -> e <= Z.of_nat (length a) ->
  let a' := fold_left sort_Ints chunks a in
  length a' = length a /\
  firstn (Z.to_nat o) a' = firstn (Z.to_nat o) a /\
  skipn (Z.to_nat e) a' = skipn (Z.to_nat e) a.
Proof.
  intros Ht Ho He a'. pose proof (tiles_le _ _ _ Ht) as Hoe.
  set (blocks := concat (map (fun c => isort (view a c)) chunks)).
  assert (Ha' : a' = firstn (Z.to_nat o) a ++ blocks ++ skipn (Z.to_nat e) a)
    by (apply fold_sort_tiles; assumption).
  assert (Hpre : length (firstn (Z.to_nat o) a) = Z.to_nat o)
    by (rewrite length_firstn; lia).
  assert (Hblen : length blocks = Z.to_nat (e - o)).
  { unfold blocks. rewrite <- (Permutation_length (Permutation_concat_isort (view a) chunks)).
    rewrite (concat_view_tiles a chunks o e Ht Ho He), length_firstn, length_skipn. lia. }
  split; [|split].
  - rewrite Ha', !length_app, Hpre, Hblen, length_skipn. lia.
  - rewrite Ha'. rewrite <- Hpre at 1. rewrite firstn_app, firstn_all, Nat.sub_diag.
    rewrite firstn_0, app_nil_r. reflexivity.
  - rewrite Ha', app_assoc, skipn_app.
    assert (Hlen2 : length (firstn (Z.to_nat o) a ++ blocks) = Z.to_nat e)
      by (rewrite length_app, Hpre, Hblen; lia).
    rewrite (skipn_all2 (firstn (Z.to_nat o) a ++ blocks)) by lia.
    rewrite Hlen2, Nat.sub_diag. reflexivity.
Qed.

(** X1.  The pipeline has no lower bound of its own: on a sequence of any
    length, the empty one included, it returns without panic, and its
    output is the input in increasing order, the result sort.Ints would
    give on the whole sequence. *)
Theorem pipeline_any_length (a : array) (numbers : slice) :
  wf_slice a numbers ->
  exists a',
    pipeline a numbers = Done (a', isort (view a numbers)) /\
    (len numbers = 0 -> pipeline a numbers = Done (a, [])).
Proof.
  intros Hwf. pose proof Hwf as (Ho & Hl & Hc).
  destruct (pipeline_spec a numbers Hwf) as (chunks & output & _ & Htiles & Hrun & Hperm & Hs).
  assert (Hout : output = isort (view a numbers)).
  { apply sorted_perm_unique; [exact Hs | apply isort_sorted|].
    rewrite <- Hperm. apply isort_perm. }
  exists (fold_left sort_Ints chunks a). rewrite Hrun, Hout. split; [reflexivity|].
  intros Hzero. f_equal. f_equal.
  - rewrite (fold_sort_tiles chunks a _ _ Htiles) by lia.
    replace (concat (map (fun c => isort (view a c)) chunks)) with (@nil Z).
    + rewrite Hzero, Z.add_0_r. apply firstn_skipn.
    + symmetry. apply length_zero_iff_nil.
      rewrite <- (Permutation_length (Permutation_concat_isort (view a) chunks)).
      rewrite (concat_view_tiles a chunks _ _ Htiles) by lia.
      rewrite length_firstn. lia.
  - unfold view. rewrite Hzero. reflexivity.
Qed.

Lemma pipeline_any_length_witness :
  exists a',
    pipeline short_array short_slice = Done (a', isort (view short_array short_slice)) /\
    (len short_slice = 0 -> pipeline short_array short_slice = Done (short_array, [])).
Proof.
  apply (pipeline_any_length short_array short_slice).
  unfold wf_slice, short_slice, short_array. simpl. lia.
Defined.

(** X2.  Running the pipeline a second time on the array the first run
    left behind gives the same output and changes nothing more: every
    chunk is already sorted. *)
Theorem pipeline_twice (a a' : array) (numbers : slice) (output : list Z) :
  wf_slice a numbers ->
  pipeline a numbers = Done (a', output) ->
  pipeline a' numbers = Done (a', output).
Proof.
  intros Hwf Hrun. pose proof Hwf as (Ho & Hl & Hc).
  destruct (pipeline_spec a numbers Hwf)
    as (chunks & out1 & Hsplit & Htiles & Hrun1 & Hperm1 & Hs1).
  rewrite Hrun1 in Hrun. inversion Hrun; subst a' output; clear Hrun.
  set (a1 := fold_left sort_Ints chunks a) in *.
  set (o := off numbers) in *. set (e := off numbers + len numbers) in *.
  assert (He : e <= Z.of_nat (length a)) by (unfold e; lia).
  destruct (fold_sort_frame a chunks o e Htiles Ho He) as (Hlen & Hpre & Hpost).
  fold a1 in Hlen, Hpre, Hpost.
  assert (Hwf1 : wf_slice a1 numbers) by (unfold wf_slice; rewrite Hlen; auto).
  destruct (pipeline_spec a1 numbers Hwf1)
    as (chunks2 & out2 & Hsplit2 & _ & Hrun2 & Hperm2 & Hs2).
  rewrite Hsplit in Hsplit2. inversion Hsplit2; subst chunks2; clear Hsplit2.
  rewrite Hrun2. f_equal. f_equal.
  - (* the array: sorting sorted chunks *)
    rewrite (fold_sort_tiles chunks a1 o e Htiles Ho) by lia.
    rewrite Hpre, Hpost.
    replace (map (fun c => isort (view a1 c)) chunks)
      with (map (fun c => isort (view a c)) chunks).
    + symmetry. apply fold_sort_tiles; assumption.
    + rewrite <- (map_map (view a1) isort).
      unfold a1. rewrite (views_after_sort a chunks o e Htiles Ho He).
      rewrite map_map. apply map_ext. intros c. symmetry. apply isort_idem.
  - (* the output: the same elements, sorted *)
    apply sorted_perm_unique; [exact Hs2 | exact Hs1|].
    rewrite <- Hperm2, <- Hperm1.
    unfold view at 1 2.
    assert (Hspan : forall b : array,
               view b numbers = firstn (Z.to_nat (e - o)) (skipn (Z.to_nat o) b))
      by (intros b; apply view_numbers_span).
    fold (view a1 numbers). fold (view a numbers). rewrite !Hspan.
    rewrite <- (concat_view_tiles a1 chunks o e Htiles Ho) by lia.
    rewrite <- (concat_view_tiles a chunks o e Htiles Ho He).
    unfold a1. rewrite (views_after_sort a chunks o e Htiles Ho He).
    apply Permutation_sym, Permutation_concat_isort.
Qed.

Lemma pipeline_twice_witness :
  pipeline [8; 9; 10; 5; 6; 7; 3; 4; 1; 2] (whole ten_down)
  = Done ([8; 9; 10; 5; 6; 7; 3; 4; 1; 2], [1; 2; 3; 4; 5; 6; 7; 8; 9; 10]).
Proof.
  apply (pipeline_twice ten_down _ (whole ten_down)).
  - unfold wf_slice, whole. simpl. lia.
  - vm_compute. reflexivity.
Defined.

(** ** More on the partition *)

Lemma split_loop_caps (numbers : slice) (base rem : Z) :
  forall (todo : nat) (i idx : Z) (chunks : list slice),
    split_loop numbers base rem todo i idx = Done chunks ->
    Forall (fun c => off c + cap c = off numbers + cap numbers) chunks.
Proof.
  induction todo as [| todo IH]; intros i idx chunks Hrun; cbn [split_loop] in Hrun.
  - inversion Hrun. constructor.
  - apply bind_Done in Hrun. destruct Hrun as (c & Hc & Hrun).
    apply bind_Done in Hrun. destruct Hrun as (rest & Hrest & Hrun).
    inversion Hrun; subst chunks. constructor; [|eapply IH; exact Hrest].
    unfold reslice in Hc.
    destruct ((0 <=? idx) && (idx <=? _) && (_ <=? cap numbers)); [|discriminate].
    inversion Hc; subst c. cbn [off cap]. lia.
Qed.

Lemma tiles_ordered (chunks : list slice) (o e : Z) :
  tiles o chunks e ->
  forall i j ci cj,
    (i < j)%nat -> nth_error chunks i = Some ci -> nth_error chunks j = Some cj ->
    off ci + len ci <= off cj.
Proof.
  revert o. induction chunks as [| c rest IH]; intros o Ht i j ci cj Hij Hi Hj.
  - destruct i; discriminate.
  - destruct Ht as (Hoff & Hlen & Ht). destruct j as [| j]; [lia|].
    simpl in Hj. destruct i as [| i]; simpl in Hi.
    + inversion Hi; subst ci.
      destruct (tiles_in _ _ _ cj Ht (nth_error_In _ _ Hj)) as (Hlo & _). lia.
    + apply (IH _ Ht i j ci cj); [lia | assumption | assumption].
Qed.

(** X3.  The chunks are sub-slices of the caller's slice cut with a
    two-index slice expression: their spans lie inside the sequence, a
    chunk ends before any later chunk begins, so no two goroutines write
    the same element; but the capacity of every chunk runs on to the end
    of the caller's capacity, over the chunks behind it. *)
Theorem chunks_disjoint_caps_shared (a : array) (numbers : slice) :
  wf_slice a numbers ->
  exists chunks,
    splitIntoChunks numbers = Done chunks /\
    (forall i j ci cj,
        (i < j)%nat -> nth_error chunks i = Some ci -> nth_error chunks j = Some cj ->
        off ci + len ci <= off cj) /\
    (forall c, In c chunks ->
               off numbers <= off c /\
               off c + len c <= off numbers + len numbers /\
               off c + cap c = off numbers + cap numbers /\
               wf_slice a c).
Proof.
  intros (Ho & Hl & Hc).
  destruct (splitIntoChunks_spec numbers Hl) as (chunks & Hsplit & _ & Htiles & _).
  exists chunks. split; [exact Hsplit|]. split; [apply (tiles_ordered _ _ _ Htiles)|].
  intros c Hin. destruct (tiles_in _ _ _ c Htiles Hin) as (Hlo & Hlen & Hhi).
  pose proof (split_loop_caps _ _ _ _ _ _ _ Hsplit) as Hcaps.
  rewrite Forall_forall in Hcaps. specialize (Hcaps c Hin).
  repeat split; try lia.
Qed.

Lemma chunks_disjoint_caps_shared_witness :
  exists chunks,
    splitIntoChunks short_slice = Done chunks /\
    (forall i j ci cj,
        (i < j)%nat -> nth_error chunks i = Some ci -> nth_error chunks j = Some cj ->
        off ci + len ci <= off cj) /\
    (forall c, In c chunks ->
               off short_slice <= off c /\
               off c + len c <= off short_slice + len short_slice /\
               off c + cap c = off short_slice + cap short_slice /\
               wf_slice short_array c).
Proof.
  apply (chunks_disjoint_caps_shared short_array short_slice).
  unfold wf_slice, short_slice, short_array. simpl. lia.
Defined.

Lemma ceil_sqrt_le_self (n : Z) : 1 <= n -> ceil_sqrt n <= n.
Proof.
  intros Hn. destruct (F64Facts.ceil_sqrt_spec n ltac:(lia)) as (Hk0 & _ & Hkl).
  specialize (Hkl ltac:(lia)).
  destruct (Z_lt_le_dec n (ceil_sqrt n)) as [Hlt | Hge]; [|exact Hge]. exfalso.
  assert (n * n <= (ceil_sqrt n - 1) * (ceil_sqrt n - 1))
    by (apply Z.square_le_mono_nonneg; lia).
  assert (n * 1 <= n * n) by (apply Z.mul_le_mono_nonneg_l; lia). lia.
Qed.

(** A quotient by at least the root's ceiling is at most that ceiling,
    also when rounded up. *)
Lemma chunk_size_le_root (n nc k : Z) :
  0 <= n -> n <= k * k -> 0 <= k -> k <= nc -> 0 < nc ->
  (if 0 <? n mod nc then n / nc + 1 else n / nc) <= k.
Proof.
  intros Hn Hnk Hk Hknc Hnc.
  pose proof (Z.div_mod n nc ltac:(lia)) as Hdm.
  pose proof (Z.mod_pos_bound n nc Hnc) as Hmod.
  assert (Hq0 : 0 <= n / nc) by (apply Z.div_pos; lia).
  destruct (Z_lt_le_dec k (n / nc + (if 0 <? n mod nc then 1 else 0))) as [Hbig | Hok].
  - exfalso.
    assert (Hkk : k * k <= nc * k) by (apply Z.mul_le_mono_nonneg_r; lia).
    destruct (Z.ltb_spec 0 (n mod nc)).
    + assert (nc * k <= nc * (n / nc)) by (apply Z.mul_le_mono_nonneg_l; lia). lia.
    + assert (nc * (k + 1) <= nc * (n / nc)) by (apply Z.mul_le_mono_nonneg_l; lia). lia.
  - destruct (0 <? n mod nc); lia.
Qed.

(** X4.  Chunk sizes (for lengths up to 2^52): no chunk has more than
    ceil(sqrt(n)) elements; from n = 4 on no chunk is empty; below that
    there are still 4 chunks, one element in each of the first n and the
    others empty. *)
Theorem chunk_size_bounds (numbers : slice) :
  0 <= len numbers <= cap numbers ->
  len numbers <= 2 ^ 52 ->
  let n := len numbers in
  exists chunks,
    splitIntoChunks numbers = Done chunks /\
    (forall c, In c chunks -> len c <= ceil_sqrt n) /\
    (4 <= n -> forall c, In c chunks -> 1 <= len c) /\
    (n < 4 -> map len chunks = repeat 1 (Z.to_nat n) ++ repeat 0 (4 - Z.to_nat n)).
Proof.
  intros Hl H52 n.
  destruct (splitIntoChunks_spec numbers Hl) as (chunks & Hsplit & Hlen & _ & Hsz).
  fold n in Hlen, Hsz.
  pose proof (F64Facts.numChunks_exact n ltac:(unfold n; lia)) as Hnc.
  destruct (F64Facts.ceil_sqrt_spec n ltac:(unfold n; lia)) as (Hk0 & Hku & _).
  set (nc := numChunks n) in *.
  assert (Hnc4 : 4 <= nc) by (unfold nc; apply numChunks_ge_4).
  pose proof (Z.div_mod n nc ltac:(lia)) as Hdm.
  pose proof (Z.mod_pos_bound n nc ltac:(lia)) as Hmod.
  exists chunks. split; [exact Hsplit|]. split; [|split].
  - intros c Hin. apply In_nth_error in Hin. destruct Hin as [k Hk].
    rewrite (Hsz k c Hk).
    pose proof (chunk_size_le_root n nc (ceil_sqrt n) ltac:(unfold n; lia) Hku Hk0
                  ltac:(lia) ltac:(lia)) as Hle.
    destruct (Z.ltb_spec (Z.of_nat k) (n mod nc)); destruct (Z.ltb_spec 0 (n mod nc)); lia.
  - intros H4 c Hin. apply In_nth_error in Hin. destruct Hin as [k Hk].
    rewrite (Hsz k c Hk).
    assert (Hle : nc <= n) by (pose proof (ceil_sqrt_le_self n ltac:(lia)); lia).
    assert (1 <= n / nc) by (apply Z.div_le_lower_bound; lia).
    destruct (Z.of_nat k <? n mod nc); lia.
  - intros Hsmall.
    assert (Hn : n = 0 \/ n = 1 \/ n = 2 \/ n = 3) by (unfold n in *; lia).
    assert (Hnc' : nc = 4).
    { rewrite Hnc. destruct Hn as [-> | [-> | [-> | ->]]]; reflexivity. }
    rewrite Hnc' in *.
    destruct chunks as [| c0 [| c1 [| c2 [| c3 [| c4 rest]]]]]; simpl in Hlen; try lia.
    cbn [map]. rewrite (Hsz 0%nat c0 eq_refl), (Hsz 1%nat c1 eq_refl),
      (Hsz 2%nat c2 eq_refl), (Hsz 3%nat c3 eq_refl).
    destruct Hn as [-> | [-> | [-> | ->]]]; reflexivity.
Qed.

Lemma chunk_size_bounds_witness :
  exists chunks,
    splitIntoChunks short_slice = Done chunks /\
    (forall c, In c chunks -> len c <= ceil_sqrt 3) /\
    (4 <= 3 -> forall c, In c chunks -> 1 <= len c) /\
    (3 < 4 -> map len chunks = repeat 1 (Z.to_nat 3) ++ repeat 0 (4 - Z.to_nat 3)).
Proof.
  apply (chunk_size_bounds short_slice); simpl; lia.
Defined.

(** ** More on the sorter *)

(** X5.  sortChunksConcurrently returns the headers it was given, keeps
    the array's length and everything outside the chunks, leaves every
    chunk sorted with the elements it had, and is idempotent: applied to
    its own result it changes nothing. *)
Theorem sortChunks_idempotent (a : array) (numbers : slice) (chunks : list slice) :
  wf_slice a numbers ->
  splitIntoChunks numbers = Done chunks ->
  let a' := fst (sortChunksConcurrently a chunks) in
  snd (sortChunksConcurrently a chunks) = chunks /\
  length a' = length a /\
  firstn (Z.to_nat (off numbers)) a' = firstn (Z.to_nat (off numbers)) a /\
  skipn (Z.to_nat (off numbers + len numbers)) a'
  = skipn (Z.to_nat (off numbers + len numbers)) a /\
  Forall (fun c => Sorted Z.le (view a' c) /\ Permutation (view a c) (view a' c)) chunks /\
  sortChunksConcurrently a' chunks = (a', chunks).
Proof.
  intros Hwf Hsplit a'. pose proof Hwf as (Ho & Hl & Hc).
  destruct (splitIntoChunks_spec numbers Hl) as (chunks' & Hsplit' & _ & Htiles & _).
  rewrite Hsplit in Hsplit'. inversion Hsplit'; subst chunks'; clear Hsplit'.
  set (o := off numbers) in *. set (e := off numbers + len numbers) in *.
  assert (He : e <= Z.of_nat (length a)) by (unfold e; lia).
  destruct (fold_sort_frame a chunks o e Htiles Ho He) as (Hlen & Hpre & Hpost).
  pose proof (views_after_sort a chunks o e Htiles Ho He) as Hviews.
  cbn [sortChunksConcurrently fst snd] in *. fold a' in Hlen, Hpre, Hpost, Hviews.
  split; [reflexivity|]. split; [exact Hlen|]. split; [exact Hpre|]. split; [exact Hpost|].
  split.
  - apply Forall_forall. intros c Hin.
    assert (Hv : view a' c = isort (view a c)).
    { apply In_nth_error in Hin. destruct Hin as [k Hk].
      assert (H1 : nth_error (map (view a') chunks) k = Some (view a' c))
        by (apply map_nth_error; exact Hk).
      rewrite Hviews in H1. rewrite (map_nth_error _ _ _ Hk) in H1. congruence. }
    rewrite Hv. split; [apply Sorted_le_strong, isort_sorted | apply isort_perm].
  - unfold sortChunksConcurrently. f_equal.
    rewrite (fold_sort_tiles chunks a' o e Htiles Ho) by lia.
    rewrite Hpre, Hpost.
    replace (map (fun c => isort (view a' c)) chunks)
      with (map (fun c => isort (view a c)) chunks).
    + symmetry. apply fold_sort_tiles; assumption.
    + rewrite <- (map_map (view a') isort), Hviews, map_map.
      apply map_ext. intros c. symmetry. apply isort_idem.
Qed.

Lemma sortChunks_idempotent_witness :
  let a' := fst (sortChunksConcurrently ten_down ten_chunks) in
  snd (sortChunksConcurrently ten_down ten_chunks) = ten_chunks /\
  length a' = length ten_down /\
  firstn (Z.to_nat (off (whole ten_down))) a'
  = firstn (Z.to_nat (off (whole ten_down))) ten_down /\
  skipn (Z.to_nat (off (whole ten_down) + len (whole ten_down))) a'
  = skipn (Z.to_nat (off (whole ten_down) + len (whole ten_down))) ten_down /\
  Forall (fun c => Sorted Z.le (view a' c) /\ Permutation (view ten_down c) (view a' c))
    ten_chunks /\
  sortChunksConcurrently a' ten_chunks = (a', ten_chunks).
Proof.
  apply (sortChunks_idempotent ten_down (whole ten_down) ten_chunks).
  - unfold wf_slice, whole. simpl. lia.
  - vm_compute. reflexivity.
Defined.

(** ** More on the merge *)

Lemma subseq_refl {A : Type} (l : list A) : subseq l l.
Proof. induction l as [| x t IH]; constructor; exact IH. Qed.

Lemma subseq_length {A : Type} (l1 l2 : list A) :
  subseq l1 l2 -> (length l1 <= length l2)%nat.
Proof. induction 1; simpl; lia. Qed.

(** A subsequence as long as the whole list is the whole list. *)
Lemma subseq_full {A : Type} (l1 l2 : list A) :
  subseq l1 l2 -> length l1 = length l2 -> l1 = l2.
Proof.
  induction 1 as [l | x l1 l2 Hs IH | x l1 l2 Hs IH]; simpl; intros Hlen.
  - destruct l; [reflexivity | discriminate].
  - f_equal. apply IH. lia.
  - apply subseq_length in Hs. lia.
Qed.

Lemma advance_nth (indices : list Z) (c : Z) (j : nat) (ix : Z) :
  0 <= c -> nth_error indices j = Some ix ->
  nth_error (advance indices c) j
  = Some (if Nat.eqb (Z.to_nat c) j then ix + 1 else ix).
Proof.
  intros Hc Hj. unfold advance.
  destruct (Nat.eqb_spec (Z.to_nat c) j) as [E | E].
  - rewrite E, (nth_error_nth _ _ 0 Hj). apply nth_error_upd_same.
    apply nth_error_Some. congruence.
  - rewrite nth_error_upd_other by exact E. exact Hj.
Qed.

(** Along the loop every chunk gives up its elements front to back: what
    a chunk still holds is a subsequence of what the loop goes on to
    emit. *)
Lemma merge_trace_subseq (chunks : list (list Z)) :
  forall (fuel : nat) (indices : list Z) (tr : list (list Z * Z * Z)),
    cursors_ok chunks indices ->
    merge_trace fuel chunks indices = Done tr ->
    forall j c ix,
      nth_error chunks j = Some c -> nth_error indices j = Some ix ->
      subseq (skipn (Z.to_nat ix) c) (emitted tr).
Proof.
  induction fuel as [| fuel IH]; intros indices tr Hok Hrun j c ix Hc Hix;
    [discriminate|].
  cbn [merge_trace] in Hrun.
  destruct (scan_spec chunks indices Hok)
    as (v & c' & Hscan & [[-> Hnone] | (Hc1 & Hclt & Hsel)]);
    rewrite Hscan in Hrun; cbn [bind] in Hrun.
  - simpl in Hrun. inversion Hrun; subst tr.
    specialize (Hnone j). unfold head_at in Hnone. rewrite Hc, Hix in Hnone.
    destruct (Z.ltb_spec ix (Z.of_nat (length c))) as [Hlt | Hge].
    + destruct (Forall2_nth_error _ _ _ Hok j (ConcFacts.nth_error_lt _ _ _ Hc))
        as (c0 & ix0 & Hc0 & Hix0 & Hb).
      rewrite Hc in Hc0. rewrite Hix in Hix0. inversion Hc0; inversion Hix0; subst.
      apply nth_error_None in Hnone. lia.
    + rewrite skipn_all2 by lia. constructor.
  - replace (c' =? -1) with false in Hrun by (symmetry; apply Z.eqb_neq; exact Hc1).
    destruct Hsel as (Hc0 & Hhead & _).
    destruct (remaining_take chunks indices Hok (Z.to_nat c') v Hhead) as (Hok' & _).
    rewrite Z2Nat.id in Hok' by exact Hc0.
    rewrite incr_advance in Hrun
      by (try exact Hc0; rewrite (cursors_ok_length _ _ Hok); lia).
    cbn [bind] in Hrun. apply bind_Done in Hrun. destruct Hrun as (tr' & Htr' & Hrun).
    inversion Hrun; subst tr. cbn [emitted map fst snd]. fold (emitted tr').
    pose proof (advance_nth indices c' j ix Hc0 Hix) as Hadv.
    pose proof (IH (advance indices c') tr' Hok' Htr' j c _ Hc Hadv) as Hsub.
    destruct (Nat.eqb_spec (Z.to_nat c') j) as [E | E].
    + subst j. unfold head_at in Hhead. rewrite Hc, Hix in Hhead.
      destruct (Z.ltb_spec ix (Z.of_nat (length c))) as [Hlt | Hge]; [|discriminate].
      destruct (Forall2_nth_error _ _ _ Hok _ (ConcFacts.nth_error_lt _ _ _ Hc))
        as (c0 & ix0 & Hc2 & Hix2 & Hb).
      rewrite Hc in Hc2. rewrite Hix in Hix2. inversion Hc2; inversion Hix2; subst.
      rewrite (skipn_nth_error _ _ _ Hhead).
      replace (Z.to_nat (ix0 + 1)) with (S (Z.to_nat ix0)) in Hsub by lia.
      constructor. exact Hsub.
    + constructor. exact Hsub.
Qed.

(** X6.  mergeSortedChunks does not depend on its chunks being sorted to
    be a merge: on any chunks the output is a rearrangement of all their
    elements in which the elements of each chunk keep their order.  So
    merging a single chunk returns that chunk, sorted or not. *)
Theorem merge_interleaves (chunks : list (list Z)) :
  exists output,
    mergeSortedChunks chunks = Done output /\
    Permutation output (concat chunks) /\
    Forall (fun c => subseq c output) chunks /\
    (forall c, chunks = [c] -> output = c).
Proof.
  destruct (mergeSortedChunks_spec chunks) as (tr & Htr & Hrun & Hperm & _).
  assert (Hsub : Forall (fun c => subseq c (emitted tr)) chunks).
  { apply Forall_forall. intros c Hin. apply In_nth_error in Hin. destruct Hin as [j Hj].
    change c with (skipn (Z.to_nat 0) c).
    apply (merge_trace_subseq chunks _ _ tr (cursors_ok_zero chunks) Htr j c 0 Hj).
    apply ConcFacts.nth_error_repeat_lt. apply nth_error_Some. congruence. }
  exists (emitted tr). split; [exact Hrun|]. split; [exact Hperm|]. split; [exact Hsub|].
  intros c ->. inversion Hsub as [| c0 l Hc _]; subst. symmetry.
  apply subseq_full; [exact Hc|].
  rewrite (Permutation_length Hperm). simpl. rewrite app_nil_r. reflexivity.
Qed.

(** X7.  On chunks that are each sorted, mergeSortedChunks returns all
    their elements in increasing order: the sorted rearrangement of their
    concatenation. *)
Theorem merge_sorted_chunks_sorts (chunks : list (list Z)) :
  Forall (Sorted Z.le) chunks ->
  mergeSortedChunks chunks = Done (isort (concat chunks)) /\
  Sorted Z.le (isort (concat chunks)) /\
  Permutation (concat chunks) (isort (concat chunks)).
Proof.
  intros Hs.
  destruct (mergeSortedChunks_spec chunks) as (tr & _ & Hrun & Hperm & _ & Hsorted).
  destruct Hsorted as (_ & Hst).
  { eapply Forall_impl; [|exact Hs]. intros c. apply Sorted_le_strong. }
  split; [|split; [apply Sorted_le_strong, isort_sorted | apply isort_perm]].
  rewrite Hrun. f_equal.
  apply sorted_perm_unique; [exact Hst | apply isort_sorted|].
  rewrite Hperm. apply isort_perm.
Qed.

Lemma merge_sorted_chunks_sorts_witness :
  mergeSortedChunks three_chunks = Done (isort (concat three_chunks)) /\
  Sorted Z.le (isort (concat three_chunks)) /\
  Permutation (concat three_chunks) (isort (concat three_chunks)).
Proof.
  apply (merge_sorted_chunks_sorts three_chunks).
  unfold three_chunks. repeat constructor; lia.
Defined.

(** ** What is printed *)

Lemma printChunks_numbered (a : array) (chunks : list slice) :
  printChunks a chunks = numbered (map (view a) chunks).
Proof.
  unfold printChunks, numbered. rewrite length_map. generalize 0%nat.
  induction chunks as [| c rest IH]; intros start; simpl; [reflexivity|].
  f_equal. apply IH.
Qed.

Lemma processAndPrint_events (a : array) (numbers : slice) :
  wf_slice a numbers ->
  exists chunks a',
    splitIntoChunks numbers = Done chunks /\
    tiles (off numbers) chunks (off numbers + len numbers) /\
    processAndPrint a numbers
    = Done (a',
            [PrintLine EmptyString; PrintLine "Chunks before sorting:"%string]
              ++ numbered (map (view a) chunks)
              ++ [PrintLine EmptyString; PrintLine "Chunks after sorting:"%string]
              ++ numbered (map (fun c => isort (view a c)) chunks)
              ++ [PrintLine EmptyString; PrintLine "Final sorted result:"%string;
                  PrintInts (isort (view a numbers))]).
Proof.
  intros Hwf. pose proof Hwf as (Ho & Hl & Hc).
  destruct (pipeline_spec a numbers Hwf)
    as (chunks & output & Hsplit & Htiles & Hrun & Hperm & Hs).
  assert (Hout : output = isort (view a numbers)).
  { apply sorted_perm_unique; [exact Hs | apply isort_sorted|].
    rewrite <- Hperm. apply isort_perm. }
  subst output.
  exists chunks, (fold_left sort_Ints chunks a). split; [exact Hsplit|].
  split; [exact Htiles|].
  unfold pipeline in Hrun. unfold processAndPrint.
  rewrite Hsplit in *. cbn [bind sortChunksConcurrently] in *.
  rewrite !printChunks_numbered.
  rewrite (views_after_sort a chunks _ _ Htiles) in * by lia.
  destruct (mergeSortedChunks (map (fun c => isort (view a c)) chunks)) as [r | |];
    cbn [bind] in *; try discriminate.
  inversion Hrun; subst r. rewrite <- !app_assoc. reflexivity.
Qed.

(** X8.  processAndPrint prints, in this order: the chunks as cut from the
    input, numbered from 0, whose contents together are the input; the
    same chunks each sorted; and the merged result, which is the input in
    increasing order.  The chunks "before sorting" are printed before the
    sorter runs, so they show the input although it is then sorted in
    place. *)
Theorem processAndPrint_report (a : array) (numbers : slice) :
  wf_slice a numbers ->
  exists chunks a',
    splitIntoChunks numbers = Done chunks /\
    concat (map (view a) chunks) = view a numbers /\
    processAndPrint a numbers
    = Done (a',
            [PrintLine EmptyString; PrintLine "Chunks before sorting:"%string]
              ++ numbered (map (view a) chunks)
              ++ [PrintLine EmptyString; PrintLine "Chunks after sorting:"%string]
              ++ numbered (map (fun c => isort (view a c)) chunks)
              ++ [PrintLine EmptyString; PrintLine "Final sorted result:"%string;
                  PrintInts (isort (view a numbers))]).
Proof.
  intros Hwf. pose proof Hwf as (Ho & Hl & Hc).
  destruct (processAndPrint_events a numbers Hwf)
    as (chunks & a' & Hsplit & Htiles & Hprint).
  exists chunks, a'. split; [exact Hsplit|]. split; [|exact Hprint].
  rewrite (concat_view_tiles a chunks _ _ Htiles) by lia.
  rewrite <- view_numbers_span. reflexivity.
Qed.

Lemma processAndPrint_report_witness :
  exists chunks a',
    splitIntoChunks (whole ten_down) = Done chunks /\
    concat (map (view ten_down) chunks) = view ten_down (whole ten_down) /\
    processAndPrint ten_down (whole ten_down)
    = Done (a',
            [PrintLine EmptyString; PrintLine "Chunks before sorting:"%string]
              ++ numbered (map (view ten_down) chunks)
              ++ [PrintLine EmptyString; PrintLine "Chunks after sorting:"%string]
              ++ numbered (map (fun c => isort (view ten_down c)) chunks)
              ++ [PrintLine EmptyString; PrintLine "Final sorted result:"%string;
                  PrintInts (isort (view ten_down (whole ten_down)))]).
Proof.
  apply (processAndPrint_report ten_down (whole ten_down)).
  unfold wf_slice, whole. simpl. lia.
Defined.

(** ** More on the random mode *)

Section RandomMore.

Variable rng : Type.
Variable Intn : Z -> rng -> Z * rng.

Lemma fill_random_app (l1 l2 : list Z) (g : rng) :
  fill_random rng Intn (l1 ++ l2) g
  = let '(r1, g1) := fill_random rng Intn l1 g in
    let '(r2, g2) := fill_random rng Intn l2 g1 in
    (r1 ++ r2, g2).
Proof.
  revert g. induction l1 as [| x t IH]; intros g; simpl.
  - destruct (fill_random rng Intn l2 g). reflexivity.
  - destruct (Intn 1000 g) as [v g1]. rewrite IH.
    destruct (fill_random rng Intn t g1) as [r1 g2].
    destruct (fill_random rng Intn l2 g2) as [r2 g3]. reflexivity.
Qed.

Variable maxAlloc : Z.


End RandomMore.

(** ** More on the file modes *)

Section FileMore.

Variable lib : GoLib.
Variable world : Type.
Variable os : OS world.

Lemma pipeline_fresh (numbers : list Z) :
  exists a', pipeline numbers (whole numbers) = Done (a', isort numbers).
Proof.
  destruct (pipeline_spec numbers (whole numbers) (wf_whole numbers))
    as (chunks & output & _ & _ & Hrun & Hperm & Hs).
  rewrite view_whole in Hperm.
  exists (fold_left sort_Ints chunks numbers). rewrite Hrun. do 2 f_equal.
  apply sorted_perm_unique; [exact Hs | apply isort_sorted|].
  rewrite <- Hperm. apply isort_perm.
Qed.

(** X10.  runInputFile on a file that opens, scans without error, has no
    line that fails to parse and holds at least 10 integers returns nil;
    it prints the integers in file order first and, after the chunk
    report, the same integers in increasing order last. *)
Theorem runInputFile_success (w : world) (path : string) (sc : scanned) :
  os_open os w path = inr sc ->
  scan_err sc = None ->
  first_bad lib (tokens sc) = None ->
  10 <= Z.of_nat (length (values_of lib (tokens sc))) ->
  let numbers := values_of lib (tokens sc) in
  exists chunks,
    splitIntoChunks (whole numbers) = Done chunks /\
    runInputFile lib world os w path
    = Done (None,
            [PrintLine "Original numbers:"%string; PrintInts numbers]
              ++ [PrintLine EmptyString; PrintLine "Chunks before sorting:"%string]
              ++ numbered (map (view numbers) chunks)
              ++ [PrintLine EmptyString; PrintLine "Chunks after sorting:"%string]
              ++ numbered (map (fun c => isort (view numbers c)) chunks)
              ++ [PrintLine EmptyString; PrintLine "Final sorted result:"%string;
                  PrintInts (isort numbers)]).
Proof.
  intros Hopen Hscan Hbad Hlen numbers.
  destruct (processAndPrint_events numbers (whole numbers) (wf_whole numbers))
    as (chunks & a' & Hsplit & _ & Hprint).
  rewrite view_whole in Hprint.
  exists chunks. split; [exact Hsplit|].
  unfold runInputFile, readNumbersFromFile.
  rewrite Hopen, read_loop_spec, Hbad, Hscan. cbn [app]. fold numbers.
  destruct (Z.ltb_spec (Z.of_nat (length numbers)) 10); [unfold numbers in *; lia|].
  rewrite Hprint. reflexivity.
Qed.

Variable fmt : Z -> string.

Lemma read_formatted (nums : list Z) :
  (forall n, In n nums ->
             TrimSpace lib (fmt n) <> EmptyString /\
             Atoi lib (TrimSpace lib (fmt n)) = Some n) ->
  first_bad lib (map fmt nums) = None /\ values_of lib (map fmt nums) = nums.
Proof.
  induction nums as [| n rest IH]; intros Hfmt; [split; reflexivity|].
  destruct (Hfmt n (or_introl eq_refl)) as (Hnb & Hat).
  destruct (IH (fun m Hm => Hfmt m (or_intror Hm))) as (Hbad & Hvals).
  cbn [map first_bad values_of].
  destruct (String.eqb_spec (TrimSpace lib (fmt n)) EmptyString) as [E | _];
    [contradiction|].
  rewrite Hat, Hbad, Hvals. split; reflexivity.
Qed.

(** X11.  What writeNumbersToFile writes, readNumbersFromFile reads back:
    if the created file, after one Fprintln per integer, scans as the
    lines [fmt n] in order, and each such line trims to something that
    Atoi parses to [n], then reading the written file returns exactly the
    integers written, in order and without error.  If the file cannot be
    created, the error is returned and nothing is written. *)
Theorem write_then_read (w : world) (path : string) (nums : list Z) :
  (forall n, In n nums ->
             TrimSpace lib (fmt n) <> EmptyString /\
             Atoi lib (TrimSpace lib (fmt n)) = Some n) ->
  (forall w1, os_create os w path = inr w1 ->
              os_open os (fold_left (fun w' n => os_fprintln os w' path n) nums w1) path
              = inr (mkScanned (map fmt nums) None)) ->
  match writeNumbersToFile world os w path nums with
  | (w', None) => readNumbersFromFile lib world os w' path = (nums, None)
  | (w', Some e) => w' = w /\ os_create os w path = inl e
  end.
Proof.
  intros Hfmt Hfs. unfold writeNumbersToFile.
  destruct (os_create os w path) as [e | w1] eqn:Hcreate; [split; reflexivity|].
  unfold readNumbersFromFile. rewrite (Hfs w1 eq_refl), read_loop_spec. cbn [tokens scan_err].
  destruct (read_formatted nums Hfmt) as (-> & ->). reflexivity.
Qed.

Lemma dir_loop_no_txt (w : world) (dir outputDir : string) (files : list string) :
  (forall f, In f files -> Ext lib f <> ".txt"%string) ->
  dir_loop lib world os w dir outputDir files = Done (w, None).
Proof.
  induction files as [| f rest IH]; intros Hno; [reflexivity|].
  cbn [dir_loop].
  destruct (String.eqb_spec (Ext lib f) ".txt") as [E | _].
  - exfalso. apply (Hno f); [left; reflexivity | exact E].
  - cbn [negb]. apply IH. intros g Hg. apply Hno. right. exact Hg.
Qed.

(** X12.  Directory mode on a directory with one ".txt" entry among
    entries of other extensions: the others are not opened; if the entry
    holds at least 10 integers and the output file can be created,
    runDirectory returns nil, and the file system is the one in which the
    output directory exists and the file of the same name in it has
    received the entry's integers in increasing order, one Fprintln
    each. *)
Theorem runDirectory_single_input (w w1 w2 : world) (dir f : string)
  (before after : list string) (numbers : list Z) :
  let outputDir := String.append dir "_sorted_sandra_jaimy_241ADB123" in
  os_is_dir os w dir = true ->
  os_mkdir_all os w outputDir = inr w1 ->
  os_read_dir os w1 dir = inr (before ++ f :: after) ->
  (forall x, In x (before ++ after) -> Ext lib x <> ".txt"%string) ->
  Ext lib f = ".txt"%string ->
  readNumbersFromFile lib world os w1 (Join lib dir f) = (numbers, None) ->
  10 <= Z.of_nat (length numbers) ->
  os_create os w1 (Join lib outputDir f) = inr w2 ->
  runDirectory lib world os w dir
  = Done (fold_left (fun w' n => os_fprintln os w' (Join lib outputDir f) n)
            (isort numbers) w2,
          None).
Proof.
  intros outputDir Hdir Hmk Hls Hother Hext Hread Hlen Hcreate.
  unfold runDirectory. fold outputDir. rewrite Hdir, Hmk, Hls. cbn [negb].
  rewrite dir_loop_app, dir_loop_no_txt
    by (intros x Hx; apply Hother, in_or_app; left; exact Hx).
  cbn [dir_loop]. rewrite Hext.
  replace (String.eqb ".txt" ".txt") with true by reflexivity. cbn [negb].
  rewrite Hread.
  destruct (Z.ltb_spec (Z.of_nat (length numbers)) 10); [lia|].
  destruct (pipeline_fresh numbers) as (a' & ->). cbn [bind].
  unfold writeNumbersToFile. rewrite Hcreate.
  apply dir_loop_no_txt. intros x Hx. apply Hother, in_or_app. right. exact Hx.
Qed.

(** X13.  Directory mode stops at the first ".txt" entry that holds fewer
    than 10 integers, with the error "<name> has fewer than 10 numbers",
    and at the first output file that cannot be created, with the error
    of os.Create; in both cases the file system is as the entries before
    left it and the entries behind are not processed. *)
Theorem runDirectory_aborts (w w1 w2 : world) (dir f : string)
  (before after : list string) (numbers : list Z) :
  let outputDir := String.append dir "_sorted_sandra_jaimy_241ADB123" in
  os_is_dir os w dir = true ->
  os_mkdir_all os w outputDir = inr w1 ->
  os_read_dir os w1 dir = inr (before ++ f :: after) ->
  dir_loop lib world os w1 dir outputDir before = Done (w2, None) ->
  Ext lib f = ".txt"%string ->
  readNumbersFromFile lib world os w2 (Join lib dir f) = (numbers, None) ->
  (Z.of_nat (length numbers) < 10 ->
   runDirectory lib world os w dir
   = Done (w2, Some (String.append f " has fewer than 10 numbers"))) /\
  (forall e, 10 <= Z.of_nat (length numbers) ->
             os_create os w2 (Join lib outputDir f) = inl e ->
             runDirectory lib world os w dir = Done (w2, Some e)).
Proof.
  intros outputDir Hdir Hmk Hls Hbefore Hext Hread.
  assert (Hrun : runDirectory lib world os w dir
                 = if Z.of_nat (length numbers) <? 10
                   then Done (w2, Some (String.append f " has fewer than 10 numbers"))
                   else match writeNumbersToFile world os w2 (Join lib outputDir f)
                                (isort numbers) with
                        | (w', Some err) => Done (w', Some err)
                        | (w', None) => dir_loop lib world os w' dir outputDir after
                        end).
  { unfold runDirectory. fold outputDir. rewrite Hdir, Hmk, Hls. cbn [negb].
    rewrite dir_loop_app, Hbefore. cbn [dir_loop]. rewrite Hext.
    replace (String.eqb ".txt" ".txt") with true by reflexivity. cbn [negb].
    rewrite Hread. destruct (Z.of_nat (length numbers) <? 10); [reflexivity|].
    destruct (pipeline_fresh numbers) as (a' & ->). reflexivity. }
  split.
  - intros Hshort. rewrite Hrun.
    destruct (Z.ltb_spec (Z.of_nat (length numbers)) 10); [reflexivity | lia].
  - intros e Hlong Hcreate. rewrite Hrun.
    destruct (Z.ltb_spec (Z.of_nat (length numbers)) 10); [lia|].
    unfold writeNumbersToFile. rewrite Hcreate. reflexivity.
Qed.

Lemma dir_loop_total (dir outputDir : string) (files : list string) :
  forall w, exists w' err,
    dir_loop lib world os w dir outputDir files = Done (w', err).
Proof.
  induction files as [| f rest IH]; intros w; [exists w, None; reflexivity|].
  cbn [dir_loop]. destruct (negb (String.eqb (Ext lib f) ".txt")); [apply IH|].
  destruct (readNumbersFromFile lib world os w (Join lib dir f)) as [numbers [err |]];
    [eauto|].
  destruct (Z.of_nat (length numbers) <? 10); [eauto|].
  destruct (pipeline_fresh numbers) as (a' & ->). cbn [bind].
  destruct (writeNumbersToFile world os w (Join lib outputDir f) (isort numbers))
    as [w' [err |]]; [eauto | apply IH].
Qed.

Lemma runDirectory_total (w : world) (dir : string) :
  exists w' err, runDirectory lib world os w dir = Done (w', err).
Proof.
  unfold runDirectory. destruct (negb (os_is_dir os w dir)); [eauto|].
  destruct (os_mkdir_all os w _) as [e | w1]; [eauto|].
  destruct (os_read_dir os w1 dir) as [e | files]; [eauto|].
  apply dir_loop_total.
Qed.

Lemma runInputFile_total (w : world) (path : string) :
  exists err out, runInputFile lib world os w path = Done (err, out).
Proof.
  unfold runInputFile.
  destruct (readNumbersFromFile lib world os w path) as [numbers [err |]]; [eauto|].
  destruct (Z.of_nat (length numbers) <? 10); [eauto|].
  destruct (processAndPrint_events numbers (whole numbers) (wf_whole numbers))
    as (chunks & a' & _ & _ & ->). cbn [bind]. eauto.
Qed.

End FileMore.

Lemma runInputFile_success_witness :
  let numbers := values_of Demo.lib (tokens (mkScanned Demo.good_lines None)) in
  exists chunks,
    splitIntoChunks (whole numbers) = Done chunks /\
    runInputFile Demo.lib Demo.memfs Demo.os Demo.disk "in/a.txt"
    = Done (None,
            [PrintLine "Original numbers:"%string; PrintInts numbers]
              ++ [PrintLine EmptyString; PrintLine "Chunks before sorting:"%string]
              ++ numbered (map (view numbers) chunks)
              ++ [PrintLine EmptyString; PrintLine "Chunks after sorting:"%string]
              ++ numbered (map (fun c => isort (view numbers c)) chunks)
              ++ [PrintLine EmptyString; PrintLine "Final sorted result:"%string;
                  PrintInts (isort numbers)]).
Proof.
  apply (runInputFile_success Demo.lib Demo.memfs Demo.os Demo.disk "in/a.txt"
           (mkScanned Demo.good_lines None)).
  - reflexivity.
  - reflexivity.
  - reflexivity.
  - vm_compute. discriminate.
Defined.

Lemma write_then_read_witness :
  match writeNumbersToFile Demo.memfs Demo.os Demo.disk "out.txt" [3; -1; 20] with
  | (w', None) =>
      readNumbersFromFile Demo.lib Demo.memfs Demo.os w' "out.txt" = ([3; -1; 20], None)
  | (w', Some e) => w' = Demo.disk /\ os_create Demo.os Demo.disk "out.txt" = inl e
  end.
Proof.
  apply (write_then_read Demo.lib Demo.memfs Demo.os Demo.format_int
           Demo.disk "out.txt" [3; -1; 20]).
  - intros n [<- | [<- | [<- | []]]]; split; vm_compute; congruence.
  - intros w1 Hcreate. vm_compute in Hcreate. inversion Hcreate; subst w1.
    vm_compute. reflexivity.
Defined.

Lemma runDirectory_single_input_witness :
  runDirectory Demo.lib Demo.memfs Demo.os one_input_disk "in"
  = Done (fold_left
            (fun w' n =>
               os_fprintln Demo.os w'
                 (Join Demo.lib "in_sorted_sandra_jaimy_241ADB123" "a.txt") n)
            (isort [10; 9; 8; 7; 6; 5; 4; 3; 2; -1]) one_input_file_made,
          None).
Proof.
  apply (runDirectory_single_input Demo.lib Demo.memfs Demo.os
           one_input_disk one_input_dir_made one_input_file_made "in" "a.txt"
           [] ["notes.md"%string] [10; 9; 8; 7; 6; 5; 4; 3; 2; -1]).
  - reflexivity.
  - reflexivity.
  - reflexivity.
  - intros x [<- | []]. vm_compute. discriminate.
  - reflexivity.
  - reflexivity.
  - simpl. lia.
  - reflexivity.
Defined.

Lemma runDirectory_aborts_witness :
  exists w2,
    dir_loop Demo.lib Demo.memfs Demo.os short_input_dir_made "in"
      "in_sorted_sandra_jaimy_241ADB123" ["a.txt"%string] = Done (w2, None) /\
    (Z.of_nat (length [1; 2; 3]) < 10 ->
     runDirectory Demo.lib Demo.memfs Demo.os short_input_disk "in"
     = Done (w2, Some (String.append "short.txt" " has fewer than 10 numbers"))) /\
    (forall e, 10 <= Z.of_nat (length [1; 2; 3]) ->
               os_create Demo.os w2
                 (Join Demo.lib "in_sorted_sandra_jaimy_241ADB123" "short.txt") = inl e ->
               runDirectory Demo.lib Demo.memfs Demo.os short_input_disk "in"
               = Done (w2, Some e)).
Proof.
  eexists. split; [vm_compute; reflexivity|].
  apply (runDirectory_aborts Demo.lib Demo.memfs Demo.os
           short_input_disk short_input_dir_made _ "in" "short.txt"
           ["a.txt"%string] [] [1; 2; 3]).
  - reflexivity.
  - reflexivity.
  - reflexivity.
  - vm_compute. reflexivity.
  - reflexivity.
  - vm_compute. reflexivity.
Defined.

(** ** The barrier's counter *)

Lemma run_control (chunks : list slice) :
  forall (sched : list Conc.action) (s s' : Conc.state),
    Conc.run chunks s sched = Some s' ->
    Conc.control_ok (length chunks) s -> Conc.control_ok (length chunks) s'.
Proof.
  induction sched as [| act sched IH]; intros s s' Hrun Hc; simpl in Hrun.
  - inversion Hrun; subst. exact Hc.
  - destruct (Conc.step chunks s act) as [s1 |] eqn:Hstep; [|discriminate].
    apply (IH s1 s' Hrun). apply (ConcFacts.step_control _ _ _ _ Hc Hstep).
Qed.

Lemma pending_le_length (ts : list Conc.task) :
  Conc.pending ts <= Z.of_nat (length ts).
Proof.
  induction ts as [| t r IH]; [simpl; lia|].
  cbn [Conc.pending fold_right length]. fold (Conc.pending r). destruct t; lia.
Qed.

(** X14.  The wait-group counter under every schedule, for any chunks:
    it is never negative, so wg.Done never panics, and never above the
    number of chunks; the caller has added all goroutines before the
    first one is created, so from wg.Add on the counter is exactly the
    number of goroutines that have not yet called wg.Done, and wg.Wait
    cannot be passed early. *)
Theorem wg_counter (a : array) (chunks : list slice)
  (sched : list Conc.action) (s : Conc.state) :
  Conc.run chunks (Conc.init a chunks) sched = Some s ->
  0 <= Conc.wg s <= Z.of_nat (length chunks) /\
  (Conc.main s = Conc.AtAdd ->
   Conc.wg s = 0 /\ Conc.tasks s = repeat Conc.NotStarted (length chunks)) /\
  (Conc.main s <> Conc.AtAdd -> Conc.wg s = Conc.pending (Conc.tasks s)).
Proof.
  intros Hrun.
  destruct (run_control chunks sched _ _ Hrun (ConcFacts.init_control a chunks))
    as (Hlen & Hmain).
  pose proof (ConcFacts.pending_nonneg (Conc.tasks s)) as H0.
  pose proof (pending_le_length (Conc.tasks s)) as H1. rewrite Hlen in H1.
  destruct (Conc.main s) as [| i | |].
  - destruct Hmain as (Hwg & Hts). split; [lia|]. split; [auto | congruence].
  - destruct Hmain as (_ & Hwg & _). split; [lia|]. split; [discriminate | auto].
  - destruct Hmain as (Hwg & _). split; [lia|]. split; [discriminate | auto].
  - destruct Hmain as (Hwg & Hfin). split; [lia|]. split; [discriminate|].
    intros _. rewrite Hwg. symmetry.
    assert (Hall : forall ts : list Conc.task,
               (forall j t, nth_error ts j = Some t -> t = Conc.Finished) ->
               Conc.pending ts = 0).
    { induction ts as [| t r IH]; intros Hf; [reflexivity|].
      cbn [Conc.pending fold_right]. fold (Conc.pending r).
      rewrite (Hf 0%nat t eq_refl), IH; [reflexivity|].
      intros j t' Hj. apply (Hf (S j)). exact Hj. }
    apply Hall. exact Hfin.
Qed.

Lemma wg_counter_witness :
  exists s,
    Conc.run ten_chunks (Conc.init ten_down ten_chunks)
      [Conc.Main; Conc.Main; Conc.Main; Conc.SortInts 0; Conc.WgDone 0] = Some s /\
    0 <= Conc.wg s <= Z.of_nat (length ten_chunks) /\
    (Conc.main s = Conc.AtAdd ->
     Conc.wg s = 0 /\ Conc.tasks s = repeat Conc.NotStarted (length ten_chunks)) /\
    (Conc.main s <> Conc.AtAdd -> Conc.wg s = Conc.pending (Conc.tasks s)).
Proof.
  eexists. split; [vm_compute; reflexivity|].
  apply (wg_counter ten_down ten_chunks
           [Conc.Main; Conc.Main; Conc.Main; Conc.SortInts 0; Conc.WgDone 0]).
  vm_compute. reflexivity.
Defined.

(** ** The entry point *)

